(** * PacketDelay: the inter-packet delay search of [PacketDelay.cpp]

    The program measures a reference frame rate of a GigE Vision camera with
    the inter-packet delay at zero, starts from the theoretical delay that the
    camera reports, and shrinks the delay until the frame rate obtained with
    it equals the reference three times in a row.

    [MIL_DOUBLE] is the IEEE 754 binary64 format: it is embedded as Rocq's
    primitive [float], whose operations are those of the processor (round to
    nearest, ties to even) and are specified bit for bit by [Prim2SF] and the
    functions of [SpecFloat].  Integers ([MIL_INT], [MIL_UINT32],
    [MIL_UINT64]) are [Z] with their ranges written out.  The camera is an
    explicit state (its delay register) and the frame rates it reports are an
    input stream, one value for each acquisition of the loop. *)

From Stdlib Require Import ZArith Lia Bool QArith Qabs Qround Floats Sorting.Sorted.
From stdpp Require Import base option list strings.

Set Warnings "-inexact-float".

(** ** MIL_DOUBLE and its conversions *)

Module Double.

Local Open Scope float_scope.

(** Implicit conversion of a [MIL_UINT64] operand to [double]: the integer
    rounded to the nearest binary64 value. *)
Definition of_uint64 (n : Z) : float :=
  SF2Prim (binary_normalize prec emax n 0 false).

(** The integer part of a float (the fraction is discarded), when it has
    one: infinities and NaN have none. *)
Definition truncate (x : float) : option Z :=
  match Prim2SF x with
  | S754_zero _ => Some 0%Z
  | S754_finite s m e => Some (cond_Zopp s (Z.shiftl (Zpos m) e))
  | S754_infinity _ | S754_nan => None
  end.

Definition UINT32_MAX : Z := 4294967295.
Definition INT64_MAX : Z := 9223372036854775807.

(** The cast [(MIL_UINT32)x]: truncation toward zero; the behaviour is
    undefined ([None]) when the truncated value is not a 32-bit unsigned
    integer. *)
Definition to_uint32 (x : float) : option Z :=
  match truncate x with
  | Some z => if ((0 <=? z) && (z <=? UINT32_MAX))%Z then Some z else None
  | None => None
  end.

(** The rational number a finite float stands for: the mantissa times two
    to the exponent, as a fraction. *)
Definition SF2Q (x : spec_float) : option Q :=
  match x with
  | S754_zero _ => Some 0%Q
  | S754_finite s m (Zneg p) => Some (cond_Zopp s (Zpos m) # 2 ^ p)
  | S754_finite s m e => Some (inject_Z (cond_Zopp s (Zpos m) * 2 ^ e))
  | S754_infinity _ | S754_nan => None
  end.

Definition value (x : float) : option Q := SF2Q (Prim2SF x).

End Double.

Import Double.

(** ** The structures of the program *)

Record PacketDelayInfo : Type := mkInfo {
  BaseFrameRate : float;
  ProcessFrameRate : float;
  DelayInSeconds : float;
  TickFreq : Z;
  DelayTickVal : Z;
  ProcessFrameCount : Z;
  EqualityCounter : Z;
  Error : bool
}.

Record PacketDelayResults : Type := mkResults {
  PixelFormats : list string;
  InterPacketDelayInTicks : list Z;
  InterPacketDelayInSec : list float;
  ReferenceFrameRate : list float;
  ObtainedFrameRate : list float;
  Selection : nat
}.

(** The camera as the program sees it through [MdigControl]: the value of
    its inter-packet delay register, and every value programmed so far, the
    latest first. *)
Record Digitizer : Type := mkDigitizer {
  GC_INTER_PACKET_DELAY : Z;
  programmed : list Z
}.

(** [memset(&PktInfo, 0, sizeof(PacketDelayInfo))] followed by the inquiry of
    [M_GC_COUNTER_TICK_FREQUENCY]. *)
Definition zero_info (freq : Z) : PacketDelayInfo :=
  mkInfo 0%float 0%float 0%float freq 0 0 0 false.

Definition set_BaseFrameRate (v : float) (i : PacketDelayInfo) :=
  mkInfo v (ProcessFrameRate i) (DelayInSeconds i) (TickFreq i)
         (DelayTickVal i) (ProcessFrameCount i) (EqualityCounter i) (Error i).
Definition set_ProcessFrameRate (v : float) (i : PacketDelayInfo) :=
  mkInfo (BaseFrameRate i) v (DelayInSeconds i) (TickFreq i)
         (DelayTickVal i) (ProcessFrameCount i) (EqualityCounter i) (Error i).
Definition set_DelayInSeconds (v : float) (i : PacketDelayInfo) :=
  mkInfo (BaseFrameRate i) (ProcessFrameRate i) v (TickFreq i)
         (DelayTickVal i) (ProcessFrameCount i) (EqualityCounter i) (Error i).
Definition set_DelayTickVal (v : Z) (i : PacketDelayInfo) :=
  mkInfo (BaseFrameRate i) (ProcessFrameRate i) (DelayInSeconds i) (TickFreq i)
         v (ProcessFrameCount i) (EqualityCounter i) (Error i).
Definition set_EqualityCounter (v : Z) (i : PacketDelayInfo) :=
  mkInfo (BaseFrameRate i) (ProcessFrameRate i) (DelayInSeconds i) (TickFreq i)
         (DelayTickVal i) (ProcessFrameCount i) v (Error i).
Definition set_Error (v : bool) (i : PacketDelayInfo) :=
  mkInfo (BaseFrameRate i) (ProcessFrameRate i) (DelayInSeconds i) (TickFreq i)
         (DelayTickVal i) (ProcessFrameCount i) (EqualityCounter i) v.

(** [MdigControl(MilDigitizer, M_GC_INTER_PACKET_DELAY, v)]. *)
Definition MdigControl (v : Z) (dev : Digitizer) : Digitizer :=
  mkDigitizer v (v :: programmed dev).

(** ** The functions of the program *)

Section Program.

Local Open Scope float_scope.

Definition IsEqual (A B : float) : bool :=
  if (B <=? A + 0.1) && (A - 0.1 <=? B) then true else false.

(** [(MIL_UINT32)(Info.DelayInSeconds * Info.TickFreq)], the expression of
    every conversion of the delay to camera ticks. *)
Definition delay_ticks (seconds : float) (freq : Z) : option Z :=
  to_uint32 (seconds * of_uint64 freq).

(** [Info.EqualityCounter++] on a [MIL_INT]: signed overflow is undefined. *)
Definition increment (c : Z) : option Z :=
  if (c <? INT64_MAX)%Z then Some (c + 1)%Z else None.

(** [AcquireReferenceFrameRate]: [rate] is the frame rate the camera
    reports for the acquisition at delay zero and [theoretical] the value
    of [M_GC_THEORETICAL_INTER_PACKET_DELAY]. *)
Definition AcquireReferenceFrameRate (rate theoretical : float)
    (s : PacketDelayInfo * PacketDelayResults * Digitizer)
  : option (PacketDelayInfo * PacketDelayResults * Digitizer) :=
  let '(Info, Results, dev) := s in
  let dev := MdigControl 0 dev in
  let Info := set_BaseFrameRate rate Info in
  if decide (Selection Results < length (ReferenceFrameRate Results))%nat then
    let Results :=
      mkResults (PixelFormats Results) (InterPacketDelayInTicks Results)
        (InterPacketDelayInSec Results)
        (<[Selection Results := BaseFrameRate Info]> (ReferenceFrameRate Results))
        (ObtainedFrameRate Results) (Selection Results) in
    let Info := set_DelayInSeconds theoretical Info in
    t ← delay_ticks (DelayInSeconds Info) (TickFreq Info);
    Some (set_DelayTickVal t Info, Results, dev)
  else None.

(** The branch one pass of the loop of [FindInterPacketDelay] takes. *)
Inductive branch : Set :=
| MatchAtZero        (* equal rates, delay of zero ticks: error *)
| Converged          (* third equal rate in a row: 15% removed *)
| MatchReduce        (* equal rates: delay reduced by 1/50 *)
| MismatchAtZero     (* different rates, reduced delay of zero ticks: error *)
| MismatchNonPositive (* different rates, reduced delay not positive *)
| MismatchReduce.    (* different rates: delay reduced by 1/10 *)

(** One pass of the body of [while(!Done)], for the frame rate [measured]
    that the camera reports; the result carries the branch taken and the
    value of [Done]. *)
Definition iteration (measured : float) (s : PacketDelayInfo * Digitizer)
  : option (branch * bool * (PacketDelayInfo * Digitizer)) :=
  let '(Info, dev) := s in
  let dev := MdigControl (DelayTickVal Info) dev in
  let Info := set_ProcessFrameRate measured Info in
  if IsEqual (BaseFrameRate Info) (ProcessFrameRate Info) then
    c ← increment (EqualityCounter Info);
    let Info := set_EqualityCounter c Info in
    if (DelayTickVal Info =? 0)%Z then
      let Info := set_DelayInSeconds 0 Info in
      let Info := set_Error true Info in
      Some (MatchAtZero, true, (Info, dev))
    else if (EqualityCounter Info =? 3)%Z then
      let Info :=
        set_DelayInSeconds
          (DelayInSeconds Info - DelayInSeconds Info * 15 / 100) Info in
      let Info :=
        if DelayInSeconds Info <=? 0 then set_DelayInSeconds 0 Info else Info in
      t ← delay_ticks (DelayInSeconds Info) (TickFreq Info);
      let Info := set_DelayTickVal t Info in
      let dev := MdigControl (DelayTickVal Info) dev in
      Some (Converged, true, (Info, dev))
    else
      let Info :=
        set_DelayInSeconds (DelayInSeconds Info - DelayInSeconds Info / 50) Info in
      t ← delay_ticks (DelayInSeconds Info) (TickFreq Info);
      let Info := set_DelayTickVal t Info in
      Some (MatchReduce, false, (Info, dev))
  else
    let Info := set_EqualityCounter 0 Info in
    let Info :=
      set_DelayInSeconds (DelayInSeconds Info - DelayInSeconds Info / 10) Info in
    t ← delay_ticks (DelayInSeconds Info) (TickFreq Info);
    let Info := set_DelayTickVal t Info in
    if (DelayTickVal Info =? 0)%Z then
      let Info := set_DelayInSeconds 0 Info in
      let Info := set_Error true Info in
      Some (MismatchAtZero, true, (Info, dev))
    else if DelayInSeconds Info <=? 0 then
      let Info := set_DelayInSeconds 0 Info in
      Some (MismatchNonPositive, true, (Info, dev))
    else
      Some (MismatchReduce, false, (Info, dev)).

(** How the loop of [FindInterPacketDelay] ends on a stream of frame rates. *)
Inductive loop_result : Type :=
| Exited (n : nat) (b : branch) (s : PacketDelayInfo * Digitizer)
    (* [Done] was set by the [n]-th pass, which took branch [b] *)
| Running (n : nat) (s : PacketDelayInfo * Digitizer)
    (* still [!Done] after [n] passes, when the stream ends *)
| Undefined (n : nat).
    (* the [n]-th pass has undefined behaviour *)

(** [while(!Done)]: [n] passes were made before this one. *)
Fixpoint while_not_Done (rates : list float) (n : nat)
    (s : PacketDelayInfo * Digitizer) : loop_result :=
  match rates with
  | [] => Running n s
  | measured :: rates =>
      match iteration measured s with
      | None => Undefined (S n)
      | Some (b, true, s') => Exited (S n) b s'
      | Some (_, false, s') => while_not_Done rates (S n) s'
      end
  end.

(** The stores that end [FindInterPacketDelay]. *)
Definition store_solution (Info : PacketDelayInfo) (Results : PacketDelayResults)
  : option PacketDelayResults :=
  if Error Info then Some Results
  else
    let k := Selection Results in
    if decide (k < length (InterPacketDelayInTicks Results)
               ∧ k < length (InterPacketDelayInSec Results)
               ∧ k < length (ObtainedFrameRate Results))%nat
    then
      Some (mkResults (PixelFormats Results)
              (<[k := DelayTickVal Info]> (InterPacketDelayInTicks Results))
              (<[k := DelayInSeconds Info]> (InterPacketDelayInSec Results))
              (ReferenceFrameRate Results)
              (<[k := ProcessFrameRate Info]> (ObtainedFrameRate Results))
              (Selection Results))
    else None.

(** What [FindInterPacketDelay] leaves behind. *)
Inductive search_result : Type :=
| Returned (n : nat) (b : branch) (Info : PacketDelayInfo)
    (Results : PacketDelayResults) (dev : Digitizer)
| NotReturned (n : nat)
| UndefinedBehaviour.

Definition FindInterPacketDelay (rates : list float)
    (s : PacketDelayInfo * PacketDelayResults * Digitizer) : search_result :=
  let '(Info, Results, dev) := s in
  match while_not_Done rates 0 (Info, dev) with
  | Exited n b (Info, dev) =>
      match store_solution Info Results with
      | Some Results => Returned n b Info Results dev
      | None => UndefinedBehaviour
      end
  | Running n _ => NotReturned n
  | Undefined _ => UndefinedBehaviour
  end.

(** The four [assign] of [EnumeratePixelFormats], for the [Count] pixel
    formats that the camera enumerates. *)
Definition assign_results (Count : nat) (Results : PacketDelayResults)
  : PacketDelayResults :=
  mkResults (PixelFormats Results)
    (replicate Count 0%Z) (replicate Count 0) (replicate Count 0)
    (replicate Count 0) (Selection Results).

End Program.



(** The body of the loop of [MosMain] for one pixel format, without the
    selection of the format and the grab buffers: the structure is cleared,
    the tick frequency inquired, the reference frame rate acquired and the
    delay searched. *)
Definition MosMain_pass (freq : Z) (rate theoretical : float) (rates : list float)
    (Results : PacketDelayResults) (dev : Digitizer) : search_result :=
  match AcquireReferenceFrameRate rate theoretical (zero_info freq, Results, dev) with
  | Some s => FindInterPacketDelay rates s
  | None => UndefinedBehaviour
  end.

(** ** The rest of [MosMain] *)

Definition BUFFERING_SIZE_MAX : nat := 20.

(** The grab buffers: the array [MilGrabBufferList] and its size, and the
    identifiers that [MbufAllocColor] returned and that [MbufFree] was given,
    the latest first. *)
Record GrabBuffers : Type := mkBuffers {
  MilGrabBufferList : list Z;
  MilGrabBufferListSize : nat;
  allocated : list Z;
  freed : list Z
}.

(** The loop of [AllocateAcquisitionBuffers]: [remaining] is
    [BUFFERING_SIZE_MAX - MilGrabBufferListSize], and [ids i] is what
    [MbufAllocColor] stores for the buffer of index [i], [M_NULL] (zero)
    when it fails. *)
Fixpoint allocation_loop (remaining : nat) (ids : nat -> Z) (b : GrabBuffers)
  : GrabBuffers :=
  match remaining with
  | O => b
  | S remaining =>
      let i := MilGrabBufferListSize b in
      let list := <[i := ids i]> (MilGrabBufferList b) in
      if (ids i =? 0)%Z then mkBuffers list i (allocated b) (freed b)
      else allocation_loop remaining ids
             (mkBuffers list (S i) (ids i :: allocated b) (freed b))
  end.

Definition AllocateAcquisitionBuffers (ids : nat -> Z) (b : GrabBuffers)
  : GrabBuffers :=
  allocation_loop BUFFERING_SIZE_MAX ids
    (mkBuffers (MilGrabBufferList b) 0 (allocated b) (freed b)).

(** [while(MilGrabBufferListSize > 0)
       MbufFree(MilGrabBufferList[--MilGrabBufferListSize]);] *)
Fixpoint free_loop (size : nat) (b : GrabBuffers) : option GrabBuffers :=
  match size with
  | O => Some (mkBuffers (MilGrabBufferList b) 0 (allocated b) (freed b))
  | S size =>
      id ← MilGrabBufferList b !! size;
      free_loop size (mkBuffers (MilGrabBufferList b) size (allocated b) (id :: freed b))
  end.

Definition free_grab_buffers (b : GrabBuffers) : option GrabBuffers :=
  free_loop (MilGrabBufferListSize b) b.

(** What the program acts on besides its own structures: the digitizer
    with the delay register of the camera, the value of the camera's
    feature [PixelFormat], and the grab buffers. *)
Record MilState : Type := mkState {
  MilDigitizer : Digitizer;
  PixelFormat : string;
  MilGrabBuffers : GrabBuffers
}.

(** How a function that waits on the camera or on the user ends: it
    returns, or it waits for ever on the answers it is given, or its
    behaviour is undefined. *)
Inductive outcome (A : Type) : Type :=
| Completed (a : A)
| Pending
| Erroneous.

Arguments Completed {A} a.
Arguments Pending {A}.
Arguments Erroneous {A}.

(** The greatest [unsigned long], which [Results.Selection = -1] stores:
    [2 ^ 64 - 1], or [2 ^ 32 - 1] where the type has 32 bits. *)
Definition ULONG_MAX : nat := Z.to_nat (2 ^ 64 - 1).

(** [PacketDelayResults()]. *)
Definition no_results : PacketDelayResults := mkResults [] [] [] [] [] 0.

Definition set_Selection (k : nat) (Results : PacketDelayResults)
  : PacketDelayResults :=
  mkResults (PixelFormats Results) (InterPacketDelayInTicks Results)
    (InterPacketDelayInSec Results) (ReferenceFrameRate Results)
    (ObtainedFrameRate Results) k.

(** [Results.PixelFormats.push_back(PixelFormat)]. *)
Definition push_back (name : string) (Results : PacketDelayResults)
  : PacketDelayResults :=
  mkResults (PixelFormats Results ++ [name]) (InterPacketDelayInTicks Results)
    (InterPacketDelayInSec Results) (ReferenceFrameRate Results)
    (ObtainedFrameRate Results) (Selection Results).

Definition set_PixelFormat (name : string) (st : MilState) : MilState :=
  mkState (MilDigitizer st) name (MilGrabBuffers st).

(** What the camera answers on one entry of the enumeration [PixelFormat]:
    its name, whether its access mode is available, whether its value has
    the bits of [PFNC_CUSTOM], and what [GetMilBufferInfoFromPixelFormat]
    reads once the format is set. *)
Record PixelFormatEntry : Type := mkEntry {
  entry_name : string;
  entry_available : bool;
  entry_custom : bool;
  entry_SizeBand : Z;
  entry_BufType : Z;
  entry_Attribute : Z
}.

(** The body of the [for] loop of [EnumeratePixelFormats]. *)
Definition enumerate_entry (s : PacketDelayResults * MilState) (e : PixelFormatEntry)
  : PacketDelayResults * MilState :=
  let '(Results, st) := s in
  if entry_available e && negb (entry_custom e) then
    let st := set_PixelFormat (entry_name e) st in
    if negb (entry_SizeBand e =? 0)%Z && negb (entry_BufType e =? 0)%Z
       && negb (entry_Attribute e =? 0)%Z
    then (push_back (entry_name e) Results, st)
    else (Results, st)
  else (Results, st).

(** The [do ... while(!Done)] of [EnumeratePixelFormats]: [inputs] holds the
    value of [Results.Selection] after each call of [scanf]. *)
Fixpoint wait_for_selection (size : nat) (inputs : list nat) : option nat :=
  match inputs with
  | [] => None
  | x :: inputs => if (x <=? size)%nat then Some x else wait_for_selection size inputs
  end.

(** [EnumeratePixelFormats]: the camera enumerates [entries], [Count] is
    their number. *)
Definition EnumeratePixelFormats (entries : list PixelFormatEntry)
    (inputs : list nat) (s : PacketDelayResults * MilState)
  : outcome (PacketDelayResults * MilState) :=
  let '(Results, st) := s in
  let Results := set_Selection ULONG_MAX Results in
  let Count := length entries in
  if (Count =? 0)%nat then Completed (Results, st)
  else
    let Results := assign_results Count Results in
    let '(Results, st) := fold_left enumerate_entry entries (Results, st) in
    if (1 <? length (PixelFormats Results))%nat then
      match wait_for_selection (length (PixelFormats Results)) inputs with
      | Some k => Completed (set_Selection k Results, st)
      | None => Pending
      end
    else Completed (set_Selection 0 Results, st).

(** The loop of [ApplyPixelFormat]: [answers] tells for each inquiry of the
    access mode whether the feature is writable; the result is the number of
    [MosSleep(250)]. *)
Fixpoint wait_until_writable (answers : list bool) : option nat :=
  match answers with
  | [] => None
  | true :: _ => Some 0
  | false :: answers => n ← wait_until_writable answers; Some (S n)
  end.

Definition ApplyPixelFormat (answers : list bool) (Results : PacketDelayResults)
    (st : MilState) : outcome MilState :=
  match wait_until_writable answers with
  | None => Pending
  | Some _ =>
      match PixelFormats Results !! Selection Results with
      | Some name => Completed (set_PixelFormat name st)
      | None => Erroneous
      end
  end.

(** What the camera answers during one pass of the loop of [MosMain]. *)
Record pass_answers : Type := mkAnswers {
  tick_frequency : Z;
  access_modes : list bool;
  buffer_ids : nat -> Z;
  reference_rate : float;
  theoretical_delay : float;
  measured_rates : list float
}.

(** The body of [while(NbIterations--)]. *)
Definition MosMain_iteration (a : pass_answers)
    (s : PacketDelayResults * MilState) : outcome (PacketDelayResults * MilState) :=
  let '(Results, st) := s in
  match ApplyPixelFormat (access_modes a) Results st with
  | Completed st =>
      let buffers := AllocateAcquisitionBuffers (buffer_ids a) (MilGrabBuffers st) in
      match MosMain_pass (tick_frequency a) (reference_rate a) (theoretical_delay a)
              (measured_rates a) Results (MilDigitizer st) with
      | Returned _ _ _ Results dev =>
          match free_grab_buffers buffers with
          | Some buffers =>
              Completed (set_Selection (S (Selection Results)) Results,
                         mkState dev (PixelFormat st) buffers)
          | None => Erroneous
          end
      | NotReturned _ => Pending
      | UndefinedBehaviour => Erroneous
      end
  | Pending => Pending
  | Erroneous => Erroneous
  end.

(** [while(NbIterations--)]: [k] passes were made before, and [answers k]
    are the answers of the camera during the next one. *)
Fixpoint MosMain_loop (NbIterations : nat) (answers : nat -> pass_answers) (k : nat)
    (s : PacketDelayResults * MilState) : outcome (PacketDelayResults * MilState) :=
  match NbIterations with
  | O => Completed s
  | S NbIterations =>
      match MosMain_iteration (answers k) s with
      | Completed s => MosMain_loop NbIterations answers (S k) s
      | Pending => Pending
      | Erroneous => Erroneous
      end
  end.

(** The conversion [(int)] of a [MIL_INT]: a value that an [int] does not
    hold wraps around. *)
Definition to_int (z : Z) : Z := ((z + 2 ^ 31) mod 2 ^ 32 - 2 ^ 31)%Z.

(** One block of the report of [PrintResults]: the pixel format, the delay
    in ticks and in microseconds, the reference and the obtained rate. *)
Record report_row : Type := mkRow {
  row_format : string;
  row_ticks : Z;
  row_usec : float;
  row_reference : float;
  row_obtained : float
}.

Definition print_row (Results : PacketDelayResults) (i : nat) : option report_row :=
  name ← PixelFormats Results !! i;
  ticks ← InterPacketDelayInTicks Results !! i;
  sec ← InterPacketDelayInSec Results !! i;
  reference ← ReferenceFrameRate Results !! i;
  obtained ← ObtainedFrameRate Results !! i;
  Some (mkRow name (to_int ticks) (sec * 1e6)%float reference obtained).

(** The [for] loop of [PrintResults]. *)
Definition PrintResults (Results : PacketDelayResults) : option (list report_row) :=
  mapM (print_row Results) (seq 0 (length (PixelFormats Results))).

(** [MosMain]: [gige] tells whether the board type is [M_GIGE_VISION], and
    [TickFreq] is the first answer to [M_GC_COUNTER_TICK_FREQUENCY].  The
    result is the report and the state that the program leaves. *)
Definition MosMain (gige : bool) (TickFreq : Z) (entries : list PixelFormatEntry)
    (inputs : list nat) (answers : nat -> pass_answers) (st : MilState)
  : outcome (list report_row * MilState) :=
  if negb gige then Completed ([], st)
  else if (TickFreq =? 0)%Z then Completed ([], st)
  else
    match EnumeratePixelFormats entries inputs (no_results, st) with
    | Completed (Results, st) =>
        let '(NbIterations, Results) :=
          if (Selection Results =? length (PixelFormats Results))%nat
          then (length (PixelFormats Results), set_Selection 0 Results)
          else (1%nat, Results) in
        match MosMain_loop NbIterations answers 0 (Results, st) with
        | Completed (Results, st) =>
            match PrintResults Results with
            | Some report =>
                Completed (report,
                           mkState (MdigControl 0 (MilDigitizer st)) (PixelFormat st)
                             (MilGrabBuffers st))
            | None => Erroneous
            end
        | Pending => Pending
        | Erroneous => Erroneous
        end
    | Pending => Pending
    | Erroneous => Erroneous
    end.

(** ** Notions for the rest of [MosMain] *)

(** A pixel format that [EnumeratePixelFormats] keeps: available, not
    custom, and with a band size, a buffer type and an attribute that are
    not zero. *)
Definition compatible (e : PixelFormatEntry) : bool :=
  entry_available e && negb (entry_custom e) &&
  (negb (entry_SizeBand e =? 0)%Z && negb (entry_BufType e =? 0)%Z
   && negb (entry_Attribute e =? 0)%Z).

(** The pixel formats that [EnumeratePixelFormats] lists. *)
Definition listed (entries : list PixelFormatEntry) : list string :=
  entry_name <$> filter (fun e => compatible e = true) entries.

(** The selection that [EnumeratePixelFormats] returns with. *)
Definition selected (entries : list PixelFormatEntry) (inputs : list nat) : option nat :=
  if (1 <? length (listed entries))%nat
  then wait_for_selection (length (listed entries)) inputs
  else Some 0%nat.

(** The result vectors hold an entry for each of the [Count] pixel formats
    that the camera enumerates, of which some are listed. *)
Definition results_table (Results : PacketDelayResults) (Count : nat) : Prop :=
  length (InterPacketDelayInTicks Results) = Count /\
  length (InterPacketDelayInSec Results) = Count /\
  length (ReferenceFrameRate Results) = Count /\
  length (ObtainedFrameRate Results) = Count /\
  (length (PixelFormats Results) <= Count)%nat.

(** Answers of the camera with which a search is defined: the theoretical
    delay is not negative and its ticks fit [MIL_UINT32]. *)
Definition answers_in_range (a : pass_answers) : Prop :=
  (0 <= tick_frequency a)%Z /\
  (0 <=? theoretical_delay a)%float = true /\
  is_Some (delay_ticks (theoretical_delay a) (tick_frequency a)).

(** ** Notions of the specification *)

Local Open Scope Z_scope.

(** The delay left by the three reductions of the loop. *)
Definition reduce_match (d : float) : float := (d - d / 50)%float.
Definition reduce_mismatch (d : float) : float := (d - d / 10)%float.
Definition remove_margin (d : float) : float :=
  let d' := (d - d * 15 / 100)%float in
  if (d' <=? 0)%float then 0%float else d'.

(** The equality streak as the specification counts it: one more for a
    frame rate equal to the reference, zero again for any other. *)
Definition streak (base : float) (rates : list float) : Z :=
  fold_left (fun c measured => if IsEqual base measured then c + 1 else 0) rates 0.

(** A failed run is one that set [Error]. *)
Definition failure (b : branch) : bool :=
  match b with
  | MatchAtZero | MismatchAtZero => true
  | _ => false
  end.

(** A camera and a result table for the examples: three pixel formats,
    nothing programmed yet. *)
Definition camera : Digitizer := mkDigitizer 0 [].
Definition table : PacketDelayResults :=
  assign_results 3 (mkResults ["Mono8"; "Mono10"; "RGB8"]%string [] [] [] [] 0).

(** The margin as the specification words it: 0.85 times the delay, and no
    less than zero. *)
Definition margin_as_specified (d : float) : float :=
  let d' := (0.85 * d)%float in
  if (d' <=? 0)%float then 0%float else d'.

(** The equality test as the specification words it: the distance of the
    two rates is at most 0.1, computed in doubles, and computed exactly. *)
Definition within_tolerance (measured base : float) : bool :=
  (abs (measured - base) <=? 0.1)%float.

Definition exactly_within_tolerance (measured base : float) : Prop :=
  exists m b : Q,
    value measured = Some m /\ value base = Some b /\ (Qabs (m - b) <= 1 # 10)%Q.

(** [near x q eps]: the float [x] is finite and within [eps] of the
    rational [q]. *)
Definition near (x : float) (q eps : Q) : bool :=
  match value x with
  | Some v => Qle_bool (Qabs (v - q)) eps
  | None => false
  end.

(** The search of the scenarios: a tick frequency of 1 MHz, a reference of
    30 frames per second and a theoretical delay of 500 microseconds, as
    [AcquireReferenceFrameRate] leaves them. *)
Definition scenario : PacketDelayInfo := mkInfo 30 0 0.0005 1000000 500 0 0 false.

(** A camera for the examples: three pixel formats, of which one is not
    available, a tick frequency of 1 MHz and the rates of the scenario;
    three grab buffers are allocated at each pass. *)
Definition formats : list PixelFormatEntry :=
  [mkEntry "Mono8" true false 1 8 512; mkEntry "Mono10" false false 1 16 512;
   mkEntry "RGB8" true false 3 8 1024].
Definition scenario_answers : pass_answers :=
  mkAnswers 1000000 [false; true] (fun i => if (i <? 3)%nat then 7 + Z.of_nat i else 0)%Z
    30 0.0005 [30.05; 29.96; 30]%float.
Definition idle : MilState :=
  mkState camera "Mono12" (mkBuffers (replicate 20 0%Z) 0 [] []).

(** The buffers in use are those of the first cells of the array: the
    identifiers that [MbufAllocColor] stored there, none of them [M_NULL]. *)
Definition buffers_in_use (ids : nat -> Z) (b0 b : GrabBuffers) : Prop :=
  take (MilGrabBufferListSize b) (MilGrabBufferList b)
    = ids <$> seq 0 (MilGrabBufferListSize b) /\
  allocated b
    = rev (take (MilGrabBufferListSize b) (MilGrabBufferList b)) ++ allocated b0 /\
  Forall (fun id => id <> 0) (take (MilGrabBufferListSize b) (MilGrabBufferList b)) /\
  length (MilGrabBufferList b) = BUFFERING_SIZE_MAX /\
  freed b = freed b0.

(** The successive values of [DelayInSeconds]: before the loop, and after
    each of its passes. *)
Fixpoint delays (rates : list float) (s : PacketDelayInfo * Digitizer) : list float :=
  DelayInSeconds (fst s) ::
  match rates with
  | [] => []
  | measured :: rates =>
      match iteration measured s with
      | Some (_, true, s') => [DelayInSeconds (fst s')]
      | Some (_, false, s') => delays rates s'
      | None => []
      end
  end.

(** A delay that is finite and not negative. *)
Definition nonneg_finite (x : float) : Prop :=
  (0 <=? x)%float = true /\ (x <? infinity)%float = true.

(** The state of a search that is under way: the counter is below three,
    the delay is finite and not negative, and [DelayTickVal] is its
    conversion to ticks. *)
Definition search_state (Info : PacketDelayInfo) : Prop :=
  0 <= TickFreq Info /\ 0 <= EqualityCounter Info < 3 /\
  nonneg_finite (DelayInSeconds Info) /\
  delay_ticks (DelayInSeconds Info) (TickFreq Info) = Some (DelayTickVal Info).

(** What one pass programs: the ticks it finds and, when it converges, the
    ticks it leaves. *)
Definition programmed_by (b : branch) (before after : Z) : list Z :=
  match b with Converged => [after; before] | _ => [before] end.

(** What a run of the loop leaves, against the state it started from: ticks
    and a delay that are not more, and the values it programmed, the latest
    first, each at most the one before it. *)
Definition run_bounds (Info Info' : PacketDelayInfo) (dev dev' : Digitizer) : Prop :=
  0 <= DelayTickVal Info' <= DelayTickVal Info /\
  nonneg_finite (DelayInSeconds Info') /\
  (DelayInSeconds Info' <=? DelayInSeconds Info)%float = true /\
  exists new : list Z,
    programmed dev' = new ++ programmed dev /\
    Sorted Z.le new /\
    Forall (fun v => DelayTickVal Info' <= v <= DelayTickVal Info) new.

(** The number of passes within which every search ends. *)
Definition pass_limit : nat := 1477.

(** ** Notions for the rounding of binary64

    The operations on [float] are specified by those of [SpecFloat], which
    round a mantissa and an exponent with [binary_round_aux].  The notions
    below state what that rounding computes. *)

(** [represents a b mrs]: the record [mrs] holds the floor of [a / b], and
    its round and sticky bits say where the remainder lies. *)
Definition represents (a b : Z) (mrs : shr_record) : Prop :=
  shr_m mrs = a / b /\
  shr_r mrs = (b <=? 2 * (a mod b)) /\
  shr_s mrs = negb (a mod b =? 0) && negb (2 * (a mod b) =? b).

(** The location of [a / b] between its floor and the next integer. *)
Definition loc_of (a b : Z) : location :=
  if a mod b =? 0 then loc_Exact else loc_Inexact (2 * (a mod b) ?= b).

(** [fexp] of binary64: the exponent of a number of [e] binary digits. *)
Definition fx (e : Z) : Z := Z.max (e - 53) (-1074).

(** Two to the [e], in units of [2 ^ -2200]: an integer for every exponent
    that the operations meet. *)
Definition P (e : Z) : Z := 2 ^ (e + 2200).

(** A mantissa and an exponent in canonical form. *)
Definition canonical (m e : Z) : Prop := fx (Zdigits2 m + e) = e.

Definition K52 : Z := 2 ^ 52.

(** The float that [binary_round_aux] returns for a mantissa and an
    exponent. *)
Definition rounded_float (s : bool) (M E : Z) : spec_float :=
  match M with
  | 0 => S754_zero s
  | Zpos p => if E <=? 971 then S754_finite s p E else S754_infinity s
  | Zneg _ => S754_nan
  end.

(** The value of a finite float, in units of [2 ^ -2200]. *)
Definition Zval (x : spec_float) : Z :=
  match x with
  | S754_finite s m e => cond_Zopp s (Zpos m * P e)
  | _ => 0
  end.

Definition is_finite (x : spec_float) : bool :=
  match x with
  | S754_zero _ | S754_finite _ _ _ => true
  | _ => false
  end.

(** A finite float that is not negative. *)
Definition SFnonneg (x : spec_float) : bool :=
  match x with
  | S754_zero _ | S754_finite false _ _ => true
  | _ => false
  end.

(** Not negative, possibly infinite. *)
Definition SFnonneg_ext (x : spec_float) : bool :=
  match x with
  | S754_zero _ | S754_finite false _ _ | S754_infinity false => true
  | _ => false
  end.

(** The integer nearest to [a / b], the even one of two that are as near. *)
Definition nearest (a b : Z) : Z :=
  a / b + Z.b2z ((b <? 2 * (a mod b)) || ((2 * (a mod b) =? b) && Z.odd (a / b))).

(** ** Digits and shifts *)

Lemma digits2_pos_size (p : positive) : digits2_pos p = Pos.size p.
Proof. induction p; simpl; congruence. Qed.

Lemma Zdigits2_log2 (z : Z) : 0 < z -> Zdigits2 z = Z.log2 z + 1.
Proof.
  destruct z as [|p|p]; try lia. intros _. simpl.
  rewrite digits2_pos_size. destruct p; simpl; lia.
Qed.

Lemma Zdigits2_bounds (z : Z) :
  0 < z -> 2 ^ (Zdigits2 z - 1) <= z < 2 ^ Zdigits2 z.
Proof.
  intros Hz. rewrite Zdigits2_log2 by assumption.
  replace (Z.log2 z + 1 - 1) with (Z.log2 z) by lia.
  replace (Z.log2 z + 1) with (Z.succ (Z.log2 z)) by lia.
  now apply Z.log2_spec.
Qed.

Lemma Zdigits2_unique (z d : Z) :
  0 < z -> 2 ^ (d - 1) <= z < 2 ^ d -> Zdigits2 z = d.
Proof.
  intros Hz H. rewrite Zdigits2_log2 by assumption.
  assert (1 <= d).
  { destruct (Z.le_gt_cases 1 d); [assumption|].
    rewrite (Z.pow_neg_r 2 (d - 1)) in H by lia.
    assert (2 ^ d <= 1); [|lia].
    destruct (Z.eq_dec d 0) as [->|]; [simpl; lia|].
    rewrite Z.pow_neg_r by lia. lia. }
  assert (Z.log2 z = d - 1); [|lia].
  apply Z.log2_unique; [lia|]. replace (Z.succ (d - 1)) with d by lia. exact H.
Qed.

Lemma Zdigits2_nonneg (z : Z) : 0 <= Zdigits2 z.
Proof. destruct z; simpl; lia. Qed.

(* iter_pos *)
Lemma iter_pos_swap {A} (f : A -> A) (p : positive) (x : A) :
  SpecFloat.iter_pos f p (f x) = f (SpecFloat.iter_pos f p x).
Proof.
  revert x. induction p as [p IH|p IH|]; intros x; simpl; [|now rewrite !IH|reflexivity].
  now rewrite !IH.
Qed.

Lemma iter_pos_succ {A} (f : A -> A) (p : positive) (x : A) :
  SpecFloat.iter_pos f (Pos.succ p) x = f (SpecFloat.iter_pos f p x).
Proof.
  revert x. induction p as [p IH|p IH|]; intros x; simpl.
  - rewrite !IH. now rewrite !iter_pos_swap.
  - now rewrite !iter_pos_swap.
  - reflexivity.
Qed.

Lemma iter_pos_invariant {A} (f : A -> A) (Inv : Z -> A -> Prop) (x : A) :
  Inv 0 x ->
  (forall k y, 0 <= k -> Inv k y -> Inv (k + 1) (f y)) ->
  forall p, Inv (Zpos p) (SpecFloat.iter_pos f p x).
Proof.
  intros H0 Hstep p. induction p as [|p IH] using Pos.peano_ind.
  - simpl. now apply (Hstep 0).
  - rewrite iter_pos_succ. rewrite Pos2Z.inj_succ. apply Hstep; [lia|exact IH].
Qed.

Lemma div_mod_double (a b : Z) :
  0 <= a -> 0 < b ->
  a / (2 * b) = a / b / 2 /\ a mod (2 * b) = (a / b) mod 2 * b + a mod b.
Proof.
  intros Ha Hb.
  pose proof (Z.div_mod a b ltac:(lia)) as E.
  pose proof (Z.mod_pos_bound a b Hb) as Hr.
  pose proof (Z.div_mod (a / b) 2 ltac:(lia)) as E2.
  pose proof (Z.mod_pos_bound (a / b) 2 ltac:(lia)) as Hr2.
  assert (Hdm : a = 2 * b * (a / b / 2) + ((a / b) mod 2 * b + a mod b)) by nia.
  assert (Hbound : 0 <= (a / b) mod 2 * b + a mod b < 2 * b) by nia.
  split.
  - symmetry. eapply Z.div_unique_pos; eauto.
  - symmetry. eapply Z.mod_unique_pos; eauto.
Qed.

Lemma shr_1_represents (a b : Z) (mrs : shr_record) :
  0 <= a -> 0 < b -> represents a b mrs -> represents a (2 * b) (shr_1 mrs).
Proof.
  intros Ha Hb (Hm & Hr & Hs).
  destruct (div_mod_double a b Ha Hb) as [Hd Hmod].
  pose proof (Z.mod_pos_bound a b Hb) as Hrem.
  pose proof (Z.mod_pos_bound (a / b) 2 ltac:(lia)) as Hr2.
  pose proof (Z.div_mod (a / b) 2 ltac:(lia)) as E2.
  destruct mrs as [m r s]. cbn [shr_m shr_r shr_s] in *.
  assert (Hors : r || s = negb (a mod b =? 0)).
  { rewrite Hr, Hs.
    destruct (Z.eqb_spec (a mod b) 0), (Z.leb_spec b (2 * (a mod b))),
      (Z.eqb_spec (2 * (a mod b)) b); cbn; lia || reflexivity. }
  assert (Hcases : forall (m' : Z) (r' : bool),
             m = 2 * m' + Z.b2z r' ->
             represents a (2 * b) (Build_shr_record m' r' (r || s))).
  { intros m' r' E. unfold represents. cbn [shr_m shr_r shr_s].
    rewrite Hd, Hmod, <- Hm, Hors.
    assert (m / 2 = m' /\ m mod 2 = Z.b2z r') as [-> ->].
    { destruct r'; cbn [Z.b2z] in E; split.
      - symmetry; apply (Z.div_unique_pos m 2 m' 1); lia.
      - symmetry; apply (Z.mod_unique_pos m 2 m' 1); lia.
      - symmetry; apply (Z.div_unique_pos m 2 m' 0); lia.
      - symmetry; apply (Z.mod_unique_pos m 2 m' 0); lia. }
    split; [reflexivity|].
    destruct r'; cbn [Z.b2z]; split.
    + symmetry. apply Z.leb_le. lia.
    + destruct (Z.eqb_spec (a mod b) 0), (Z.eqb_spec (1 * b + a mod b) 0),
        (Z.eqb_spec (2 * (1 * b + a mod b)) (2 * b)); cbn; lia || reflexivity.
    + symmetry. apply Z.leb_gt. lia.
    + destruct (Z.eqb_spec (a mod b) 0), (Z.eqb_spec (0 * b + a mod b) 0),
        (Z.eqb_spec (2 * (0 * b + a mod b)) (2 * b)); cbn; lia || reflexivity. }
  assert (0 <= m) by (rewrite Hm; apply Z.div_pos; lia).
  unfold shr_1. destruct m as [|[p|p|]|p]; try lia.
  - apply (Hcases 0 false). reflexivity.
  - apply (Hcases (Zpos p) true). cbn. lia.
  - apply (Hcases (Zpos p) false). cbn. lia.
  - apply (Hcases 0 true). reflexivity.
Qed.

Lemma shr_represents (a b : Z) (mrs : shr_record) (e n : Z) :
  0 <= a -> 0 < b -> represents a b mrs ->
  represents a (b * 2 ^ Z.max 0 n) (fst (shr mrs e n)) /\
  snd (shr mrs e n) = e + Z.max 0 n.
Proof.
  intros Ha Hb H. unfold shr. destruct n as [|p|p]; cbn [fst snd].
  - rewrite Z.mul_1_r, Z.add_0_r. auto.
  - rewrite Z.max_r by lia. split; [|reflexivity].
    apply (iter_pos_invariant shr_1
             (fun k y => 0 < b * 2 ^ k /\ represents a (b * 2 ^ k) y)).
    + rewrite Z.mul_1_r. auto.
    + intros k y Hk [Hpos Hy]. rewrite Z.pow_add_r by lia.
      replace (b * (2 ^ k * 2 ^ 1)) with (2 * (b * 2 ^ k)) by (change (2 ^ 1) with 2; ring).
      split; [lia|]. now apply shr_1_represents.
  - rewrite Z.mul_1_r, Z.add_0_r. auto.
Qed.

Lemma represents_loc (a b : Z) :
  0 < b -> represents a b (shr_record_of_loc (a / b) (loc_of a b)).
Proof.
  intros Hb. pose proof (Z.mod_pos_bound a b Hb) as Hrem.
  unfold loc_of, represents.
  destruct (Z.eqb_spec (a mod b) 0) as [E|E].
  - cbn. rewrite E. cbn. repeat split. symmetry. apply Z.leb_gt. lia.
  - destruct (Z.compare_spec (2 * (a mod b)) b); cbn; repeat split; symmetry;
      try (apply Z.leb_le; lia); try (apply Z.leb_gt; lia);
      destruct (Z.eqb_spec (2 * (a mod b)) b); cbn; lia || reflexivity.
Qed.

Lemma round_nearest_even_bounds (a b : Z) (mrs : shr_record) :
  0 < b -> represents a b mrs ->
  let m2 := round_nearest_even (shr_m mrs) (loc_of_shr_record mrs) in
  (m2 = a / b \/ (m2 = a / b + 1 /\ a mod b <> 0)).
Proof.
  intros Hb (Hm & Hr & Hs). destruct mrs as [m r s]. cbn [shr_m shr_r shr_s] in *.
  cbn zeta. subst m.
  destruct r, s; cbn; auto.
  - right. split; [reflexivity|].
    destruct (Z.eqb_spec (a mod b) 0); [discriminate|assumption].
  - destruct (Z.even (a / b)); [auto|]. right. split; [reflexivity|].
    intros E. rewrite E in Hr. symmetry in Hr. apply Z.leb_le in Hr. lia.
Qed.

Lemma fexp_fx (e : Z) : SpecFloat.fexp prec emax e = fx e.
Proof. reflexivity. Qed.

Lemma Zdigits2_0 : Zdigits2 0 = 0.
Proof. reflexivity. Qed.

(** digits of a quotient by a power of two *)
Lemma Zdigits2_div_pow2 (m k : Z) :
  0 <= k -> 0 < m / 2 ^ k -> Zdigits2 (m / 2 ^ k) = Zdigits2 m - k.
Proof.
  intros Hk Hq.
  assert (Hm : 0 < m).
  { destruct (Z.lt_trichotomy m 0) as [H|[H|H]]; [|subst; rewrite Z.div_0_l in Hq; lia|assumption].
    assert (m / 2 ^ k < 0); [|lia]. apply Z.div_lt_upper_bound; lia. }
  pose proof (Zdigits2_bounds m Hm) as [Hlo Hhi].
  assert (Hpk : 0 < 2 ^ k) by lia.
  assert (Hdk : k < Zdigits2 m).
  { destruct (Z.lt_ge_cases k (Zdigits2 m)); [assumption|].
    assert (2 ^ Zdigits2 m <= 2 ^ k) by (apply Z.pow_le_mono_r; lia).
    rewrite Z.div_small in Hq; lia. }
  apply Zdigits2_unique; [assumption|].
  split.
  - apply Z.div_le_lower_bound; [lia|].
    rewrite <- Z.pow_add_r by lia.
    replace (k + (Zdigits2 m - k - 1)) with (Zdigits2 m - 1) by lia. exact Hlo.
  - apply Z.div_lt_upper_bound; [lia|].
    rewrite <- Z.pow_add_r by lia.
    replace (k + (Zdigits2 m - k)) with (Zdigits2 m) by lia. exact Hhi.
Qed.

Lemma Zdigits2_le_pow2 (m d : Z) : 0 <= d -> 0 <= m < 2 ^ d -> Zdigits2 m <= d.
Proof.
  intros Hd [H0 H]. destruct (Z.eq_dec m 0) as [->|]; [simpl; lia|].
  pose proof (Zdigits2_bounds m ltac:(lia)) as [Hlo _].
  destruct (Z.le_gt_cases (Zdigits2 m) d); [assumption|].
  assert (2 ^ d <= 2 ^ (Zdigits2 m - 1)) by (apply Z.pow_le_mono_r; lia). lia.
Qed.

(** The first shift of [binary_round_aux]. *)
Lemma shr_fexp_first (a b e : Z) :
  0 <= a -> 0 < b -> e <= fx (Zdigits2 (a / b) + e) ->
  let e1 := fx (Zdigits2 (a / b) + e) in
  let b1 := b * 2 ^ (e1 - e) in
  let r := shr_fexp prec emax (a / b) e (loc_of a b) in
  represents a b1 (fst r) /\ snd r = e1 /\ 0 < b1 /\
  fx (Zdigits2 (a / b1) + e1) = e1.
Proof.
  intros Ha Hb Hpre e1 b1 r. subst r. unfold shr_fexp. rewrite fexp_fx. fold e1.
  pose proof (shr_represents a b (shr_record_of_loc (a / b) (loc_of a b)) e (e1 - e)
                Ha Hb (represents_loc a b Hb)) as [Hrep He].
  rewrite Z.max_r in Hrep, He by lia. fold b1 in Hrep.
  assert (Hb1 : 0 < b1) by (unfold b1; nia).
  repeat split; [apply Hrep|apply Hrep|apply Hrep|lia|assumption|].
  assert (Hq : a / b1 = a / b / 2 ^ (e1 - e)) by (unfold b1; rewrite Z.div_div; lia).
  assert (Hq0 : 0 <= a / b1) by (apply Z.div_pos; lia).
  destruct (Z.eq_dec (a / b1) 0) as [E0|Hne].
  - rewrite E0, Zdigits2_0. rewrite E0 in Hq.
    assert (Hm0 : 0 <= a / b) by (apply Z.div_pos; lia).
    assert (Hlt : a / b < 2 ^ (e1 - e)).
    { destruct (Z.lt_ge_cases (a / b) (2 ^ (e1 - e))); [assumption|].
      assert (1 <= a / b / 2 ^ (e1 - e)); [|lia].
      apply Z.div_le_lower_bound; lia. }
    assert (Zdigits2 (a / b) <= e1 - e) by (apply Zdigits2_le_pow2; lia).
    unfold fx in *. lia.
  - rewrite Hq. rewrite Zdigits2_div_pow2 by lia.
    replace (Zdigits2 (a / b) - (e1 - e) + e1) with (Zdigits2 (a / b) + e) by lia.
    reflexivity.
Qed.

Lemma represents_exact (m : Z) : represents m 1 (shr_record_of_loc m loc_Exact).
Proof.
  unfold represents. cbn. rewrite Z.div_1_r, Z.mod_1_r. cbn. auto.
Qed.

Lemma Zdigits2_pow2 (d : Z) : 0 <= d -> Zdigits2 (2 ^ d) = d + 1.
Proof.
  intros Hd. apply Zdigits2_unique; [lia|].
  replace (d + 1 - 1) with d by lia. split; [lia|].
  apply Z.pow_lt_mono_r; lia.
Qed.

(** The second shift of [binary_round_aux], after the mantissa was rounded. *)
Lemma shr_fexp_second (m1 m2 e1 : Z) :
  0 <= m1 -> fx (Zdigits2 m1 + e1) = e1 -> m2 = m1 \/ m2 = m1 + 1 ->
  let r := shr_fexp prec emax m2 e1 loc_Exact in
  exists M E : Z,
    shr_m (fst r) = M /\ snd r = E /\
    0 <= M /\ e1 <= E /\ M * 2 ^ (E - e1) = m2 /\ fx (Zdigits2 M + E) = E.
Proof.
  intros Hm1 Hcan Hm2 r. subst r. unfold shr_fexp. rewrite fexp_fx.
  set (k2 := fx (Zdigits2 m2 + e1) - e1).
  assert (H0m2 : 0 <= m2) by lia.
  pose proof (shr_represents m2 1 (shr_record_of_loc m2 loc_Exact) e1 k2
                H0m2 ltac:(lia) (represents_exact m2)) as [(HM & _) HE].
  rewrite Z.mul_1_l in HM.
  assert (Hno : k2 = 0 ->
                exists M E : Z,
                  shr_m (fst (shr (shr_record_of_loc m2 loc_Exact) e1 k2)) = M /\
                  snd (shr (shr_record_of_loc m2 loc_Exact) e1 k2) = E /\
                  0 <= M /\ e1 <= E /\ M * 2 ^ (E - e1) = m2 /\
                  fx (Zdigits2 M + E) = E).
  { intros Hk. exists m2, e1. rewrite HM, HE, Hk. cbn [Z.max].
    rewrite Z.div_1_r, Z.add_0_r, Z.sub_diag, Z.mul_1_r.
    repeat split; try lia. }
  destruct Hm2 as [-> | ->]; [apply Hno; unfold k2; lia|].
  set (d1 := Zdigits2 m1) in *.
  assert (Hd1 : 0 <= d1) by apply Zdigits2_nonneg.
  assert (Hlt : m1 < 2 ^ d1).
  { destruct (Z.eq_dec m1 0) as [->|]; [cbn; lia|].
    apply Zdigits2_bounds. lia. }
  destruct (Z.eq_dec (m1 + 1) (2 ^ d1)) as [Epow|Hnp].
  - assert (Hd2 : Zdigits2 (m1 + 1) = d1 + 1) by (rewrite Epow; now apply Zdigits2_pow2).
    assert (Hk : k2 = 0 \/ (k2 = 1 /\ d1 = 53)) by (unfold k2, fx in *; lia).
    destruct Hk as [Hk|[Hk Hd]]; [now apply Hno|].
    exists (2 ^ 52), (e1 + 1). rewrite HM, HE, Hk. cbn [Z.max].
    rewrite Epow, Hd.
    replace (e1 + 1 - e1) with 1 by lia.
    repeat split; try lia; try reflexivity.
    change (Zdigits2 (2 ^ 52)) with 53. unfold fx in *. lia.
  - assert (Hm1pos : 0 < m1).
    { destruct (Z.eq_dec m1 0) as [E|]; [|lia]. subst m1. cbn in Hnp. lia. }
    assert (Hd2 : Zdigits2 (m1 + 1) = d1).
    { apply Zdigits2_unique; [lia|].
      pose proof (Zdigits2_bounds m1 Hm1pos) as [Hlo _]. fold d1 in Hlo. lia. }
    apply Hno. unfold k2. rewrite Hd2. lia.
Qed.

(** [binary_round_aux] on the floor and the location of [a / b]. *)
Theorem binary_round_aux_spec (s : bool) (a b e : Z) :
  0 <= a -> 0 < b -> e <= fx (Zdigits2 (a / b) + e) ->
  let e1 := fx (Zdigits2 (a / b) + e) in
  let b1 := b * 2 ^ (e1 - e) in
  exists M E m2 : Z,
    (m2 = a / b1 \/ (m2 = a / b1 + 1 /\ a mod b1 <> 0)) /\
    0 < b1 /\
    fx (Zdigits2 (a / b1) + e1) = e1 /\
    0 <= M /\ e1 <= E /\ M * 2 ^ (E - e1) = m2 /\
    fx (Zdigits2 M + E) = E /\
    binary_round_aux prec emax s (a / b) e (loc_of a b) =
      match M with
      | 0 => S754_zero s
      | Zpos p => if E <=? 971 then S754_finite s p E else S754_infinity s
      | Zneg _ => S754_nan
      end.
Proof.
  intros Ha Hb Hpre e1 b1.
  destruct (shr_fexp_first a b e Ha Hb Hpre) as (Hrep & He1 & Hb1 & Hcan).
  fold e1 in Hrep, He1, Hb1, Hcan. fold b1 in Hrep, Hb1, Hcan.
  pose proof (round_nearest_even_bounds a b1 _ Hb1 Hrep) as Hm2. cbn zeta in Hm2.
  set (m2 := round_nearest_even _ _) in Hm2.
  assert (H0 : 0 <= a / b1) by (apply Z.div_pos; lia).
  destruct (shr_fexp_second (a / b1) m2 e1 H0 Hcan ltac:(lia))
    as (M & E & HM & HE & HM0 & HE1 & Hval & HcanM).
  exists M, E, m2. repeat split; try assumption.
  unfold binary_round_aux.
  destruct (shr_fexp prec emax (a / b) e (loc_of a b)) as [mrs' e'] eqn:E1.
  cbn [fst snd] in He1, Hm2. subst e'. subst m2.
  destruct (shr_fexp prec emax _ e1 loc_Exact) as [mrs'' e''] eqn:E2.
  cbn [fst snd] in HM, HE. rewrite HM, HE. reflexivity.
Qed.

(** ** Rounding against canonical floats *)

Lemma P_pos (e : Z) : -2200 <= e -> 0 < P e.
Proof. intros. unfold P. apply Z.pow_pos_nonneg; lia. Qed.

Lemma P_add (e k : Z) : -2200 <= e -> 0 <= k -> P (e + k) = P e * 2 ^ k.
Proof.
  intros. unfold P. rewrite <- Z.pow_add_r by lia. f_equal. lia.
Qed.

Lemma P_le (e e' : Z) : -2200 <= e -> e <= e' -> P e <= P e'.
Proof. intros. unfold P. apply Z.pow_le_mono_r; lia. Qed.

Lemma P_double (e e' : Z) : -2200 <= e -> e < e' -> 2 * P e <= P e'.
Proof.
  intros. replace e' with (e + 1 + (e' - e - 1)) by lia.
  rewrite P_add by lia. rewrite P_add by lia. change (2 ^ 1) with 2.
  assert (0 < 2 ^ (e' - e - 1)) by (apply Z.pow_pos_nonneg; lia).
  pose proof (P_pos e ltac:(lia)). nia.
Qed.

Lemma K52_pos : 0 < K52.
Proof. reflexivity. Qed.

Lemma canonical_bounds (m e : Z) :
  0 < m -> canonical m e ->
  -1074 <= e /\ m < 2 * K52 /\ (-1074 < e -> K52 <= m).
Proof.
  intros Hm Hc. unfold canonical, fx in Hc.
  pose proof (Zdigits2_bounds m Hm) as [Hlo Hhi].
  assert (Hd : 0 <= Zdigits2 m) by apply Zdigits2_nonneg.
  split; [lia|]. split.
  - assert (2 ^ Zdigits2 m <= 2 ^ 53) by (apply Z.pow_le_mono_r; lia).
    change (2 * K52) with (2 ^ 53). lia.
  - intros He. assert (Zdigits2 m = 53) as E by lia. rewrite E in Hlo. exact Hlo.
Qed.

(** A value at a lower exponent, with a mantissa of at most 53 bits, is
    less than a value of 53 bits at a higher exponent. *)
Lemma lower_exponent_lt (m e m' e' : Z) :
  0 <= m -> m < 2 * K52 -> K52 <= m' -> -2200 <= e -> e < e' ->
  m * P e < m' * P e'.
Proof.
  intros Hm Hhi Hlo He Hlt.
  pose proof (P_pos e He) as HP. pose proof (P_double e e' He Hlt) as HD.
  pose proof K52_pos as HK.
  apply Z.lt_le_trans with (2 * K52 * P e).
  - apply Z.mul_lt_mono_pos_r; assumption.
  - apply Z.le_trans with (K52 * P e').
    + replace (2 * K52 * P e) with (K52 * (2 * P e)) by ring.
      apply Z.mul_le_mono_nonneg_l; lia.
    + apply Z.mul_le_mono_nonneg_r; lia.
Qed.

(** For canonical forms the order of the values is the order of the
    exponents, then of the mantissas. *)
Lemma canonical_le (m e m' e' : Z) :
  0 < m -> 0 < m' -> canonical m e -> canonical m' e' ->
  (m * P e <= m' * P e' <-> e < e' \/ (e = e' /\ m <= m')).
Proof.
  intros Hm Hm' Hc Hc'.
  destruct (canonical_bounds m e Hm Hc) as (He & Hhi & Hlo).
  destruct (canonical_bounds m' e' Hm' Hc') as (He' & Hhi' & Hlo').
  pose proof (P_pos e ltac:(lia)). pose proof (P_pos e' ltac:(lia)).
  destruct (Z.lt_trichotomy e e') as [Hlt|[->|Hgt]].
  - split; [auto|]. intros _. apply Z.lt_le_incl.
    apply lower_exponent_lt; lia.
  - split.
    + intros Hle. right. split; [reflexivity|].
      apply Z.mul_le_mono_pos_r in Hle; assumption.
    + intros [|[_ ?]]; [lia|]. apply Z.mul_le_mono_nonneg_r; lia.
  - split; [|lia]. intros Hle. exfalso.
    assert (m' * P e' < m * P e); [|lia].
    apply lower_exponent_lt; lia.
Qed.

Lemma canonical_lt (m e m' e' : Z) :
  0 < m -> 0 < m' -> canonical m e -> canonical m' e' ->
  (m * P e < m' * P e' <-> e < e' \/ (e = e' /\ m < m')).
Proof.
  intros Hm Hm' Hc Hc'.
  pose proof (canonical_le m' e' m e Hm' Hm Hc' Hc) as H.
  split.
  - intros Hlt. destruct (Z.lt_trichotomy e e') as [|[->|]]; [auto| |].
    + right. split; [reflexivity|]. destruct (Z.lt_ge_cases m m'); [assumption|].
      assert (m' * P e' <= m * P e') by (apply H; auto). lia.
    + assert (m' * P e' <= m * P e) by (apply H; auto). lia.
  - intros Hor. destruct (Z.lt_ge_cases (m * P e) (m' * P e')) as [|H0]; [assumption|].
    apply H in H0. lia.
Qed.

Section Bounds.

Variables (a b e m2 M E mx ex : Z).
Let e1 := fx (Zdigits2 (a / b) + e).
Let b1 := b * 2 ^ (e1 - e).
Hypothesis (Ha : 0 <= a) (Hb : 0 < b) (He : -2200 <= e).
Hypothesis (Hpre : e <= e1).
Hypothesis (Hm2 : m2 = a / b1 \/ (m2 = a / b1 + 1 /\ a mod b1 <> 0)).
Hypothesis (Hb1 : 0 < b1) (Hcan1 : canonical (a / b1) e1).
Hypothesis (HM0 : 0 <= M) (HE1 : e1 <= E) (Hval : M * 2 ^ (E - e1) = m2).
Hypothesis (Hmx : 0 < mx) (Hcx : canonical mx ex).

Lemma round_upper_aux : a * P e <= b * (mx * P ex) -> M * P E <= mx * P ex.
Proof using All.
  intros Hle.
  destruct (canonical_bounds mx ex Hmx Hcx) as (Hex & Hmxhi & _).
  pose proof (P_pos e He) as HPe.
  pose proof (P_pos ex ltac:(lia)) as HPex.
  assert (HPe1 : P e1 = P e * 2 ^ (e1 - e)).
  { rewrite <- P_add by lia. f_equal. lia. }
  assert (Hpk : 0 < 2 ^ (e1 - e)) by (apply Z.pow_pos_nonneg; lia).
  assert (HPE : P E = P e1 * 2 ^ (E - e1)).
  { rewrite <- P_add by lia. f_equal. lia. }
  assert (Hm1 : 0 <= a / b1) by (apply Z.div_pos; lia).
  pose proof (Z.div_mod a b1 ltac:(lia)) as Hdm.
  pose proof (Z.mod_pos_bound a b1 Hb1) as Hrem.
  (* the exponent after the first shift is at most that of the bound *)
  assert (He1x : e1 <= ex).
  { destruct (Z.le_gt_cases e1 ex) as [|Hgt]; [assumption|exfalso].
    destruct (Z.eq_dec (a / b1) 0) as [E0|Hne].
    - unfold canonical in Hcan1. rewrite E0 in Hcan1. cbn in Hcan1.
      unfold fx in Hcan1. lia.
    - destruct (canonical_bounds (a / b1) e1 ltac:(lia) Hcan1) as (_ & _ & Hlo).
      specialize (Hlo ltac:(lia)).
      assert (Hlt : mx * P ex < a / b1 * P e1)
        by (apply lower_exponent_lt; lia).
      assert (a / b1 * b1 <= a) by lia.
      assert (H1 : b * (a / b1 * P e1) <= a * P e).
      { rewrite HPe1.
        replace (b * (a / b1 * (P e * 2 ^ (e1 - e)))) with (a / b1 * b1 * P e)
          by (unfold b1; ring).
        apply Z.mul_le_mono_nonneg_r; lia. }
      assert (H2 : b * (mx * P ex) < b * (a / b1 * P e1))
        by (apply Z.mul_lt_mono_pos_l; assumption).
      lia. }
  set (N := mx * 2 ^ (ex - e1)).
  assert (HPex1 : P ex = P e1 * 2 ^ (ex - e1)).
  { rewrite <- P_add by lia. f_equal. lia. }
  assert (HaN : a <= N * b1).
  { assert (Hle' : a * P e <= N * b1 * P e).
    { replace (N * b1 * P e) with (b * (mx * P ex)); [assumption|].
      rewrite HPex1, HPe1. unfold N, b1. ring. }
    apply Z.mul_le_mono_pos_r in Hle'; assumption. }
  assert (Hm2N : m2 <= N).
  { assert (a / b1 <= N).
    { apply Z.div_le_upper_bound; [lia|]. lia. }
    destruct Hm2 as [->|[-> Hne]]; [assumption|].
    destruct (Z.eq_dec (a / b1) N) as [E0|]; [|lia].
    rewrite E0 in Hdm. lia. }
  rewrite HPE, HPex1.
  pose proof (P_pos e1 ltac:(lia)).
  replace (M * (P e1 * 2 ^ (E - e1))) with (m2 * P e1) by (rewrite <- Hval; ring).
  replace (mx * (P e1 * 2 ^ (ex - e1))) with (N * P e1) by (unfold N; ring).
  apply Z.mul_le_mono_nonneg_r; lia.
Qed.

Lemma round_lower_aux : b * (mx * P ex) <= a * P e -> mx * P ex <= M * P E.
Proof using All.
  intros Hle.
  destruct (canonical_bounds mx ex Hmx Hcx) as (Hex & Hmxhi & _).
  pose proof (P_pos e He) as HPe.
  pose proof (P_pos ex ltac:(lia)) as HPex.
  assert (HPe1 : P e1 = P e * 2 ^ (e1 - e)).
  { rewrite <- P_add by lia. f_equal. lia. }
  assert (Hpk : 0 < 2 ^ (e1 - e)) by (apply Z.pow_pos_nonneg; lia).
  assert (HPE : P E = P e1 * 2 ^ (E - e1)).
  { rewrite <- P_add by lia. f_equal. lia. }
  assert (Hm1 : 0 <= a / b1) by (apply Z.div_pos; lia).
  pose proof (P_pos e1 ltac:(lia)) as HPe1pos.
  assert (Hm12 : a / b1 <= m2) by lia.
  rewrite HPE. replace (M * (P e1 * 2 ^ (E - e1))) with (m2 * P e1) by (rewrite <- Hval; ring).
  destruct (Z.le_gt_cases e1 ex) as [He1x|Hgt].
  - set (N := mx * 2 ^ (ex - e1)).
    assert (HPex1 : P ex = P e1 * 2 ^ (ex - e1)).
    { rewrite <- P_add by lia. f_equal. lia. }
    assert (HaN : N * b1 <= a).
    { assert (Hle' : N * b1 * P e <= a * P e).
      { replace (N * b1 * P e) with (b * (mx * P ex)); [assumption|].
        rewrite HPex1, HPe1. unfold N, b1. ring. }
      apply Z.mul_le_mono_pos_r in Hle'; assumption. }
    assert (N <= a / b1) by (apply Z.div_le_lower_bound; lia).
    rewrite HPex1.
    replace (mx * (P e1 * 2 ^ (ex - e1))) with (N * P e1) by (unfold N; ring).
    apply Z.mul_le_mono_nonneg_r; lia.
  - destruct (Z.eq_dec (a / b1) 0) as [E0|Hne].
    { unfold canonical in Hcan1. rewrite E0 in Hcan1. cbn in Hcan1.
      unfold fx in Hcan1. lia. }
    destruct (canonical_bounds (a / b1) e1 ltac:(lia) Hcan1) as (_ & _ & Hlo).
    specialize (Hlo ltac:(lia)).
    apply Z.lt_le_incl. apply Z.lt_le_trans with (a / b1 * P e1).
    + apply lower_exponent_lt; lia.
    + apply Z.mul_le_mono_nonneg_r; lia.
Qed.

End Bounds.

(** [binary_round_aux] on the floor and the location of [a / b]: the result
    is a canonical float, and it lies on the same side of every canonical
    float as the quotient that was rounded. *)
Theorem binary_round_aux_bounds (s : bool) (a b e : Z) :
  0 <= a -> 0 < b -> -2200 <= e -> e <= fx (Zdigits2 (a / b) + e) ->
  exists M E : Z,
    0 <= M /\ canonical M E /\
    binary_round_aux prec emax s (a / b) e (loc_of a b) = rounded_float s M E /\
    forall mx ex : Z, 0 < mx -> canonical mx ex ->
      (a * P e <= b * (mx * P ex) -> M * P E <= mx * P ex) /\
      (b * (mx * P ex) <= a * P e -> mx * P ex <= M * P E).
Proof.
  intros Ha Hb He Hpre.
  destruct (binary_round_aux_spec s a b e Ha Hb Hpre)
    as (M & E & m2 & Hm2 & Hb1 & Hcan1 & HM0 & HE1 & Hval & HcanM & Hres).
  exists M, E. split; [assumption|]. split; [assumption|]. split; [exact Hres|].
  intros mx ex Hmx Hcx. split.
  - eapply round_upper_aux; eassumption.
  - eapply round_lower_aux; eassumption.
Qed.

Lemma iter_xO (m d : positive) : Zpos (Pos.iter xO m d) = Zpos m * 2 ^ Zpos d.
Proof.
  induction d as [|d IH] using Pos.peano_ind.
  - cbn. lia.
  - rewrite Pos.iter_succ, Pos2Z.inj_succ, Z.pow_succ_r by lia.
    rewrite Pos2Z.inj_xO, IH. ring.
Qed.

Lemma shl_align_spec (mx : positive) (ex ex' : Z) :
  let r := shl_align mx ex ex' in
  snd r = Z.min ex ex' /\ Zpos (fst r) = Zpos mx * 2 ^ (ex - snd r).
Proof.
  unfold shl_align. destruct (ex' - ex) as [|d|d] eqn:E; cbn [fst snd].
  - rewrite Z.min_l by lia. rewrite Z.sub_diag. lia.
  - rewrite Z.min_l by lia. rewrite Z.sub_diag. lia.
  - rewrite Z.min_r by lia. split; [reflexivity|].
    rewrite iter_xO. f_equal. f_equal. lia.
Qed.

Lemma Zdigits2_mul_pow2 (m k : Z) :
  0 < m -> 0 <= k -> Zdigits2 (m * 2 ^ k) = Zdigits2 m + k.
Proof.
  intros Hm Hk. pose proof (Zdigits2_bounds m Hm) as [Hlo Hhi].
  assert (0 < 2 ^ k) by (apply Z.pow_pos_nonneg; lia).
  assert (1 <= Zdigits2 m).
  { rewrite Zdigits2_log2 by assumption. pose proof (Z.log2_nonneg m). lia. }
  apply Zdigits2_unique; [lia|].
  replace (Zdigits2 m + k - 1) with (Zdigits2 m - 1 + k) by lia.
  rewrite !Z.pow_add_r by lia. split.
  - apply Z.mul_le_mono_nonneg_r; lia.
  - apply Z.mul_lt_mono_pos_r; lia.
Qed.

Lemma loc_of_1 (a : Z) : loc_of a 1 = loc_Exact.
Proof. unfold loc_of. now rewrite Z.mod_1_r. Qed.

(** [binary_round]: rounding of [p * 2 ^ ez]. *)
Theorem binary_round_bounds (s : bool) (p : positive) (ez : Z) :
  -2200 <= ez ->
  exists M E : Z,
    0 <= M /\ canonical M E /\
    binary_round prec emax s p ez = rounded_float s M E /\
    forall mx ex : Z, 0 < mx -> canonical mx ex ->
      (Zpos p * P ez <= mx * P ex -> M * P E <= mx * P ex) /\
      (mx * P ex <= Zpos p * P ez -> mx * P ex <= M * P E).
Proof.
  intros Hez. unfold binary_round.
  change (Zpos (digits2_pos p)) with (Zdigits2 (Zpos p)). rewrite fexp_fx.
  pose proof (shl_align_spec p ez (fx (Zdigits2 (Zpos p) + ez))) as [He' Hm'].
  cbn zeta in He', Hm'.
  destruct (shl_align p ez (fx (Zdigits2 (Z.pos p) + ez))) as [m' e'].
  cbn [fst snd] in He', Hm'.
  assert (Hle : e' <= ez) by lia.
  assert (He2 : -2200 <= e') by (unfold fx in He'; lia).
  assert (Hdig : Zdigits2 (Zpos m') + e' = Zdigits2 (Zpos p) + ez).
  { rewrite Hm', Zdigits2_mul_pow2 by lia. lia. }
  destruct (binary_round_aux_bounds s (Zpos m') 1 e' ltac:(lia) ltac:(lia) He2)
    as (M & E & HM & Hc & Hres & Hb).
  { rewrite Z.div_1_r, Hdig. lia. }
  rewrite Z.div_1_r, loc_of_1 in Hres.
  exists M, E. split; [assumption|]. split; [assumption|]. split; [assumption|].
  intros mx ex Hmx Hcx.
  assert (HP : P ez = P e' * 2 ^ (ez - e')).
  { rewrite <- P_add by lia. f_equal. lia. }
  split; intros H; apply (Hb mx ex); try assumption;
    rewrite Z.mul_1_l, Hm'; rewrite HP in H; lia.
Qed.

Lemma valid_canonical (s : bool) (m : positive) (e : Z) :
  valid_binary (S754_finite s m e) = true -> canonical (Zpos m) e /\ e <= 971.
Proof.
  cbn. unfold bounded, canonical_mantissa. rewrite fexp_fx.
  intros H. apply andb_true_iff in H. destruct H as [H1 H2].
  apply Z.eqb_eq in H1. apply Z.leb_le in H2. split; [exact H1|].
  exact H2.
Qed.

Lemma Pos_compare_cont_Eq (p q : positive) : Pos.compare_cont Eq p q = (Zpos p ?= Zpos q).
Proof. reflexivity. Qed.

(** On valid finite floats [SFleb] and [SFltb] are the order of the values. *)
Lemma SFcompare_Zval (x y : spec_float) :
  valid_binary x = true -> valid_binary y = true ->
  is_finite x = true -> is_finite y = true ->
  SFcompare x y = Some (Zval x ?= Zval y).
Proof.
  intros Vx Vy Fx Fy.
  destruct x as [sx|sx| |sx mx ex], y as [sy|sy| |sy my ey]; try discriminate;
    cbn [SFcompare Zval].
  - reflexivity.
  - destruct (valid_canonical _ _ _ Vy) as [Hc _].
    destruct (canonical_bounds (Zpos my) ey ltac:(lia) Hc) as (He & _).
    pose proof (P_pos ey ltac:(lia)).
    destruct sy; cbn [cond_Zopp]; f_equal; symmetry;
      [apply Z.compare_gt_iff|apply Z.compare_lt_iff]; nia.
  - destruct (valid_canonical _ _ _ Vx) as [Hc _].
    destruct (canonical_bounds (Zpos mx) ex ltac:(lia) Hc) as (He & _).
    pose proof (P_pos ex ltac:(lia)).
    destruct sx; cbn [cond_Zopp]; f_equal; symmetry;
      [apply Z.compare_lt_iff|apply Z.compare_gt_iff]; nia.
  - destruct (valid_canonical _ _ _ Vx) as [Hcx _].
    destruct (valid_canonical _ _ _ Vy) as [Hcy _].
    destruct (canonical_bounds (Zpos mx) ex ltac:(lia) Hcx) as (Hex & _).
    destruct (canonical_bounds (Zpos my) ey ltac:(lia) Hcy) as (Hey & _).
    pose proof (P_pos ex ltac:(lia)). pose proof (P_pos ey ltac:(lia)).
    pose proof (canonical_lt (Zpos mx) ex (Zpos my) ey ltac:(lia) ltac:(lia) Hcx Hcy) as Hlt.
    pose proof (canonical_lt (Zpos my) ey (Zpos mx) ex ltac:(lia) ltac:(lia) Hcy Hcx) as Hgt.
    rewrite Pos_compare_cont_Eq. f_equal.
    destruct sx, sy; cbn [cond_Zopp].
    + (* both negative *)
      destruct (Z.compare_spec ex ey) as [->|Hl|Hg].
      * rewrite Z.compare_opp. rewrite <- Z.compare_antisym.
        destruct (Z.compare_spec (Zpos my) (Zpos mx)) as [E|L|G]; symmetry.
        -- apply Z.compare_eq_iff. inversion E. reflexivity.
        -- apply Z.compare_lt_iff. apply Hgt. right. split; [reflexivity|assumption].
        -- apply Z.compare_gt_iff. apply Hlt. right. split; [reflexivity|lia].
      * symmetry. apply Z.compare_gt_iff.
        assert (Z.pos mx * P ex < Z.pos my * P ey) by (apply Hlt; auto). lia.
      * symmetry. apply Z.compare_lt_iff.
        assert (Z.pos my * P ey < Z.pos mx * P ex) by (apply Hgt; auto). lia.
    + symmetry. apply Z.compare_lt_iff. nia.
    + symmetry. apply Z.compare_gt_iff. nia.
    + destruct (Z.compare_spec ex ey) as [->|Hl|Hg].
      * destruct (Z.compare_spec (Zpos mx) (Zpos my)) as [E|L|G]; symmetry.
        -- apply Z.compare_eq_iff. inversion E. reflexivity.
        -- apply Z.compare_lt_iff. apply Hlt. right. split; [reflexivity|assumption].
        -- apply Z.compare_gt_iff. apply Hgt. right. split; [reflexivity|lia].
      * symmetry. apply Z.compare_lt_iff. apply Hlt. auto.
      * symmetry. apply Z.compare_gt_iff. apply Hgt. auto.
Qed.

Lemma SFleb_Zval (x y : spec_float) :
  valid_binary x = true -> valid_binary y = true ->
  is_finite x = true -> is_finite y = true ->
  SFleb x y = (Zval x <=? Zval y).
Proof.
  intros. unfold SFleb. rewrite SFcompare_Zval by assumption.
  unfold Z.leb. now destruct (Zval x ?= Zval y).
Qed.

Lemma SFltb_Zval (x y : spec_float) :
  valid_binary x = true -> valid_binary y = true ->
  is_finite x = true -> is_finite y = true ->
  SFltb x y = (Zval x <? Zval y).
Proof.
  intros. unfold SFltb. rewrite SFcompare_Zval by assumption.
  unfold Z.ltb. now destruct (Zval x ?= Zval y).
Qed.

Lemma rounded_float_cases (s : bool) (M E : Z) :
  0 <= M -> canonical M E ->
  let r := rounded_float s M E in
  (is_finite r = true /\ valid_binary r = true /\ Zval r = cond_Zopp s (M * P E)
   /\ (M = 0 \/ E <= 971)) \/
  (r = S754_infinity s /\ 0 < M /\ 971 < E).
Proof.
  intros HM Hc r. subst r. unfold rounded_float.
  destruct M as [|p|p]; [| |lia].
  - left. cbn. destruct s; auto.
  - destruct (Z.leb_spec E 971) as [Hle|Hgt].
    + left. cbn [is_finite Zval]. split; [reflexivity|]. split; [|auto].
      cbn. unfold bounded, canonical_mantissa. rewrite fexp_fx.
      change (Zpos (digits2_pos p)) with (Zdigits2 (Zpos p)).
      unfold canonical in Hc. rewrite Hc, Z.eqb_refl. cbn. now apply Z.leb_le.
    + right. split; [reflexivity|]. lia.
Qed.

Lemma finite_positive (B : spec_float) :
  valid_binary B = true -> is_finite B = true -> 0 < Zval B ->
  exists mB eB, B = S754_finite false mB eB /\ canonical (Zpos mB) eB /\ eB <= 971.
Proof.
  intros V F H. destruct B as [sB|sB| |sB mB eB]; try discriminate; cbn in H; try lia.
  destruct (valid_canonical _ _ _ V) as [Hc He].
  destruct (canonical_bounds (Zpos mB) eB ltac:(lia) Hc) as (Hlo & _).
  pose proof (P_pos eB ltac:(lia)).
  destruct sB; cbn in H; [nia|]. eauto.
Qed.

Lemma finite_negative (B : spec_float) :
  valid_binary B = true -> is_finite B = true -> Zval B < 0 ->
  exists mB eB, B = S754_finite true mB eB /\ canonical (Zpos mB) eB /\ eB <= 971.
Proof.
  intros V F H. destruct B as [sB|sB| |sB mB eB]; try discriminate; cbn in H; try lia.
  destruct (valid_canonical _ _ _ V) as [Hc He].
  destruct (canonical_bounds (Zpos mB) eB ltac:(lia) Hc) as (Hlo & _).
  pose proof (P_pos eB ltac:(lia)).
  destruct sB; cbn in H; [|nia]. eauto.
Qed.

Lemma canonical_value_pos (M E : Z) : 0 <= M -> canonical M E -> 0 <= M * P E.
Proof.
  intros HM Hc. destruct (Z.eq_dec M 0) as [->|]; [lia|].
  destruct (canonical_bounds M E ltac:(lia) Hc) as (He & _).
  pose proof (P_pos E ltac:(lia)). nia.
Qed.

(** A rounded float against a valid finite float. *)
Lemma rounded_float_le (s : bool) (M E : Z) (B : spec_float) :
  0 <= M -> canonical M E ->
  valid_binary B = true -> is_finite B = true ->
  cond_Zopp s (M * P E) <= Zval B ->
  SFleb (rounded_float s M E) B = true.
Proof.
  intros HM Hc V F Hle.
  destruct (rounded_float_cases s M E HM Hc) as [(Fr & Vr & Zr & _)|(Er & HM' & HE)].
  - rewrite SFleb_Zval by assumption. apply Z.leb_le. now rewrite Zr.
  - rewrite Er. destruct s.
    + destruct B; try discriminate; reflexivity.
    + exfalso. cbn [cond_Zopp] in Hle.
      pose proof (canonical_value_pos M E HM Hc).
      destruct (canonical_bounds M E HM' Hc) as (He & _).
      pose proof (P_pos E ltac:(lia)).
      destruct (finite_positive B V F ltac:(nia)) as (mB & eB & -> & HcB & HeB).
      cbn [Zval cond_Zopp] in Hle.
      apply (canonical_le M E (Zpos mB) eB HM' ltac:(lia) Hc HcB) in Hle. lia.
Qed.

Lemma rounded_float_ge (s : bool) (M E : Z) (B : spec_float) :
  0 <= M -> canonical M E ->
  valid_binary B = true -> is_finite B = true ->
  Zval B <= cond_Zopp s (M * P E) ->
  SFleb B (rounded_float s M E) = true.
Proof.
  intros HM Hc V F Hle.
  destruct (rounded_float_cases s M E HM Hc) as [(Fr & Vr & Zr & _)|(Er & HM' & HE)].
  - rewrite SFleb_Zval by assumption. apply Z.leb_le. now rewrite Zr.
  - rewrite Er. destruct s.
    + exfalso. cbn [cond_Zopp] in Hle.
      pose proof (canonical_value_pos M E HM Hc).
      destruct (canonical_bounds M E HM' Hc) as (He & _).
      pose proof (P_pos E ltac:(lia)).
      destruct (finite_negative B V F ltac:(nia)) as (mB & eB & -> & HcB & HeB).
      cbn [Zval cond_Zopp] in Hle.
      assert (Hle' : M * P E <= Zpos mB * P eB) by lia.
      apply (canonical_le M E (Zpos mB) eB HM' ltac:(lia) Hc HcB) in Hle'. lia.
    + destruct B; try discriminate; reflexivity.
Qed.

(** [binary_normalize] is monotone against valid finite floats. *)
Theorem binary_normalize_monotone (z ez : Z) (B : spec_float) :
  -2200 <= ez -> valid_binary B = true -> is_finite B = true ->
  (z * P ez <= Zval B -> SFleb (binary_normalize prec emax z ez false) B = true) /\
  (Zval B <= z * P ez -> SFleb B (binary_normalize prec emax z ez false) = true).
Proof.
  intros Hez V F. pose proof (P_pos ez Hez) as HP.
  destruct z as [|p|p]; cbn [binary_normalize].
  - rewrite !SFleb_Zval by auto. cbn [Zval]. split; intros; apply Z.leb_le; lia.
  - destruct (binary_round_bounds false p ez Hez) as (M & E & HM & Hc & -> & Hb).
    pose proof (canonical_value_pos M E HM Hc).
    split; intros H0.
    + apply rounded_float_le; try assumption. cbn [cond_Zopp].
      destruct (finite_positive B V F ltac:(nia)) as (mB & eB & -> & HcB & HeB).
      cbn [Zval cond_Zopp] in *. now apply Hb.
    + apply rounded_float_ge; try assumption. cbn [cond_Zopp].
      destruct (Z.le_gt_cases (Zval B) 0) as [|Hpos]; [lia|].
      destruct (finite_positive B V F Hpos) as (mB & eB & -> & HcB & HeB).
      cbn [Zval cond_Zopp] in *. now apply Hb.
  - destruct (binary_round_bounds true p ez Hez) as (M & E & HM & Hc & -> & Hb).
    pose proof (canonical_value_pos M E HM Hc).
    split; intros H0.
    + apply rounded_float_le; try assumption. cbn [cond_Zopp].
      destruct (Z.le_gt_cases 0 (Zval B)) as [|Hneg]; [lia|].
      destruct (finite_negative B V F Hneg) as (mB & eB & -> & HcB & HeB).
      cbn [Zval cond_Zopp] in *.
      assert (Z.pos mB * P eB <= M * P E); [|lia]. apply Hb; try assumption; lia.
    + apply rounded_float_ge; try assumption. cbn [cond_Zopp].
      destruct (finite_negative B V F ltac:(nia)) as (mB & eB & -> & HcB & HeB).
      cbn [Zval cond_Zopp] in *.
      assert (M * P E <= Z.pos mB * P eB); [|lia]. apply Hb; try assumption; lia.
Qed.

Lemma shl_align_value (mx : positive) (ex ez : Z) :
  -2200 <= ez -> ez <= ex ->
  Zpos (fst (shl_align mx ex ez)) * P ez = Zpos mx * P ex.
Proof.
  intros Hez Hle. pose proof (shl_align_spec mx ex ez) as [He Hm]. cbn zeta in *.
  rewrite Hm, He. rewrite Z.min_r by lia.
  replace (P ex) with (P ez * 2 ^ (ex - ez)); [ring|].
  rewrite <- P_add by lia. f_equal. lia.
Qed.

Lemma valid_exponent (s : bool) (m : positive) (e : Z) :
  valid_binary (S754_finite s m e) = true -> -1074 <= e.
Proof.
  intros V. destruct (valid_canonical _ _ _ V) as [Hc _].
  now destruct (canonical_bounds (Zpos m) e ltac:(lia) Hc).
Qed.

Lemma aligned_difference (sx sy : bool) (mx my : positive) (ex ey : Z) :
  -1074 <= ex -> -1074 <= ey ->
  let ez := Z.min ex ey in
  (cond_Zopp sx (Zpos (fst (shl_align mx ex ez)))
   - cond_Zopp sy (Zpos (fst (shl_align my ey ez)))) * P ez
  = cond_Zopp sx (Zpos mx * P ex) - cond_Zopp sy (Zpos my * P ey).
Proof.
  intros Hx Hy ez.
  pose proof (shl_align_value mx ex ez ltac:(lia) ltac:(lia)) as Ex.
  pose proof (shl_align_value my ey ez ltac:(lia) ltac:(lia)) as Ey.
  destruct sx, sy; cbn [cond_Zopp]; lia.
Qed.

(** Subtraction and addition are monotone against valid finite floats. *)
Theorem SFsub_monotone (x y B : spec_float) :
  valid_binary x = true -> valid_binary y = true -> valid_binary B = true ->
  is_finite x = true -> is_finite y = true -> is_finite B = true ->
  (Zval x - Zval y <= Zval B -> SFleb (SF64sub x y) B = true) /\
  (Zval B <= Zval x - Zval y -> SFleb B (SF64sub x y) = true).
Proof.
  intros Vx Vy VB Fx Fy FB.
  destruct x as [sx|sx| |sx mx ex], y as [sy|sy| |sy my ey]; try discriminate.
  - assert (E : exists s, SF64sub (S754_zero sx) (S754_zero sy) = S754_zero s)
      by (destruct sx, sy; cbn; eauto).
    destruct E as [s ->]. rewrite !SFleb_Zval by auto. cbn [Zval].
    split; intros; apply Z.leb_le; lia.
  - cbn [SF64sub SFsub]. rewrite !SFleb_Zval by auto. cbn [Zval].
    split; intros; apply Z.leb_le; destruct sy; cbn [cond_Zopp negb] in *; lia.
  - cbn [SF64sub SFsub]. rewrite !SFleb_Zval by auto. cbn [Zval] in *.
    split; intros; apply Z.leb_le; lia.
  - pose proof (valid_exponent _ _ _ Vx). pose proof (valid_exponent _ _ _ Vy).
    cbn [SF64sub SFsub Zval].
    rewrite <- aligned_difference by assumption.
    apply binary_normalize_monotone; auto. lia.
Qed.

Theorem SFadd_monotone (x y B : spec_float) :
  valid_binary x = true -> valid_binary y = true -> valid_binary B = true ->
  is_finite x = true -> is_finite y = true -> is_finite B = true ->
  (Zval x + Zval y <= Zval B -> SFleb (SF64add x y) B = true) /\
  (Zval B <= Zval x + Zval y -> SFleb B (SF64add x y) = true).
Proof.
  intros Vx Vy VB Fx Fy FB.
  destruct x as [sx|sx| |sx mx ex], y as [sy|sy| |sy my ey]; try discriminate.
  - assert (E : exists s, SF64add (S754_zero sx) (S754_zero sy) = S754_zero s)
      by (destruct sx, sy; cbn; eauto).
    destruct E as [s ->]. rewrite !SFleb_Zval by auto. cbn [Zval].
    split; intros; apply Z.leb_le; lia.
  - cbn [SF64add SFadd]. rewrite !SFleb_Zval by auto. cbn [Zval].
    split; intros; apply Z.leb_le; lia.
  - cbn [SF64add SFadd]. rewrite !SFleb_Zval by auto. cbn [Zval] in *.
    split; intros; apply Z.leb_le; lia.
  - pose proof (valid_exponent _ _ _ Vx). pose proof (valid_exponent _ _ _ Vy).
    cbn [SF64add SFadd Zval].
    pose proof (aligned_difference sx (negb sy) mx my ex ey ltac:(lia) ltac:(lia)) as E.
    cbn zeta in E.
    replace (cond_Zopp sx (Z.pos mx * P ex) + cond_Zopp sy (Z.pos my * P ey))
      with (cond_Zopp sx (Z.pos mx * P ex) - cond_Zopp (negb sy) (Z.pos my * P ey))
      by (destruct sy; cbn; lia).
    rewrite <- E.
    replace (cond_Zopp sx (Z.pos (fst (shl_align mx ex (Z.min ex ey))))
             - cond_Zopp (negb sy) (Z.pos (fst (shl_align my ey (Z.min ex ey)))))
      with (cond_Zopp sx (Z.pos (fst (shl_align mx ex (Z.min ex ey))))
            + cond_Zopp sy (Z.pos (fst (shl_align my ey (Z.min ex ey)))))
      by (destruct sy; cbn; lia).
    apply binary_normalize_monotone; auto. lia.
Qed.

(** ** Division and multiplication *)

Lemma new_location_loc_of (a b : Z) :
  0 < b -> new_location b (a mod b) = loc_of a b.
Proof.
  intros Hb. unfold new_location, loc_of, new_location_even, new_location_odd.
  pose proof (Z.mod_pos_bound a b Hb) as Hr.
  destruct (Z.even b) eqn:Ev; destruct (Z.eqb_spec (a mod b) 0); try reflexivity.
  f_equal.
  assert (Hodd : Z.odd b = true) by (rewrite <- Z.negb_even, Ev; reflexivity).
  apply Z.odd_spec in Hodd. destruct Hodd as [k Hk].
  destruct (Z.compare_spec (2 * (a mod b) + 1) b);
    symmetry; [apply Z.compare_lt_iff|apply Z.compare_lt_iff|apply Z.compare_gt_iff]; lia.
Qed.

Lemma Zdigits2_ge (m k : Z) : 0 <= k -> 2 ^ k <= m -> k + 1 <= Zdigits2 m.
Proof.
  intros Hk H. assert (Hm : 0 < m) by (pose proof (Z.pow_pos_nonneg 2 k); lia).
  pose proof (Zdigits2_bounds m Hm) as [_ Hhi].
  destruct (Z.le_gt_cases (k + 1) (Zdigits2 m)); [assumption|].
  assert (2 ^ Zdigits2 m <= 2 ^ k)
    by (apply Z.pow_le_mono_r; [lia|]; pose proof (Zdigits2_nonneg m); lia).
  lia.
Qed.

Lemma fx_mono (x y : Z) : x <= y -> fx x <= fx y.
Proof. unfold fx. lia. Qed.

Section Division.

Variables (mx my : positive) (ex ey : Z).
Hypothesis (Hex : -1074 <= ex <= 971) (Hey : -1074 <= ey <= 971).

Let t := Zdigits2 (Zpos mx) + ex - (Zdigits2 (Zpos my) + ey).
Let e' := Z.min (fx t) (ex - ey).
Let a := Zpos mx * 2 ^ (ex - ey - e').

Lemma SFdiv_core_binary_spec :
  SFdiv_core_binary prec emax (Zpos mx) ex (Zpos my) ey
  = (a / Zpos my, e', loc_of a (Zpos my)).
Proof using Type.
  unfold SFdiv_core_binary. rewrite fexp_fx. fold t. fold e'.
  assert (Hs : 0 <= ex - ey - e') by (unfold e'; lia).
  assert (Hm' : match ex - ey - e' with
                | 0 => Zpos mx
                | Zpos _ => Z.shiftl (Zpos mx) (ex - ey - e')
                | Zneg _ => 0
                end = a).
  { unfold a. destruct (ex - ey - e') as [|p|p] eqn:E; [cbn; lia| |lia].
    now rewrite Z.shiftl_mul_pow2 by lia. }
  rewrite Hm'.
  assert (Hde : Z.div_eucl a (Zpos my) = (a / Zpos my, a mod Zpos my)).
  { unfold Z.div, Z.modulo. now destruct (Z.div_eucl a (Zpos my)). }
  rewrite Hde. now rewrite new_location_loc_of by lia.
Qed.

Lemma SFdiv_core_precondition :
  -2200 <= e' /\ 0 <= a /\ e' <= fx (Zdigits2 (a / Zpos my) + e').
Proof using Hex Hey.
  assert (Hs : 0 <= ex - ey - e') by (unfold e'; lia).
  assert (He' : -2200 <= e') by (unfold e', fx; lia).
  assert (Ha : 0 < a) by (unfold a; pose proof (Z.pow_pos_nonneg 2 (ex - ey - e')); nia).
  split; [assumption|]. split; [lia|].
  set (dx := Zdigits2 (Zpos mx)) in *. set (dy := Zdigits2 (Zpos my)) in *.
  pose proof (Zdigits2_bounds (Zpos mx) ltac:(lia)) as [Hxlo Hxhi]. fold dx in Hxlo, Hxhi.
  pose proof (Zdigits2_bounds (Zpos my) ltac:(lia)) as [Hylo Hyhi]. fold dy in Hylo, Hyhi.
  assert (Hdx : 1 <= dx).
  { unfold dx. rewrite Zdigits2_log2 by lia. pose proof (Z.log2_nonneg (Zpos mx)). lia. }
  assert (Hdy : 1 <= dy).
  { unfold dy. rewrite Zdigits2_log2 by lia. pose proof (Z.log2_nonneg (Zpos my)). lia. }
  set (s := ex - ey - e') in *.
  assert (Halo : 2 ^ (dx - 1 + s) <= a).
  { unfold a. rewrite Z.pow_add_r by lia.
    apply Z.mul_le_mono_nonneg_r; [|assumption].
    apply Z.pow_nonneg; lia. }
  assert (Hq0 : 0 <= a / Zpos my) by (apply Z.div_pos; lia).
  destruct (Z.le_gt_cases (dy + 1) (dx + s)) as [Hbig|Hsmall].
  - (* the quotient has at least dx + s - dy digits *)
    assert (Hq : 2 ^ (dx + s - dy - 1) <= a / Zpos my).
    { apply Z.div_le_lower_bound; [lia|].
      apply Z.le_trans with (2 ^ dy * 2 ^ (dx + s - dy - 1)).
      - apply Z.mul_le_mono_nonneg_r; [apply Z.pow_nonneg; lia|lia].
      - rewrite <- Z.pow_add_r by lia.
        replace (dy + (dx + s - dy - 1)) with (dx - 1 + s) by lia. exact Halo. }
    apply Zdigits2_ge in Hq; [|lia].
    apply Z.le_trans with (fx t); [unfold e'; lia|].
    apply fx_mono. unfold t. fold dx dy. unfold s in *. lia.
  - (* few digits: the exponent is the least one *)
    assert (Ht : t <= e') by (unfold t; fold dx dy; unfold s in *; lia).
    assert (e' <= fx t) by (unfold e'; lia).
    pose proof (Zdigits2_nonneg (a / Zpos my)).
    unfold fx in *. lia.
Qed.

Lemma SFdiv_core_value : a * P e' = Zpos mx * P (ex - ey).
Proof using Hex Hey.
  destruct SFdiv_core_precondition as (He' & _).
  assert (Hs : 0 <= ex - ey - e') by (unfold e'; lia).
  unfold a. replace (P (ex - ey)) with (P e' * 2 ^ (ex - ey - e')); [ring|].
  rewrite <- P_add by lia. f_equal. lia.
Qed.

(** The quotient of two finite floats, against canonical floats. *)
Theorem SFdiv_bounds (sx sy : bool) :
  exists M E : Z,
    0 <= M /\ canonical M E /\
    SF64div (S754_finite sx mx ex) (S754_finite sy my ey)
      = rounded_float (xorb sx sy) M E /\
    forall mB eB : Z, 0 < mB -> canonical mB eB ->
      (Zpos mx * P (ex - ey) <= Zpos my * (mB * P eB) -> M * P E <= mB * P eB) /\
      (Zpos my * (mB * P eB) <= Zpos mx * P (ex - ey) -> mB * P eB <= M * P E).
Proof using Hex Hey.
  destruct SFdiv_core_precondition as (He' & Ha & Hpre).
  destruct (binary_round_aux_bounds (xorb sx sy) a (Zpos my) e' Ha ltac:(lia) He' Hpre)
    as (M & E & HM & Hc & Hres & Hb).
  exists M, E. split; [assumption|]. split; [assumption|]. split.
  - cbn [SF64div SFdiv]. rewrite SFdiv_core_binary_spec. exact Hres.
  - intros mB eB HmB HcB. rewrite <- SFdiv_core_value. now apply Hb.
Qed.

End Division.

Section Multiplication.

Variables (mx my : positive) (ex ey : Z).
Hypothesis (Hcx : canonical (Zpos mx) ex) (Hcy : canonical (Zpos my) ey).

Lemma SFmul_precondition :
  -2200 <= ex + ey /\
  ex + ey <= fx (Zdigits2 (Zpos mx * Zpos my) + (ex + ey)).
Proof using Hcx Hcy.
  destruct (canonical_bounds (Zpos mx) ex ltac:(lia) Hcx) as (Hex & _).
  destruct (canonical_bounds (Zpos my) ey ltac:(lia) Hcy) as (Hey & _).
  split; [lia|].
  pose proof (Zdigits2_bounds (Zpos mx) ltac:(lia)) as [Hxlo _].
  pose proof (Zdigits2_bounds (Zpos my) ltac:(lia)) as [Hylo _].
  set (dx := Zdigits2 (Zpos mx)) in *. set (dy := Zdigits2 (Zpos my)) in *.
  assert (Hdx : 1 <= dx).
  { unfold dx. rewrite Zdigits2_log2 by lia. pose proof (Z.log2_nonneg (Zpos mx)). lia. }
  assert (Hdy : 1 <= dy).
  { unfold dy. rewrite Zdigits2_log2 by lia. pose proof (Z.log2_nonneg (Zpos my)). lia. }
  assert (Hprod : 2 ^ (dx + dy - 2) <= Zpos mx * Zpos my).
  { replace (dx + dy - 2) with ((dx - 1) + (dy - 1)) by lia.
    rewrite Z.pow_add_r by lia.
    apply Z.mul_le_mono_nonneg; try assumption; apply Z.pow_nonneg; lia. }
  apply Zdigits2_ge in Hprod; [|lia].
  unfold canonical in Hcx, Hcy. fold dx in Hcx. fold dy in Hcy.
  unfold fx in *. lia.
Qed.

Theorem SFmul_bounds (sx sy : bool) :
  exists M E : Z,
    0 <= M /\ canonical M E /\
    SF64mul (S754_finite sx mx ex) (S754_finite sy my ey)
      = rounded_float (xorb sx sy) M E /\
    forall mB eB : Z, 0 < mB -> canonical mB eB ->
      (Zpos mx * Zpos my * P (ex + ey) <= mB * P eB -> M * P E <= mB * P eB) /\
      (mB * P eB <= Zpos mx * Zpos my * P (ex + ey) -> mB * P eB <= M * P E).
Proof using Hcx Hcy.
  destruct SFmul_precondition as (He & Hpre).
  destruct (binary_round_aux_bounds (xorb sx sy) (Zpos mx * Zpos my) 1 (ex + ey)
              ltac:(lia) ltac:(lia) He) as (M & E & HM & Hc & Hres & Hb).
  { now rewrite Z.div_1_r. }
  rewrite Z.div_1_r, loc_of_1 in Hres.
  exists M, E. split; [assumption|]. split; [assumption|]. split.
  - cbn [SF64mul SFmul]. exact Hres.
  - intros mB eB HmB HcB. specialize (Hb mB eB HmB HcB).
    rewrite !Z.mul_1_l in Hb. exact Hb.
Qed.

End Multiplication.

(** ** The arithmetic of the delay *)

Lemma nonneg_finite_SF (x : float) :
  nonneg_finite x <-> SFnonneg (Prim2SF x) = true.
Proof.
  unfold nonneg_finite. rewrite leb_spec, ltb_spec.
  change (Prim2SF 0) with (S754_zero false).
  change (Prim2SF infinity) with (S754_infinity false).
  destruct (Prim2SF x) as [s|[]| |[] m e]; cbn; intuition discriminate.
Qed.

Lemma SFnonneg_finite (x : spec_float) : SFnonneg x = true -> is_finite x = true.
Proof. destruct x as [s|s| |[] m e]; cbn; congruence. Qed.

Lemma SFnonneg_Zval (x : spec_float) :
  valid_binary x = true -> SFnonneg x = true -> 0 <= Zval x.
Proof.
  intros V H. destruct x as [s|s| |[] m e]; try discriminate; cbn; try lia.
  pose proof (valid_exponent _ _ _ V). pose proof (P_pos e ltac:(lia)). nia.
Qed.

(** A valid float between zero and a finite float is finite and not
    negative. *)
Lemma SFnonneg_between (r X : spec_float) :
  SFleb (S754_zero false) r = true -> SFleb r X = true -> is_finite X = true ->
  SFnonneg r = true.
Proof.
  destruct r as [s|[]| |[] m e], X as [sx|sx| |sx mx ex]; cbn; congruence.
Qed.

Lemma rounded_float_nonneg (M E : Z) (B : spec_float) :
  0 <= M -> canonical M E ->
  valid_binary B = true -> is_finite B = true -> M * P E <= Zval B ->
  let r := rounded_float false M E in
  valid_binary r = true /\ SFnonneg r = true /\ Zval r = M * P E.
Proof.
  intros HM Hc V F Hle r.
  destruct (rounded_float_cases false M E HM Hc) as [(Fr & Vr & Zr & _)|(Er & HM' & HE)].
  - fold r in Fr, Vr, Zr. repeat split; try assumption.
    subst r. unfold rounded_float in *. destruct M; try discriminate; [reflexivity|].
    destruct (E <=? 971); [reflexivity|discriminate].
  - exfalso.
    destruct (canonical_bounds M E HM' Hc) as (He & _).
    pose proof (P_pos E ltac:(lia)).
    destruct (finite_positive B V F ltac:(nia)) as (mB & eB & -> & HcB & HeB).
    cbn [Zval cond_Zopp] in Hle.
    apply (canonical_le M E (Zpos mB) eB HM' ltac:(lia) Hc HcB) in Hle. lia.
Qed.

(** Division of a finite float that is not negative by a float that is at
    least one: the quotient is finite, not negative and not more than the
    dividend. *)
Lemma SFdiv_nonneg_le (X : spec_float) (mc : positive) (ec : Z) :
  valid_binary X = true -> SFnonneg X = true ->
  valid_binary (S754_finite false mc ec) = true ->
  ec <= 0 -> 2 ^ (- ec) <= Zpos mc ->
  let Q := SF64div X (S754_finite false mc ec) in
  valid_binary Q = true /\ SFnonneg Q = true /\ Zval Q <= Zval X.
Proof.
  intros VX NX VC Hec Hc1 Q. subst Q.
  destruct X as [sx|sx| |[] mx ex]; try discriminate.
  - cbn. destruct sx; auto with zarith.
  - pose proof (valid_exponent _ _ _ VX) as Hex.
    destruct (valid_canonical _ _ _ VX) as [Hcx Hex'].
    pose proof (valid_exponent _ _ _ VC) as Hec'.
    destruct (valid_canonical _ _ _ VC) as [Hcc Hec''].
    destruct (SFdiv_bounds mx mc ex ec ltac:(lia) ltac:(lia) false false)
      as (M & E & HM & HcM & -> & Hb).
    cbn [xorb].
    assert (Hle : M * P E <= Zpos mx * P ex).
    { apply Hb; [lia|assumption|].
      pose proof (P_pos ex ltac:(lia)) as HP.
      replace (P (ex - ec)) with (P ex * 2 ^ (- ec))
        by (rewrite <- P_add by lia; f_equal; lia).
      assert (P ex * 2 ^ (- ec) <= Zpos mc * P ex) by nia. nia. }
    destruct (rounded_float_nonneg M E (S754_finite false mx ex) HM HcM VX eq_refl Hle)
      as (V & N & Z).
    cbn [Zval cond_Zopp]. rewrite Z. auto.
Qed.

(** Subtraction of a smaller float from a finite float, both not negative:
    the difference is finite, not negative and not more than the minuend. *)
Lemma SFsub_nonneg_le (X Y : spec_float) :
  valid_binary X = true -> valid_binary Y = true ->
  valid_binary (SF64sub X Y) = true ->
  SFnonneg X = true -> SFnonneg Y = true -> Zval Y <= Zval X ->
  SFnonneg (SF64sub X Y) = true /\ SFleb (SF64sub X Y) X = true.
Proof.
  intros VX VY VR NX NY Hle.
  pose proof (SFnonneg_finite X NX) as FX. pose proof (SFnonneg_finite Y NY) as FY.
  pose proof (SFnonneg_Zval Y VY NY) as HY.
  destruct (SFsub_monotone X Y X VX VY VX FX FY FX) as [Hup _].
  destruct (SFsub_monotone X Y (S754_zero false) VX VY eq_refl FX FY eq_refl) as [_ Hlo].
  specialize (Hup ltac:(lia)). specialize (Hlo ltac:(cbn [Zval]; lia)).
  split; [|assumption]. eapply SFnonneg_between; eassumption.
Qed.

Lemma Prim2SF_valid_finite (x : float) (s : bool) (m : positive) (e : Z) :
  Prim2SF x = S754_finite s m e -> valid_binary (S754_finite s m e) = true.
Proof. intros <-. apply Prim2SF_valid. Qed.

(** The reductions of the loop: a finite delay that is not negative is
    reduced to a finite delay that is not negative and not more. *)
Lemma reduce_le (d c : float) (mc : positive) (ec : Z) :
  Prim2SF c = S754_finite false mc ec -> ec <= 0 -> 2 ^ (- ec) <= Zpos mc ->
  nonneg_finite d ->
  nonneg_finite (d - d / c)%float /\ (d - d / c <=? d)%float = true.
Proof.
  intros Hc Hec Hc1 Hd. rewrite nonneg_finite_SF in *.
  rewrite leb_spec, sub_spec, div_spec, Hc.
  pose proof (Prim2SF_valid d) as VX.
  pose proof (Prim2SF_valid_finite c _ _ _ Hc) as VC.
  destruct (SFdiv_nonneg_le (Prim2SF d) mc ec VX Hd VC Hec Hc1) as (VQ & NQ & HQ).
  apply SFsub_nonneg_le; try assumption.
  rewrite <- Hc, <- div_spec, <- sub_spec. apply Prim2SF_valid.
Qed.

Lemma reduce_match_le (d : float) :
  nonneg_finite d ->
  nonneg_finite (reduce_match d) /\ (reduce_match d <=? d)%float = true.
Proof.
  apply (reduce_le d 50 7036874417766400 (-47)); [reflexivity|lia|vm_compute; discriminate].
Qed.

Lemma reduce_mismatch_le (d : float) :
  nonneg_finite d ->
  nonneg_finite (reduce_mismatch d) /\ (reduce_mismatch d <=? d)%float = true.
Proof.
  apply (reduce_le d 10 5629499534213120 (-49)); [reflexivity|lia|vm_compute; discriminate].
Qed.

Lemma rounded_float_nonneg_ext (M E : Z) :
  0 <= M -> SFnonneg_ext (rounded_float false M E) = true.
Proof.
  intros HM. unfold rounded_float. destruct M; try lia; [reflexivity|].
  now destruct (E <=? 971).
Qed.

Lemma SFmul_nonneg_ext (X : spec_float) (mc : positive) (ec : Z) :
  valid_binary X = true -> SFnonneg X = true ->
  valid_binary (S754_finite false mc ec) = true ->
  SFnonneg_ext (SF64mul X (S754_finite false mc ec)) = true.
Proof.
  intros VX NX VC. destruct X as [sx|sx| |[] mx ex]; try discriminate.
  - reflexivity.
  - destruct (valid_canonical _ _ _ VX) as [Hcx _].
    destruct (valid_canonical _ _ _ VC) as [Hcc _].
    destruct (SFmul_bounds mx mc ex ec Hcx Hcc false false) as (M & E & HM & _ & -> & _).
    now apply rounded_float_nonneg_ext.
Qed.

Lemma SFdiv_nonneg_ext (X : spec_float) (mc : positive) (ec : Z) :
  valid_binary X = true -> SFnonneg_ext X = true ->
  valid_binary (S754_finite false mc ec) = true ->
  SFnonneg_ext (SF64div X (S754_finite false mc ec)) = true.
Proof.
  intros VX NX VC. destruct X as [sx|[]| |[] mx ex]; try discriminate.
  - reflexivity.
  - reflexivity.
  - pose proof (valid_exponent _ _ _ VX). pose proof (valid_exponent _ _ _ VC).
    destruct (valid_canonical _ _ _ VX) as [_ Hex].
    destruct (valid_canonical _ _ _ VC) as [_ Hec].
    destruct (SFdiv_bounds mx mc ex ec ltac:(lia) ltac:(lia) false false)
      as (M & E & HM & _ & -> & _).
    now apply rounded_float_nonneg_ext.
Qed.

(** The margin: a finite delay that is not negative is left finite, not
    negative and not more. *)
Lemma remove_margin_le (d : float) :
  nonneg_finite d ->
  nonneg_finite (remove_margin d) /\ (remove_margin d <=? d)%float = true.
Proof.
  intros Hd. pose proof Hd as [Hd0 _]. apply nonneg_finite_SF in Hd.
  assert (H0 : nonneg_finite 0) by (split; reflexivity).
  unfold remove_margin.
  destruct (d - d * 15 / 100 <=? 0)%float eqn:Htest; [auto|].
  rewrite nonneg_finite_SF.
  rewrite leb_spec in Htest |- *.
  change (Prim2SF 0) with (S754_zero false) in Htest.
  pose proof (Prim2SF_valid (d - d * 15 / 100)%float) as VR.
  pose proof (Prim2SF_valid (d * 15 / 100)%float) as VY.
  pose proof (Prim2SF_valid (d * 15)%float) as VP.
  pose proof (Prim2SF_valid d) as VX.
  rewrite sub_spec in Htest, VR |- *.
  rewrite div_spec in Htest, VR, VY |- *.
  rewrite mul_spec in Htest, VR, VY, VP |- *.
  change (Prim2SF 15) with (S754_finite false 8444249301319680 (-49)) in *.
  change (Prim2SF 100) with (S754_finite false 7036874417766400 (-46)) in *.
  set (X := Prim2SF d) in *.
  pose proof (SFmul_nonneg_ext X 8444249301319680 (-49) VX Hd eq_refl) as NP.
  set (Pp := SF64mul X _) in *.
  pose proof (SFdiv_nonneg_ext Pp 7036874417766400 (-46) VP NP eq_refl) as NY.
  set (Y := SF64div Pp _) in *.
  pose proof (SFnonneg_finite X Hd) as FX.
  destruct Y as [sy|[]| |[] my ey] eqn:EY; try discriminate.
  - (* the fraction is zero *)
    destruct (SFsub_monotone X (S754_zero sy) X VX VY VX FX eq_refl FX) as [Hup _].
    specialize (Hup ltac:(cbn [Zval]; lia)). split; [|assumption].
    destruct (SF64sub X (S754_zero sy)) as [s|[]| |[] m e], X as [sx|sx| |sx mx ex];
      cbn in *; congruence.
  - (* the fraction is infinite *)
    destruct X as [sx|sx| |sx mx ex]; cbn in *; discriminate.
  - pose proof (SFnonneg_Zval (S754_finite false my ey) VY eq_refl) as HY.
    destruct (SFsub_monotone X (S754_finite false my ey) X VX VY VX FX eq_refl FX)
      as [Hup _].
    specialize (Hup ltac:(lia)). split; [|assumption].
    destruct (SF64sub X (S754_finite false my ey)) as [s|[]| |[] m e],
      X as [sx|sx| |sx mx ex]; cbn in *; congruence.
Qed.

(** Every valid finite float is a multiple of the least positive one. *)
Lemma Zval_multiple (x : spec_float) :
  valid_binary x = true -> (P (-1074) | Zval x).
Proof.
  intros V. destruct x as [s|s| |s m e]; cbn [Zval]; try apply Z.divide_0_r.
  pose proof (valid_exponent _ _ _ V) as He.
  replace (P e) with (P (-1074) * 2 ^ (e + 1074))
    by (rewrite <- P_add by lia; f_equal; lia).
  destruct s; cbn [cond_Zopp]; [apply Z.divide_opp_r|];
    rewrite Z.mul_assoc, (Z.mul_comm (Zpos m)), <- Z.mul_assoc; apply Z.divide_factor_l.
Qed.

(** A tenth of a positive finite float is less than the float. *)
Lemma SFdiv_10_lt (mx : positive) (ex : Z) :
  valid_binary (S754_finite false mx ex) = true ->
  let Q := SF64div (S754_finite false mx ex) (S754_finite false 5629499534213120 (-49)) in
  valid_binary Q = true /\ SFnonneg Q = true /\ Zval Q < Zpos mx * P ex.
Proof.
  intros VX Q. subst Q.
  pose proof (valid_exponent _ _ _ VX) as Hex.
  destruct (valid_canonical _ _ _ VX) as [Hcx Hex'].
  destruct (canonical_bounds (Zpos mx) ex ltac:(lia) Hcx) as (_ & Hhi & Hlo).
  pose proof (P_pos ex ltac:(lia)) as HP.
  destruct (SFdiv_bounds mx 5629499534213120 ex (-49) ltac:(lia) ltac:(lia) false false)
    as (M & E & HM & HcM & HQ & Hb).
  cbn [xorb] in HQ.
  assert (Hbound : forall mB eB : Z,
             0 < mB -> canonical mB eB -> eB <= 971 ->
             Zpos mx * P (ex + 49) <= 5629499534213120 * (mB * P eB) ->
             mB * P eB < Zpos mx * P ex ->
             valid_binary (SF64div (S754_finite false mx ex)
                             (S754_finite false 5629499534213120 (-49))) = true /\
             SFnonneg (SF64div (S754_finite false mx ex)
                         (S754_finite false 5629499534213120 (-49))) = true /\
             Zval (SF64div (S754_finite false mx ex)
                     (S754_finite false 5629499534213120 (-49))) < Zpos mx * P ex).
  { intros mB eB HmB HcB HeB Hcond Hlt.
    destruct (Hb mB eB HmB HcB) as [Hup _].
    replace (ex - -49) with (ex + 49) in Hup by lia. specialize (Hup Hcond).
    destruct mB as [|pB|pB]; try lia.
    assert (VB : valid_binary (S754_finite false pB eB) = true).
    { cbn. unfold bounded, canonical_mantissa. rewrite fexp_fx.
      change (Zpos (digits2_pos pB)) with (Zdigits2 (Zpos pB)).
      unfold canonical in HcB. rewrite HcB, Z.eqb_refl. cbn. now apply Z.leb_le. }
    destruct (rounded_float_nonneg M E (S754_finite false pB eB) HM HcM VB eq_refl Hup)
      as (V & N & Z).
    rewrite HQ. rewrite Z. repeat split; try assumption. lia. }
  assert (HP49 : P (ex + 49) = P ex * 2 ^ 49) by (rewrite P_add by lia; reflexivity).
  destruct (Z.eq_dec ex (-1074)) as [E0|Hne].
  - subst ex. destruct (Pos.eq_dec mx 1%positive) as [Em|Hm1].
    + clear -Em. subst mx. vm_compute. repeat split; reflexivity.
    + (* a subnormal float of at least two units: half of it bounds the tenth *)
      assert (H2 : 2 <= Zpos mx) by lia.
      pose proof (Z.div_mod (Zpos mx) 2 ltac:(lia)) as Hdm.
      pose proof (Z.mod_pos_bound (Zpos mx) 2 ltac:(lia)) as Hrem.
      assert (Hh : 0 < Zpos mx / 2) by (apply Z.div_str_pos; lia).
      apply (Hbound (Zpos mx / 2) (-1074) Hh); [|lia| |].
      * unfold canonical.
        assert (Zdigits2 (Zpos mx / 2) <= 53).
        { apply Zdigits2_le_pow2; [lia|]. split; [lia|].
          change (2 ^ 53) with (2 * K52). lia. }
        pose proof (Zdigits2_nonneg (Zpos mx / 2)). unfold fx. lia.
      * rewrite HP49. change (5629499534213120) with (10 * 2 ^ 49).
        assert (Zpos mx <= 10 * (Zpos mx / 2)) by lia.
        assert (Zpos mx * P (-1074) <= 10 * (Zpos mx / 2) * P (-1074))
          by (apply Z.mul_le_mono_nonneg_r; lia).
        assert (0 < 2 ^ 49) by reflexivity.
        replace (Zpos mx * (P (-1074) * 2 ^ 49)) with (Zpos mx * P (-1074) * 2 ^ 49) by ring.
        replace (10 * 2 ^ 49 * (Zpos mx / 2 * P (-1074)))
          with (10 * (Zpos mx / 2) * P (-1074) * 2 ^ 49) by ring.
        apply Z.mul_le_mono_nonneg_r; lia.
      * apply Z.mul_lt_mono_pos_r; lia.
  - (* a float above the least exponent: half of it is a float *)
    specialize (Hlo ltac:(lia)).
    assert (HPm : P ex = P (ex - 1) * 2).
    { replace ex with (ex - 1 + 1) at 1 by lia. rewrite P_add by lia. reflexivity. }
    pose proof (P_pos (ex - 1) ltac:(lia)) as HP1.
    apply (Hbound (Zpos mx) (ex - 1)); [lia| |lia| |].
    + unfold canonical in *. unfold fx in *. lia.
    + rewrite HP49, HPm. change (5629499534213120) with (5 * 2 ^ 50).
      assert (0 < 2 ^ 50) by reflexivity.
      replace (Zpos mx * (P (ex - 1) * 2 * 2 ^ 49)) with (1 * (Zpos mx * P (ex - 1) * 2 ^ 50))
        by (change (2 ^ 50) with (2 * 2 ^ 49); ring).
      replace (5 * 2 ^ 50 * (Zpos mx * P (ex - 1)))
        with (5 * (Zpos mx * P (ex - 1) * 2 ^ 50)) by ring.
      apply Z.mul_le_mono_nonneg_r; [|lia].
      apply Z.mul_nonneg_nonneg; [|lia]. apply Z.mul_nonneg_nonneg; lia.
    + rewrite HPm.
      assert (0 < Zpos mx * P (ex - 1)) by (apply Z.mul_pos_pos; lia). lia.
Qed.

(** A positive finite delay less a tenth of it is positive. *)
Lemma reduce_mismatch_pos (d : float) :
  nonneg_finite d -> (0 <? d)%float = true ->
  (0 <? reduce_mismatch d)%float = true /\ (reduce_mismatch d <=? 0)%float = false.
Proof.
  intros Hd Hpos. apply nonneg_finite_SF in Hd.
  unfold reduce_mismatch. rewrite ltb_spec in Hpos |- *. rewrite leb_spec.
  change (Prim2SF 0) with (S754_zero false) in *.
  pose proof (Prim2SF_valid (d - d / 10)%float) as VR.
  pose proof (Prim2SF_valid d) as VX.
  rewrite sub_spec in VR |- *. rewrite div_spec in VR |- *.
  change (Prim2SF 10) with (S754_finite false 5629499534213120 (-49)) in *.
  destruct (Prim2SF d) as [sx|sx| |[] mx ex]; try discriminate.
  destruct (SFdiv_10_lt mx ex VX) as (VQ & NQ & HQ).
  set (Q := SF64div _ _) in *.
  pose proof (SFnonneg_finite Q NQ) as FQ.
  destruct (SFsub_monotone (S754_finite false mx ex) Q (S754_finite false 1 (-1074))
              VX VQ eq_refl eq_refl FQ eq_refl) as [_ Hlo].
  assert (Hmin : Zval (S754_finite false 1 (-1074))
                 <= Zval (S754_finite false mx ex) - Zval Q).
  { cbn [Zval cond_Zopp]. rewrite Z.mul_1_l.
    apply Z.divide_pos_le; [lia|].
    apply Z.divide_sub_r; [apply (Zval_multiple _ VX)|apply (Zval_multiple _ VQ)]. }
  specialize (Hlo Hmin).
  destruct (SF64sub (S754_finite false mx ex) Q) as [s|[]| |[] m e];
    cbn in Hlo |- *; try discriminate; auto.
Qed.

(** The delay of a defined conversion to ticks is finite. *)
Lemma delay_ticks_finite (d : float) (freq t : Z) :
  delay_ticks d freq = Some t -> is_finite (Prim2SF d) = true.
Proof.
  unfold delay_ticks, to_uint32, truncate. rewrite mul_spec.
  destruct (Prim2SF d) as [s|s| |s m e]; try reflexivity; intros H; exfalso;
    destruct (Prim2SF (of_uint64 freq)) as [s'|s'| |s' m' e']; cbn in H; discriminate.
Qed.

Lemma nonneg_finite_intro (d : float) :
  (0 <=? d)%float = true -> is_finite (Prim2SF d) = true -> nonneg_finite d.
Proof.
  intros H0 F. apply nonneg_finite_SF. rewrite leb_spec in H0.
  change (Prim2SF 0) with (S754_zero false) in H0.
  destruct (Prim2SF d) as [s|s| |[] m e]; cbn in *; congruence.
Qed.

(** ** Exact values *)

Lemma cond_Zopp_mul (s : bool) (x y : Z) : cond_Zopp s x * y = cond_Zopp s (x * y).
Proof. destruct s; cbn; lia. Qed.

(** The value of a finite float is [Zval] over [2 ^ 2200]. *)
Lemma SF2Q_Zval (X : spec_float) (q : Q) :
  valid_binary X = true -> SF2Q X = Some q ->
  is_finite X = true /\ (q * inject_Z (P 0) == inject_Z (Zval X))%Q.
Proof.
  intros V H. destruct X as [s|s| |s m e]; try discriminate.
  - inversion H; subst. split; [reflexivity|]. cbn [Zval]. ring.
  - split; [reflexivity|]. pose proof (valid_exponent _ _ _ V) as He.
    cbn [Zval]. destruct e as [|p|p]; cbn [SF2Q] in H; inversion H; subst; clear H.
    + rewrite <- inject_Z_mult. apply inject_Z_injective.
      rewrite Z.pow_0_r, Z.mul_1_r. apply cond_Zopp_mul.
    + rewrite <- inject_Z_mult. apply inject_Z_injective.
      rewrite !cond_Zopp_mul. f_equal.
      replace (P (Zpos p)) with (P 0 * 2 ^ Zpos p)
        by (rewrite <- P_add by lia; reflexivity).
      ring.
    + unfold Qeq, Qmult, inject_Z. cbn [Qnum Qden].
      rewrite Pos.mul_1_r, Z.mul_1_r, Pos2Z.inj_pow.
      rewrite !cond_Zopp_mul. f_equal.
      replace (P 0) with (P (Zneg p) * 2 ^ Zpos p).
      * ring.
      * rewrite <- P_add by lia. f_equal. lia.
Qed.

Lemma tolerance_Zval (A B : float) (a b : Q) :
  value A = Some a -> value B = Some b -> (Qabs (a - b) <= 1 # 10)%Q ->
  is_finite (Prim2SF A) = true /\ is_finite (Prim2SF B) = true /\
  10 * Z.abs (Zval (Prim2SF A) - Zval (Prim2SF B)) <= P 0.
Proof.
  intros Ha Hb H.
  destruct (SF2Q_Zval _ _ (Prim2SF_valid A) Ha) as [FA EA].
  destruct (SF2Q_Zval _ _ (Prim2SF_valid B) Hb) as [FB EB].
  split; [assumption|]. split; [assumption|].
  set (ZA := Zval (Prim2SF A)) in *. set (ZB := Zval (Prim2SF B)) in *.
  pose proof (P_pos 0 ltac:(lia)) as HP. set (p0 := P 0) in *.
  assert (Hp0 : (0 < inject_Z p0)%Q)
    by (change 0%Q with (inject_Z 0); rewrite <- Zlt_Qlt; exact HP).
  assert (E : (Qabs (a - b) * inject_Z p0 == inject_Z (Z.abs (ZA - ZB)))%Q).
  { rewrite <- (Qabs_pos (inject_Z p0)) at 1 by (apply Qlt_le_weak; exact Hp0).
    rewrite <- Qabs_Qmult.
    assert (E' : ((a - b) * inject_Z p0 == inject_Z (ZA - ZB))%Q).
    { unfold Z.sub. rewrite inject_Z_plus, inject_Z_opp, <- EA, <- EB. ring. }
    rewrite E'. reflexivity. }
  assert (H' : (Qabs (a - b) * inject_Z p0 <= (1 # 10) * inject_Z p0)%Q)
    by (apply Qmult_le_compat_r; [exact H|apply Qlt_le_weak; exact Hp0]).
  rewrite E in H'. unfold Qle, Qmult, inject_Z in H'. cbn [Qnum Qden] in H'.
  lia.
Qed.


Lemma rounded_float_valid (s : bool) (M E : Z) :
  0 <= M -> canonical M E -> valid_binary (rounded_float s M E) = true.
Proof.
  intros HM Hc.
  destruct (rounded_float_cases s M E HM Hc) as [(_ & V & _)|(-> & _)]; auto.
Qed.

(** The double of a [MIL_UINT64] is not negative. *)
Lemma of_uint64_nonneg (n : Z) : 0 <= n -> SFnonneg_ext (Prim2SF (of_uint64 n)) = true.
Proof.
  intros Hn. unfold of_uint64. destruct n as [|p|p]; [reflexivity| |lia].
  cbn [binary_normalize].
  destruct (binary_round_bounds false p 0 ltac:(lia)) as (M & E & HM & Hc & -> & _).
  rewrite Prim2SF_SF2Prim by now apply rounded_float_valid.
  now apply rounded_float_nonneg_ext.
Qed.

(** A product of floats that are not negative is not negative, or not a
    number. *)
Lemma SFmul_nonneg (X Y : spec_float) :
  valid_binary X = true -> valid_binary Y = true ->
  SFnonneg_ext X = true -> SFnonneg_ext Y = true ->
  SFnonneg_ext (SF64mul X Y) = true \/ SF64mul X Y = S754_nan.
Proof.
  intros VX VY NX NY.
  destruct X as [sx|[]| |[] mx ex], Y as [sy|[]| |[] my ey]; try discriminate;
    try (left; reflexivity); try (right; reflexivity).
  left.
  destruct (valid_canonical _ _ _ VX) as [Hcx _].
  destruct (valid_canonical _ _ _ VY) as [Hcy _].
  destruct (SFmul_bounds mx my ex ey Hcx Hcy false false) as (M & E & HM & _ & -> & _).
  now apply rounded_float_nonneg_ext.
Qed.

Lemma leb_0_nonneg_ext (d : float) :
  (0 <=? d)%float = true -> SFnonneg_ext (Prim2SF d) = true.
Proof.
  rewrite leb_spec. change (Prim2SF 0) with (S754_zero false).
  destruct (Prim2SF d) as [s|[]| |[] m e]; cbn; congruence.
Qed.

(** ** Rounding is monotone *)

Lemma round_nearest_even_nearest (a b : Z) (mrs : shr_record) :
  0 < b -> represents a b mrs ->
  round_nearest_even (shr_m mrs) (loc_of_shr_record mrs) = nearest a b.
Proof.
  intros Hb (Hm & Hr & Hs). destruct mrs as [m r s]. cbn [shr_m shr_r shr_s] in *.
  pose proof (Z.mod_pos_bound a b Hb) as Hrem.
  unfold nearest. subst m. rewrite <- Z.negb_even.
  destruct (Z.ltb_spec b (2 * (a mod b))), (Z.eqb_spec (2 * (a mod b)) b),
    (Z.leb_spec b (2 * (a mod b))), (Z.eqb_spec (a mod b) 0); try lia;
    subst r s; cbn; try lia; destruct (Z.even (a / b)); cbn; lia.
Qed.

Lemma nearest_cases (a b : Z) :
  0 < b -> nearest a b = a / b \/ (nearest a b = a / b + 1 /\ a mod b <> 0).
Proof.
  intros Hb. unfold nearest.
  destruct (Z.ltb_spec b (2 * (a mod b))), (Z.eqb_spec (2 * (a mod b)) b),
    (Z.odd (a / b)); cbn; lia.
Qed.

(** The nearest integer is monotone in the quotient. *)
Lemma nearest_monotone (a b a' b' : Z) :
  0 <= a -> 0 < b -> 0 < b' -> a * b' <= a' * b -> nearest a b <= nearest a' b'.
Proof.
  intros Ha Hb Hb' Hle.
  pose proof (Z.div_mod a b ltac:(lia)) as E.
  pose proof (Z.mod_pos_bound a b Hb) as Hr.
  pose proof (Z.div_mod a' b' ltac:(lia)) as E'.
  pose proof (Z.mod_pos_bound a' b' Hb') as Hr'.
  set (q := a / b) in *. set (r := a mod b) in *.
  set (q' := a' / b') in *. set (r' := a' mod b') in *.
  assert (Hq : q <= q').
  { destruct (Z.le_gt_cases q q'); [assumption|exfalso].
    assert (b * b' * (q' + 1) <= b * b' * q) by (apply Z.mul_le_mono_nonneg_l; nia).
    nia. }
  unfold nearest. fold q r q' r'.
  destruct (Z.eq_dec q q') as [Eq|Hne].
  - rewrite <- Eq in *.
    assert (Hrr : r * b' <= r' * b) by nia.
    destruct (Z.ltb_spec b (2 * r)) as [H1|H1]; cbn [orb].
    + assert (b' < 2 * r') by nia.
      destruct (Z.ltb_spec b' (2 * r')); [cbn; lia|lia].
    + destruct (Z.eqb_spec (2 * r) b) as [H2|H2]; cbn [andb].
      * assert (b' <= 2 * r') by nia.
        destruct (Z.ltb_spec b' (2 * r')); cbn [orb]; [destruct (Z.odd q); cbn; lia|].
        destruct (Z.eqb_spec (2 * r') b'); [cbn; lia|lia].
      * cbn [Z.b2z].
        destruct ((b' <? 2 * r') || (2 * r' =? b') && Z.odd q); cbn; lia.
  - destruct ((b <? 2 * r) || (2 * r =? b) && Z.odd q),
      ((b' <? 2 * r') || (2 * r' =? b') && Z.odd q'); cbn; lia.
Qed.

(** [binary_round_aux] on the floor and the location of [a / b]: the
    mantissa at the exponent of the first shift is the integer nearest to
    the quotient. *)
Theorem binary_round_aux_nearest (s : bool) (a b e : Z) :
  0 <= a -> 0 < b -> e <= fx (Zdigits2 (a / b) + e) ->
  let e1 := fx (Zdigits2 (a / b) + e) in
  let b1 := b * 2 ^ (e1 - e) in
  exists M E : Z,
    0 < b1 /\ canonical (a / b1) e1 /\
    0 <= M /\ e1 <= E /\ M * 2 ^ (E - e1) = nearest a b1 /\ canonical M E /\
    binary_round_aux prec emax s (a / b) e (loc_of a b) = rounded_float s M E.
Proof.
  intros Ha Hb Hpre e1 b1.
  destruct (shr_fexp_first a b e Ha Hb Hpre) as (Hrep & He1 & Hb1 & Hcan).
  fold e1 in Hrep, He1, Hb1, Hcan. fold b1 in Hrep, Hb1, Hcan.
  pose proof (round_nearest_even_nearest a b1 _ Hb1 Hrep) as Hn.
  pose proof (nearest_cases a b1 Hb1) as Hm2.
  assert (H0 : 0 <= a / b1) by (apply Z.div_pos; lia).
  destruct (shr_fexp_second (a / b1) (nearest a b1) e1 H0 Hcan ltac:(lia))
    as (M & E & HM & HE & HM0 & HE1 & Hval & HcanM).
  exists M, E. repeat split; try assumption.
  unfold binary_round_aux, rounded_float.
  destruct (shr_fexp prec emax (a / b) e (loc_of a b)) as [mrs' e'] eqn:E1.
  cbn [fst snd] in He1, Hn. subst e'. rewrite Hn.
  destruct (shr_fexp prec emax _ e1 loc_Exact) as [mrs'' e''] eqn:E2.
  cbn [fst snd] in HM, HE. rewrite HM, HE. reflexivity.
Qed.

(** The value of a canonical mantissa lies in the binade of its digits. *)
Lemma floor_binade (a b e : Z) :
  0 < b -> -2200 <= e -> 0 < a / b ->
  let d := Zdigits2 (a / b) + e in
  b * P (d - 1) <= a * P e /\ a * P e < b * P d.
Proof.
  intros Hb He Hq d.
  pose proof (Zdigits2_bounds (a / b) Hq) as [Hlo Hhi].
  pose proof (Z.div_mod a b ltac:(lia)) as E.
  pose proof (Z.mod_pos_bound a b Hb) as Hr.
  pose proof (P_pos e He) as HPe.
  assert (Hdig : 1 <= Zdigits2 (a / b)).
  { rewrite Zdigits2_log2 by lia. pose proof (Z.log2_nonneg (a / b)). lia. }
  assert (H1 : P (d - 1) = P e * 2 ^ (Zdigits2 (a / b) - 1)).
  { rewrite <- P_add by lia. f_equal. unfold d. lia. }
  assert (H2 : P d = P e * 2 ^ Zdigits2 (a / b)).
  { rewrite <- P_add by lia. f_equal. unfold d. lia. }
  rewrite H1, H2. split.
  - assert (b * 2 ^ (Zdigits2 (a / b) - 1) <= a) by nia.
    replace (b * (P e * 2 ^ (Zdigits2 (a / b) - 1)))
      with (b * 2 ^ (Zdigits2 (a / b) - 1) * P e) by ring.
    apply Z.mul_le_mono_nonneg_r; lia.
  - assert (a < b * 2 ^ Zdigits2 (a / b)) by nia.
    replace (b * (P e * 2 ^ Zdigits2 (a / b)))
      with (b * 2 ^ Zdigits2 (a / b) * P e) by ring.
    apply Z.mul_lt_mono_pos_r; lia.
Qed.

Lemma below_binade (a b e : Z) :
  0 <= a -> 0 < b -> -2200 <= e -> a * P e < b * P (Zdigits2 (a / b) + e).
Proof.
  intros Ha Hb He.
  assert (Hq0 : 0 <= a / b) by (apply Z.div_pos; lia).
  destruct (Z.eq_dec (a / b) 0) as [E0|Hne].
  - rewrite E0, Zdigits2_0, Z.add_0_l.
    pose proof (P_pos e He).
    assert (a < b) by (apply Z.div_small_iff in E0; lia).
    apply Z.mul_lt_mono_pos_r; lia.
  - apply floor_binade; lia.
Qed.

(** A quotient whose floor is zero is rounded at the least exponent. *)
Lemma floor_zero_exponent (a b e : Z) :
  a / b = 0 -> e <= fx (Zdigits2 (a / b) + e) -> fx (Zdigits2 (a / b) + e) = -1074.
Proof. intros ->. rewrite Zdigits2_0. unfold fx. lia. Qed.

Lemma fx_lower (d : Z) : -1074 <= fx d.
Proof. unfold fx. lia. Qed.

Lemma fx_lt (d d' : Z) : fx d < fx d' -> d < d' /\ fx d' = d' - 53.
Proof. unfold fx. lia. Qed.

Lemma canonical_K52 (e : Z) : -1074 <= e -> canonical K52 e.
Proof. intros He. unfold canonical. change (Zdigits2 K52) with 53. unfold fx. lia. Qed.

Lemma K52_P (e : Z) : -2200 <= e -> K52 * P e = P (e + 52).
Proof. intros He. rewrite P_add by lia. unfold K52. ring. Qed.

(** Rounding is monotone: of two quotients, the lesser has the lesser
    rounded value. *)
Theorem binary_round_aux_monotone (s s' : bool) (a b e a' b' e' : Z) :
  0 <= a -> 0 < b -> -2200 <= e -> e <= fx (Zdigits2 (a / b) + e) ->
  0 <= a' -> 0 < b' -> -2200 <= e' -> e' <= fx (Zdigits2 (a' / b') + e') ->
  a * P e * b' <= a' * P e' * b ->
  exists M E M' E' : Z,
    0 <= M /\ canonical M E /\
    binary_round_aux prec emax s (a / b) e (loc_of a b) = rounded_float s M E /\
    0 <= M' /\ canonical M' E' /\
    binary_round_aux prec emax s' (a' / b') e' (loc_of a' b') = rounded_float s' M' E' /\
    M * P E <= M' * P E'.
Proof.
  intros Ha Hb He Hpre Ha' Hb' He' Hpre' Hle.
  destruct (binary_round_aux_nearest s a b e Ha Hb Hpre)
    as (M & E & Hb1 & Hcan1 & HM & HE & Hval & Hcan & Hres).
  destruct (binary_round_aux_nearest s' a' b' e' Ha' Hb' Hpre')
    as (M' & E' & Hb1' & Hcan1' & HM' & HE' & Hval' & Hcan' & Hres').
  exists M, E, M', E'. repeat split; try assumption.
  set (d := Zdigits2 (a / b) + e) in *. set (d' := Zdigits2 (a' / b') + e') in *.
  set (e1 := fx d) in *. set (e1' := fx d') in *.
  set (b1 := b * 2 ^ (e1 - e)) in *. set (b1' := b' * 2 ^ (e1' - e')) in *.
  pose proof (P_pos e He) as HPe. pose proof (P_pos e' He') as HPe'.
  pose proof (fx_lower d) as Hd1. pose proof (fx_lower d') as Hd1'.
  fold e1 in Hd1. fold e1' in Hd1'.
  pose proof (below_binade a b e Ha Hb He) as Hup. fold d in Hup.
  pose proof (below_binade a' b' e' Ha' Hb' He') as Hup'. fold d' in Hup'.
  assert (Hq0 : 0 <= a / b) by (apply Z.div_pos; lia).
  assert (Hq0' : 0 <= a' / b') by (apply Z.div_pos; lia).
  destruct (Z.lt_trichotomy e1 e1') as [Hlt|[Heq|Hgt]].
  - (* a power of two lies between the two quotients *)
    destruct (fx_lt d d' Hlt) as [Hdd Hfx]. fold e1' in Hfx.
    assert (Hq' : 0 < a' / b').
    { destruct (Z.eq_dec (a' / b') 0) as [E0|]; [|lia].
      pose proof (floor_zero_exponent a' b' e' E0 Hpre') as H. fold d' e1' in H. lia. }
    destruct (floor_binade a' b' e' Hb' He' Hq') as [Hlo' _]. fold d' in Hlo'.
    assert (HK : K52 * P e1' = P (d' - 1)).
    { rewrite K52_P by lia. f_equal. lia. }
    assert (HPd : P d <= P (d' - 1)) by (apply P_le; unfold d in *; pose proof (Zdigits2_nonneg (a / b)); lia).
    apply Z.le_trans with (K52 * P e1').
    + apply (round_upper_aux a b e (nearest a b1) M E K52 e1'); try assumption.
      * apply nearest_cases. assumption.
      * apply K52_pos.
      * apply canonical_K52. lia.
      * rewrite HK. apply Z.lt_le_incl. eapply Z.lt_le_trans; [exact Hup|].
        apply Z.mul_le_mono_nonneg_l; lia.
    + apply (round_lower_aux a' b' e' (nearest a' b1') M' E' K52 e1'); try assumption.
      * apply nearest_cases. assumption.
      * apply K52_pos.
      * apply canonical_K52. lia.
      * rewrite HK. exact Hlo'.
  - (* the same exponent: the nearest integers are in order *)
    assert (HPE : P E = P e1 * 2 ^ (E - e1)).
    { rewrite <- P_add by lia. f_equal. lia. }
    assert (HPE' : P E' = P e1 * 2 ^ (E' - e1')).
    { rewrite Heq. rewrite <- P_add by lia. f_equal. lia. }
    pose proof (P_pos e1 ltac:(lia)) as HPe1.
    replace (M * P E) with (nearest a b1 * P e1) by (rewrite HPE, <- Hval; ring).
    replace (M' * P E') with (nearest a' b1' * P e1) by (rewrite HPE', <- Hval'; ring).
    apply Z.mul_le_mono_nonneg_r; [lia|].
    apply nearest_monotone; try assumption.
    assert (Hk : P e1 = P e * 2 ^ (e1 - e)).
    { rewrite <- P_add by lia. f_equal. lia. }
    assert (Hk' : P e1 = P e' * 2 ^ (e1' - e')).
    { rewrite Heq. rewrite <- P_add by lia. f_equal. lia. }
    assert (H : a * b1' * P e1 <= a' * b1 * P e1).
    { replace (a * b1' * P e1) with (a * P e * b' * (2 ^ (e1 - e) * 2 ^ (e1' - e')))
        by (rewrite Hk; unfold b1'; ring).
      replace (a' * b1 * P e1) with (a' * P e' * b * (2 ^ (e1 - e) * 2 ^ (e1' - e')))
        by (rewrite Hk'; unfold b1; ring).
      apply Z.mul_le_mono_nonneg_r; [|assumption].
      apply Z.mul_nonneg_nonneg; apply Z.pow_nonneg; lia. }
    apply Z.mul_le_mono_pos_r in H; assumption.
  - (* the greater exponent cannot belong to the lesser quotient *)
    exfalso.
    destruct (fx_lt d' d Hgt) as [Hdd Hfx]. fold e1 in Hfx.
    assert (Hq : 0 < a / b).
    { destruct (Z.eq_dec (a / b) 0) as [E0|]; [|lia].
      pose proof (floor_zero_exponent a b e E0 Hpre) as H. fold d e1 in H. lia. }
    destruct (floor_binade a b e Hb He Hq) as [Hlo _]. fold d in Hlo.
    assert (HPd : P d' <= P (d - 1)) by (apply P_le; unfold d' in *; pose proof (Zdigits2_nonneg (a' / b')); lia).
    assert (H1 : a' * P e' * b < b' * P d' * b) by (apply Z.mul_lt_mono_pos_r; lia).
    assert (H2 : b' * P d' * b <= b' * P (d - 1) * b).
    { apply Z.mul_le_mono_nonneg_r; [lia|]. apply Z.mul_le_mono_nonneg_l; lia. }
    assert (H3 : b' * P (d - 1) * b <= a * P e * b').
    { replace (b' * P (d - 1) * b) with (b * P (d - 1) * b') by ring.
      apply Z.mul_le_mono_nonneg_r; lia. }
    lia.
Qed.

Lemma P_sum (x y : Z) : -2200 <= x -> -2200 <= y -> -2200 <= x + y ->
  P (x + y) * P 0 = P x * P y.
Proof.
  intros Hx Hy Hxy. unfold P. rewrite <- !Z.pow_add_r by lia. f_equal. lia.
Qed.

(** Rounded floats that are not negative are in the order of their values. *)
Lemma rounded_float_monotone (M E M' E' : Z) :
  0 <= M -> canonical M E -> 0 <= M' -> canonical M' E' ->
  M * P E <= M' * P E' ->
  SFleb (rounded_float false M E) (rounded_float false M' E') = true.
Proof.
  intros HM Hc HM' Hc' Hle.
  destruct (rounded_float_cases false M' E' HM' Hc') as [(F & V & Z' & _)|(-> & _ & _)].
  - apply rounded_float_le; try assumption. cbn [cond_Zopp]. rewrite Z'. exact Hle.
  - unfold rounded_float. destruct M as [|p|p]; [reflexivity| |lia].
    destruct (E <=? 971); reflexivity.
Qed.

Lemma zero_le_rounded (s : bool) (M E : Z) :
  0 <= M -> SFleb (S754_zero s) (rounded_float false M E) = true.
Proof.
  intros HM. unfold rounded_float. destruct M as [|p|p]; [reflexivity| |lia].
  destruct (E <=? 971); reflexivity.
Qed.

(** Multiplication by a finite float that is not negative is monotone on
    the finite floats that are not negative. *)
Theorem SFmul_monotone (X Y F : spec_float) :
  valid_binary X = true -> valid_binary Y = true -> valid_binary F = true ->
  SFnonneg X = true -> SFnonneg Y = true -> SFnonneg F = true ->
  Zval X <= Zval Y ->
  SFleb (SF64mul X F) (SF64mul Y F) = true.
Proof.
  intros VX VY VF NX NY NF Hle.
  destruct F as [sf|[]| |[] mf ef]; try discriminate.
  - destruct X as [sx|[]| |[] mx ex], Y as [sy|[]| |[] my ey]; try discriminate;
      reflexivity.
  - destruct (valid_canonical _ _ _ VF) as [Hcf _].
    destruct X as [sx|[]| |[] mx ex]; try discriminate;
      destruct Y as [sy|[]| |[] my ey]; try discriminate.
    + cbn. now destruct sx, sy.
    + destruct (valid_canonical _ _ _ VY) as [Hcy _].
      destruct (SFmul_bounds my mf ey ef Hcy Hcf false false) as (M & E & HM & Hc & -> & _).
      cbn [SF64mul SFmul]. now apply zero_le_rounded.
    + cbn [Zval cond_Zopp] in Hle.
      destruct (valid_canonical _ _ _ VX) as [Hcx _].
      destruct (canonical_bounds (Zpos mx) ex ltac:(lia) Hcx) as (Hex & _).
      pose proof (P_pos ex ltac:(lia)). lia.
    + destruct (valid_canonical _ _ _ VX) as [Hcx _].
      destruct (valid_canonical _ _ _ VY) as [Hcy _].
      destruct (canonical_bounds (Zpos mx) ex ltac:(lia) Hcx) as (Hex & _).
      destruct (canonical_bounds (Zpos my) ey ltac:(lia) Hcy) as (Hey & _).
      destruct (canonical_bounds (Zpos mf) ef ltac:(lia) Hcf) as (Hef & _).
      destruct (SFmul_precondition mx mf ex ef Hcx Hcf) as (He & Hpre).
      destruct (SFmul_precondition my mf ey ef Hcy Hcf) as (He' & Hpre').
      cbn [Zval cond_Zopp] in Hle.
      destruct (binary_round_aux_monotone false false
                  (Zpos mx * Zpos mf) 1 (ex + ef) (Zpos my * Zpos mf) 1 (ey + ef))
        as (M & E & M' & E' & HM & Hc & Hr & HM' & Hc' & Hr' & HMM); try lia.
      * now rewrite Z.div_1_r.
      * now rewrite Z.div_1_r.
      * rewrite !Z.mul_1_r.
        pose proof (P_pos 0 ltac:(lia)) as HP0.
        pose proof (P_pos ef ltac:(lia)) as HPf.
        apply Z.mul_le_mono_pos_r with (p := P 0); [assumption|].
        replace (Zpos mx * Zpos mf * P (ex + ef) * P 0)
          with (Zpos mx * P ex * (Zpos mf * P ef))
          by (rewrite <- !Z.mul_assoc, (P_sum ex ef) by lia; ring).
        replace (Zpos my * Zpos mf * P (ey + ef) * P 0)
          with (Zpos my * P ey * (Zpos mf * P ef))
          by (rewrite <- !Z.mul_assoc, (P_sum ey ef) by lia; ring).
        apply Z.mul_le_mono_nonneg_r; lia.
      * rewrite Z.div_1_r, loc_of_1 in Hr, Hr'.
        cbn [SF64mul SFmul xorb].
        change (Zpos (mx * mf)) with (Zpos mx * Zpos mf).
        change (Zpos (my * mf)) with (Zpos my * Zpos mf).
        rewrite Hr, Hr'. now apply rounded_float_monotone.
Qed.

(** The integer part of a finite float that is not negative. *)
Lemma truncate_Zval (x : float) :
  SFnonneg (Prim2SF x) = true -> truncate x = Some (Zval (Prim2SF x) / P 0).
Proof.
  intros N. unfold truncate. pose proof (Prim2SF_valid x) as V.
  destruct (Prim2SF x) as [s|[]| |[] m e]; try discriminate; [reflexivity|].
  pose proof (valid_exponent _ _ _ V) as He.
  cbn [Zval cond_Zopp]. f_equal.
  destruct (Z.le_gt_cases 0 e) as [H|H].
  - rewrite Z.shiftl_mul_pow2 by lia.
    replace (P e) with (2 ^ e * P 0) by (unfold P; rewrite <- Z.pow_add_r by lia; f_equal; lia).
    rewrite Z.mul_assoc, Z.div_mul by (unfold P; lia). reflexivity.
  - rewrite Z.shiftl_div_pow2 by lia.
    replace (P 0) with (2 ^ (- e) * P e) by (unfold P; rewrite <- Z.pow_add_r by lia; f_equal; lia).
    pose proof (P_pos e ltac:(lia)).
    rewrite Z.div_mul_cancel_r by lia. reflexivity.
Qed.

Lemma to_uint32_Some (x : float) (t : Z) :
  to_uint32 x = Some t -> truncate x = Some t /\ 0 <= t <= UINT32_MAX.
Proof.
  unfold to_uint32. destruct (truncate x) as [z|]; [|discriminate].
  destruct (Z.leb_spec 0 z), (Z.leb_spec z UINT32_MAX); cbn; try discriminate.
  intros [= ->]. auto.
Qed.

Lemma truncate_finite (x : float) (t : Z) :
  truncate x = Some t -> is_finite (Prim2SF x) = true.
Proof. unfold truncate. destruct (Prim2SF x); try discriminate; reflexivity. Qed.

(** The conversion to ticks is monotone: a delay that is not negative and
    not more than a delay with defined ticks has defined ticks, and not
    more. *)
Theorem delay_ticks_monotone (d d' : float) (freq t : Z) :
  0 <= freq -> nonneg_finite d' -> (d' <=? d)%float = true ->
  delay_ticks d freq = Some t ->
  exists t', delay_ticks d' freq = Some t' /\ 0 <= t' <= t.
Proof.
  intros Hf Hd' Hle Ht.
  pose proof (delay_ticks_finite _ _ _ Ht) as FY.
  unfold delay_ticks in *. apply to_uint32_Some in Ht. destruct Ht as [Ht Hr].
  pose proof (truncate_finite _ _ Ht) as FP. rewrite mul_spec in FP.
  apply nonneg_finite_SF in Hd'.
  pose proof (Prim2SF_valid d) as VY. pose proof (Prim2SF_valid d') as VX.
  pose proof (Prim2SF_valid (of_uint64 freq)) as VF.
  pose proof (of_uint64_nonneg freq Hf) as NF.
  pose proof (Prim2SF_valid (d * of_uint64 freq)) as VP.
  pose proof (Prim2SF_valid (d' * of_uint64 freq)) as VP'.
  rewrite leb_spec in Hle.
  rewrite SFleb_Zval in Hle by auto using SFnonneg_finite. apply Z.leb_le in Hle.
  pose proof (SFnonneg_Zval _ VX Hd') as H0.
  assert (NY : SFnonneg (Prim2SF d) = true).
  { destruct (Prim2SF d) as [s|[]| |[] m e]; try discriminate; try reflexivity.
    exfalso. cbn [Zval cond_Zopp] in Hle.
    pose proof (valid_exponent _ _ _ VY). pose proof (P_pos e ltac:(lia)). lia. }
  assert (NF' : SFnonneg (Prim2SF (of_uint64 freq)) = true).
  { destruct (Prim2SF (of_uint64 freq)) as [s|[]| |[] m e]; try discriminate;
      try reflexivity.
    exfalso. destruct (Prim2SF d) as [s|[]| |[] m e]; discriminate. }
  pose proof (SFmul_monotone _ _ _ VX VY VF Hd' NY NF' Hle) as Hm.
  rewrite mul_spec in VP, VP'.
  assert (NP' : SFnonneg (SF64mul (Prim2SF d') (Prim2SF (of_uint64 freq))) = true).
  { apply SFnonneg_between with (X := SF64mul (Prim2SF d) (Prim2SF (of_uint64 freq)));
      try assumption.
    destruct (Prim2SF (of_uint64 freq)) as [s|[]| |[] m e] eqn:EF; try discriminate.
    - destruct (Prim2SF d') as [s'|[]| |[] m' e']; try discriminate; reflexivity.
    - pose proof (SFmul_nonneg_ext _ m e VX Hd' VF) as Hn.
      destruct (SF64mul (Prim2SF d') (S754_finite false m e)) as [s'|[]| |[] m' e'];
        try discriminate; reflexivity. }
  assert (NP : SFnonneg (SF64mul (Prim2SF d) (Prim2SF (of_uint64 freq))) = true).
  { destruct (Prim2SF (of_uint64 freq)) as [s|[]| |[] m e] eqn:EF; try discriminate.
    - destruct (Prim2SF d) as [s'|[]| |[] m' e']; try discriminate; reflexivity.
    - pose proof (SFmul_nonneg_ext _ m e VY NY VF) as Hn.
      destruct (SF64mul (Prim2SF d) (S754_finite false m e)) as [s'|[]| |[] m' e'];
        try discriminate; reflexivity. }
  rewrite SFleb_Zval in Hm by auto using SFnonneg_finite. apply Z.leb_le in Hm.
  rewrite truncate_Zval in Ht by (rewrite mul_spec; exact NP).
  injection Ht as Ht. rewrite mul_spec in Ht.
  pose proof (SFnonneg_Zval _ VP' NP') as H0'.
  pose proof (P_pos 0 ltac:(lia)) as HP0.
  exists (Zval (SF64mul (Prim2SF d') (Prim2SF (of_uint64 freq))) / P 0).
  assert (Hdiv : 0 <= Zval (SF64mul (Prim2SF d') (Prim2SF (of_uint64 freq))) / P 0 <= t).
  { split; [apply Z.div_pos; lia|]. subst t. apply Z.div_le_mono; lia. }
  split; [|exact Hdiv].
  unfold to_uint32. rewrite truncate_Zval by (rewrite mul_spec; exact NP').
  rewrite mul_spec.
  destruct (Z.leb_spec 0 (Zval (SF64mul (Prim2SF d') (Prim2SF (of_uint64 freq))) / P 0)),
    (Z.leb_spec (Zval (SF64mul (Prim2SF d') (Prim2SF (of_uint64 freq))) / P 0) UINT32_MAX);
    cbn; try reflexivity; lia.
Qed.

(** ** One pass of the loop *)

Arguments iteration : simpl never.
Arguments delay_ticks : simpl never.
Arguments reduce_match : simpl never.
Arguments reduce_mismatch : simpl never.
Arguments remove_margin : simpl never.

Lemma IsEqual_spec (A B : float) :
  IsEqual A B = ((B <=? A + 0.1)%float && (A - 0.1 <=? B)%float).
Proof. unfold IsEqual. now destruct (_ && _). Qed.

(** A pass on equal rates, by cases on the ticks and on the counter. *)
Lemma iteration_match (measured : float) (Info : PacketDelayInfo) (dev : Digitizer) :
  IsEqual (BaseFrameRate Info) measured = true ->
  iteration measured (Info, dev) =
    c ← increment (EqualityCounter Info);
    let dev1 := MdigControl (DelayTickVal Info) dev in
    let Info1 := set_EqualityCounter c (set_ProcessFrameRate measured Info) in
    if DelayTickVal Info =? 0 then
      Some (MatchAtZero, true, (set_Error true (set_DelayInSeconds 0 Info1), dev1))
    else if c =? 3 then
      t ← delay_ticks (remove_margin (DelayInSeconds Info)) (TickFreq Info);
      Some (Converged, true,
            (set_DelayTickVal t
               (set_DelayInSeconds (remove_margin (DelayInSeconds Info)) Info1),
             MdigControl t dev1))
    else
      t ← delay_ticks (reduce_match (DelayInSeconds Info)) (TickFreq Info);
      Some (MatchReduce, false,
            (set_DelayTickVal t
               (set_DelayInSeconds (reduce_match (DelayInSeconds Info)) Info1),
             dev1)).
Proof.
  destruct Info as [base rate d freq ticks count counter err].
  cbn [BaseFrameRate]. intros Heq. unfold iteration.
  cbn [set_ProcessFrameRate BaseFrameRate ProcessFrameRate DelayInSeconds
       TickFreq DelayTickVal ProcessFrameCount EqualityCounter Error].
  rewrite Heq. destruct (increment counter) as [c|]; [|reflexivity].
  cbn. destruct (ticks =? 0); [reflexivity|].
  destruct (c =? 3); [|reflexivity].
  unfold remove_margin. now destruct (d - d * 15 / 100 <=? 0)%float.
Qed.

(** A pass on different rates, by cases on the reduced delay. *)
Lemma iteration_mismatch (measured : float) (Info : PacketDelayInfo) (dev : Digitizer) :
  IsEqual (BaseFrameRate Info) measured = false ->
  iteration measured (Info, dev) =
    let d := reduce_mismatch (DelayInSeconds Info) in
    t ← delay_ticks d (TickFreq Info);
    let dev1 := MdigControl (DelayTickVal Info) dev in
    let Info1 :=
      set_DelayTickVal t
        (set_DelayInSeconds d
           (set_EqualityCounter 0 (set_ProcessFrameRate measured Info))) in
    if t =? 0 then
      Some (MismatchAtZero, true, (set_Error true (set_DelayInSeconds 0 Info1), dev1))
    else if (d <=? 0)%float then
      Some (MismatchNonPositive, true, (set_DelayInSeconds 0 Info1, dev1))
    else
      Some (MismatchReduce, false, (Info1, dev1)).
Proof.
  destruct Info as [base rate d freq ticks count counter err].
  cbn [BaseFrameRate]. intros Hne. unfold iteration.
  cbn [set_ProcessFrameRate BaseFrameRate ProcessFrameRate DelayInSeconds
       TickFreq DelayTickVal ProcessFrameCount EqualityCounter Error].
  rewrite Hne. cbn.
  destruct (delay_ticks (reduce_mismatch d) freq) as [t|] eqn:Ht;
    unfold reduce_mismatch in *; rewrite Ht; [|reflexivity].
  cbn. destruct (t =? 0); [reflexivity|].
  now destruct (d - d / 10 <=? 0)%float.
Qed.

(** The loop stops at the first pass that sets [Done]. *)
Lemma while_not_Done_exit (measured : float) (rates : list float) (n : nat)
    (s s' : PacketDelayInfo * Digitizer) (b : branch) :
  iteration measured s = Some (b, true, s') ->
  while_not_Done (measured :: rates) n s = Exited (S n) b s'.
Proof. intros H. cbn. now rewrite H. Qed.

Lemma while_not_Done_continue (measured : float) (rates : list float) (n : nat)
    (s s' : PacketDelayInfo * Digitizer) (b : branch) :
  iteration measured s = Some (b, false, s') ->
  while_not_Done (measured :: rates) n s = while_not_Done rates (S n) s'.
Proof. intros H. cbn. now rewrite H. Qed.


(** ** Equal rates at a delay of zero ticks *)

(** C5. A pass that measures a frame rate equal to the reference while
    [DelayTickVal] is zero sets [Error] and [Done], whatever the equality
    counter is: the loop exits at this pass. *)
Theorem match_at_zero_ticks_fails (measured : float) (Info : PacketDelayInfo)
    (dev : Digitizer) (rates : list float) (n : nat) :
  IsEqual (BaseFrameRate Info) measured = true ->
  DelayTickVal Info = 0 ->
  EqualityCounter Info < INT64_MAX ->
  exists Info' dev',
    iteration measured (Info, dev) = Some (MatchAtZero, true, (Info', dev')) /\
    while_not_Done (measured :: rates) n (Info, dev)
      = Exited (S n) MatchAtZero (Info', dev') /\
    Error Info' = true /\
    DelayInSeconds Info' = 0%float /\
    EqualityCounter Info' = EqualityCounter Info + 1.
Proof.
  intros Heq Hz Hc.
  pose proof (iteration_match measured Info dev Heq) as Hit.
  unfold increment in Hit. apply Z.ltb_lt in Hc. rewrite Hc in Hit.
  cbn in Hit. rewrite Hz in Hit. cbn in Hit.
  eexists _, _. split; [exact Hit|].
  split; [now apply while_not_Done_exit|]. now cbn.
Qed.

(** The third equal rate in a row, at zero ticks. *)
Lemma match_at_zero_ticks_fails_witness :
  exists Info' dev',
    iteration 30 (mkInfo 30 30 0.0000009 1000000 0 0 2 false, camera)
      = Some (MatchAtZero, true, (Info', dev')) /\
    while_not_Done [30%float] 2 (mkInfo 30 30 0.0000009 1000000 0 0 2 false, camera)
      = Exited 3 MatchAtZero (Info', dev') /\
    Error Info' = true /\
    DelayInSeconds Info' = 0%float /\
    EqualityCounter Info' = 3.
Proof.
  apply (match_at_zero_ticks_fails 30
           (mkInfo 30 30 0.0000009 1000000 0 0 2 false) camera [] 2);
    vm_compute; reflexivity.
Defined.

(** ** Different rates *)

(** C6. A pass that measures a frame rate different from the reference sets
    the counter to zero, takes a tenth off the delay and converts it to ticks;
    zero ticks set [Error] and [Done]; otherwise a delay that is not positive
    sets [Done] and leaves [Error] as it was; otherwise the loop goes on. *)
Theorem mismatch_pass (measured : float) (Info : PacketDelayInfo) (dev : Digitizer)
    (t : Z) :
  IsEqual (BaseFrameRate Info) measured = false ->
  delay_ticks (DelayInSeconds Info - DelayInSeconds Info / 10)%float (TickFreq Info)
    = Some t ->
  exists b Done Info' dev',
    iteration measured (Info, dev) = Some (b, Done, (Info', dev')) /\
    EqualityCounter Info' = 0 /\
    DelayTickVal Info' = t /\
    (t = 0 -> b = MismatchAtZero /\ Done = true /\ Error Info' = true) /\
    (t <> 0 ->
     if (DelayInSeconds Info - DelayInSeconds Info / 10 <=? 0)%float
     then b = MismatchNonPositive /\ Done = true /\ Error Info' = Error Info
     else b = MismatchReduce /\ Done = false /\ Error Info' = Error Info /\
          DelayInSeconds Info'
            = (DelayInSeconds Info - DelayInSeconds Info / 10)%float).
Proof.
  intros Hne Ht.
  pose proof (iteration_mismatch measured Info dev Hne) as Hit.
  unfold reduce_mismatch in Hit. rewrite Ht in Hit. cbn in Hit.
  destruct (Z.eqb_spec t 0) as [->|Hnz].
  - eexists _, _, _, _. split; [exact Hit|]. cbn. repeat split; congruence.
  - destruct (DelayInSeconds Info - DelayInSeconds Info / 10 <=? 0)%float eqn:Hle;
      eexists _, _, _, _; (split; [exact Hit|]); cbn; rewrite ?Hle;
      repeat split; congruence.
Qed.

(** A frame rate of 25 against a reference of 30, at a delay of 500
    microseconds: 450 ticks are left and the loop goes on. *)
Lemma mismatch_pass_witness :
  exists b Done Info' dev',
    iteration 25 (mkInfo 30 0 0.0005 1000000 500 0 2 false, camera)
      = Some (b, Done, (Info', dev')) /\
    EqualityCounter Info' = 0 /\
    DelayTickVal Info' = 450 /\
    (450 = 0 -> b = MismatchAtZero /\ Done = true /\ Error Info' = true) /\
    (450 <> 0 ->
     if (0.0005 - 0.0005 / 10 <=? 0)%float
     then b = MismatchNonPositive /\ Done = true /\ Error Info' = false
     else b = MismatchReduce /\ Done = false /\ Error Info' = false /\
          DelayInSeconds Info' = (0.0005 - 0.0005 / 10)%float).
Proof.
  apply (mismatch_pass 25 (mkInfo 30 0 0.0005 1000000 500 0 2 false) camera 450);
    vm_compute; reflexivity.
Defined.

(** ** What a pass does, by the branch it takes *)

Lemma increment_Some (c c' : Z) : increment c = Some c' -> c' = c + 1.
Proof. unfold increment. destruct (c <? INT64_MAX); congruence. Qed.

Lemma iteration_cases (measured : float) (Info Info' : PacketDelayInfo)
    (dev dev' : Digitizer) (b : branch) (Done : bool) :
  iteration measured (Info, dev) = Some (b, Done, (Info', dev')) ->
  let d := DelayInSeconds Info in
  let dev1 := MdigControl (DelayTickVal Info) dev in
  BaseFrameRate Info' = BaseFrameRate Info /\
  TickFreq Info' = TickFreq Info /\
  ProcessFrameRate Info' = measured /\
  Done = match b with MatchReduce | MismatchReduce => false | _ => true end /\
  IsEqual (BaseFrameRate Info) measured
    = match b with MatchAtZero | Converged | MatchReduce => true | _ => false end /\
  EqualityCounter Info'
    = (if IsEqual (BaseFrameRate Info) measured then EqualityCounter Info + 1 else 0) /\
  Error Info' = (if failure b then true else Error Info) /\
  match b with
  | MatchAtZero =>
      DelayTickVal Info = 0 /\ DelayInSeconds Info' = 0%float /\
      DelayTickVal Info' = 0 /\ dev' = dev1
  | Converged =>
      DelayTickVal Info <> 0 /\ EqualityCounter Info' = 3 /\
      DelayInSeconds Info' = remove_margin d /\
      delay_ticks (remove_margin d) (TickFreq Info) = Some (DelayTickVal Info') /\
      dev' = MdigControl (DelayTickVal Info') dev1
  | MatchReduce =>
      DelayTickVal Info <> 0 /\ EqualityCounter Info' <> 3 /\
      DelayInSeconds Info' = reduce_match d /\
      delay_ticks (reduce_match d) (TickFreq Info) = Some (DelayTickVal Info') /\
      dev' = dev1
  | MismatchAtZero =>
      delay_ticks (reduce_mismatch d) (TickFreq Info) = Some 0 /\
      DelayInSeconds Info' = 0%float /\ DelayTickVal Info' = 0 /\ dev' = dev1
  | MismatchNonPositive =>
      delay_ticks (reduce_mismatch d) (TickFreq Info) = Some (DelayTickVal Info') /\
      DelayTickVal Info' <> 0 /\ (reduce_mismatch d <=? 0)%float = true /\
      DelayInSeconds Info' = 0%float /\ dev' = dev1
  | MismatchReduce =>
      delay_ticks (reduce_mismatch d) (TickFreq Info) = Some (DelayTickVal Info') /\
      DelayTickVal Info' <> 0 /\ (reduce_mismatch d <=? 0)%float = false /\
      DelayInSeconds Info' = reduce_mismatch d /\ dev' = dev1
  end.
Proof.
  intros Hit d dev1. subst d dev1.
  destruct (IsEqual (BaseFrameRate Info) measured) eqn:Heq.
  - rewrite (iteration_match _ _ _ Heq) in Hit.
    destruct (increment (EqualityCounter Info)) as [c|] eqn:Hc; [|discriminate].
    apply increment_Some in Hc. subst c. cbn in Hit.
    destruct (Z.eqb_spec (DelayTickVal Info) 0) as [Hz|Hz].
    { inversion Hit; subst; cbn. rewrite Hz. repeat split; reflexivity. }
    destruct (Z.eqb_spec (EqualityCounter Info + 1) 3) as [H3|H3].
    + destruct (delay_ticks _ _) as [t|] eqn:Ht; [|discriminate].
      inversion Hit; subst; cbn. repeat split; auto.
    + destruct (delay_ticks _ _) as [t|] eqn:Ht; [|discriminate].
      inversion Hit; subst; cbn. repeat split; auto.
  - rewrite (iteration_mismatch _ _ _ Heq) in Hit. cbn in Hit.
    destruct (delay_ticks _ _) as [t|] eqn:Ht; [|discriminate]. cbn in Hit.
    destruct (Z.eqb_spec t 0) as [Hz|Hz].
    { inversion Hit; subst; cbn. repeat split; reflexivity. }
    destruct (reduce_mismatch (DelayInSeconds Info) <=? 0)%float eqn:Hle;
      inversion Hit; subst; cbn; repeat split; auto.
Qed.

(** ** The loop as a sequence of passes *)

(** While the loop runs, the reference rate, the tick frequency and [Error]
    stay as they were, and the counter is the streak of the rates measured. *)
Lemma while_not_Done_running (rates : list float) :
  forall (n0 n : nat) (Info Info1 : PacketDelayInfo) (dev dev1 : Digitizer),
  while_not_Done rates n0 (Info, dev) = Running n (Info1, dev1) ->
  n = (n0 + length rates)%nat /\
  BaseFrameRate Info1 = BaseFrameRate Info /\
  TickFreq Info1 = TickFreq Info /\
  Error Info1 = Error Info /\
  EqualityCounter Info1
    = fold_left (fun c measured =>
                   if IsEqual (BaseFrameRate Info) measured then c + 1 else 0)
                rates (EqualityCounter Info).
Proof.
  induction rates as [|measured rates IH]; intros n0 n Info Info1 dev dev1 H.
  - cbn in H. inversion H; subst. cbn. repeat split; auto with arith.
  - cbn in H.
    destruct (iteration measured (Info, dev)) as [[[b Done] [Info2 dev2]]|] eqn:Hit;
      [|discriminate].
    destruct Done; [discriminate|].
    apply iteration_cases in Hit. cbn zeta in Hit.
    destruct Hit as (Hb & Hf & _ & HD & _ & Hc & He & _).
    apply IH in H. destruct H as (-> & Hb' & Hf' & He' & Hc').
    rewrite Hb in Hb', Hc'. rewrite Hc in Hc'.
    cbn [fold_left length]. repeat split; try congruence; [lia|].
    rewrite He', He. destruct b; try discriminate; reflexivity.
Qed.

(** A loop that exits made some passes without [Done] and then one with it. *)
Lemma while_not_Done_exited (rates : list float) :
  forall (n0 n : nat) (b : branch) (Info Info' : PacketDelayInfo)
         (dev dev' : Digitizer),
  while_not_Done rates n0 (Info, dev) = Exited n b (Info', dev') ->
  exists (k : nat) (measured : float) (Info1 : PacketDelayInfo) (dev1 : Digitizer),
    n = (n0 + S k)%nat /\
    rates !! k = Some measured /\
    while_not_Done (take k rates) n0 (Info, dev) = Running (n0 + k) (Info1, dev1) /\
    iteration measured (Info1, dev1) = Some (b, true, (Info', dev')).
Proof.
  induction rates as [|measured rates IH]; intros n0 n b Info Info' dev dev' H.
  - discriminate.
  - cbn in H.
    destruct (iteration measured (Info, dev)) as [[[b1 Done] [Info2 dev2]]|] eqn:Hit;
      [|discriminate].
    destruct Done.
    + inversion H; subst. exists 0%nat, measured, Info, dev.
      rewrite Nat.add_0_r, Nat.add_1_r. cbn. auto.
    + apply IH in H. destruct H as (k & m & Info1 & dev1 & -> & Hk & Hrun & Hlast).
      exists (S k), m, Info1, dev1. repeat split; auto; try lia.
      cbn. rewrite Hit. rewrite Hrun. f_equal. lia.
Qed.

Lemma streak_snoc (base : float) (rates : list float) (measured : float) :
  streak base (rates ++ [measured])
  = if IsEqual base measured then streak base rates + 1 else 0.
Proof. unfold streak. now rewrite fold_left_app. Qed.

(** At the exit of the loop the counter is the streak of the rates measured,
    and the branch of the last pass is read off it. *)
Lemma exit_streak (rates : list float) (n : nat) (b : branch)
    (Info Info' : PacketDelayInfo) (dev dev' : Digitizer) :
  EqualityCounter Info = 0 ->
  while_not_Done rates 0 (Info, dev) = Exited n b (Info', dev') ->
  (0 < n <= length rates)%nat /\
  EqualityCounter Info' = streak (BaseFrameRate Info) (take n rates) /\
  (b = Converged -> EqualityCounter Info' = 3) /\
  (EqualityCounter Info' = 3 -> b = Converged \/ b = MatchAtZero) /\
  (b = MatchAtZero -> GC_INTER_PACKET_DELAY dev' = 0) /\
  (b = Converged ->
   exists t past, programmed dev' = GC_INTER_PACKET_DELAY dev' :: t :: past /\ t <> 0).
Proof.
  intros Hc0 H. apply while_not_Done_exited in H.
  destruct H as (k & m & Info1 & dev1 & -> & Hk & Hrun & Hlast).
  apply while_not_Done_running in Hrun. destruct Hrun as (_ & Hb & _ & _ & Hc).
  rewrite Hc0 in Hc. fold (streak (BaseFrameRate Info) (take k rates)) in Hc.
  apply iteration_cases in Hlast. cbn zeta in Hlast.
  destruct Hlast as (_ & _ & _ & _ & Heq & Hc' & _ & Hbr).
  rewrite Hb in Heq, Hc'. rewrite Hc in Hc'.
  pose proof (lookup_lt_Some _ _ _ Hk) as Hlt.
  split; [cbn; lia|]. cbn [Nat.add].
  rewrite (take_S_r _ _ _ Hk), streak_snoc.
  split; [exact Hc'|].
  destruct b; rewrite Heq in Hc'; cbn in Hbr;
    repeat split; try discriminate; try tauto; try lia.
  - intros _. destruct Hbr as (Hz & _ & _ & ->). cbn. exact Hz.
  - intros _. destruct Hbr as (Hnz & _ & _ & _ & ->). cbn. eauto.
Qed.

(** A loop that still runs after a pass has a counter other than three. *)
Lemma while_not_Done_running_counter (rates : list float) :
  forall (n0 n : nat) (Info Info1 : PacketDelayInfo) (dev dev1 : Digitizer),
  while_not_Done rates n0 (Info, dev) = Running n (Info1, dev1) ->
  rates <> [] \/ EqualityCounter Info <> 3 ->
  EqualityCounter Info1 <> 3.
Proof.
  induction rates as [|measured rates IH]; intros n0 n Info Info1 dev dev1 H Hor.
  - cbn in H. inversion H; subst. tauto.
  - cbn in H.
    destruct (iteration measured (Info, dev)) as [[[b Done] [Info2 dev2]]|] eqn:Hit;
      [|discriminate].
    destruct Done; [discriminate|].
    apply iteration_cases in Hit. cbn zeta in Hit.
    destruct Hit as (_ & _ & _ & HD & Heq & Hc & _ & Hbr).
    apply IH in H; [exact H|]. right.
    destruct b; try discriminate; rewrite Heq in Hc; [tauto|lia].
Qed.

(** ** Convergence and the equality streak *)

(** C1, amended. In a search that starts with a counter of zero the counter
    is the streak of the rates measured: one more for each rate equal to the
    reference, zero after any other.  The loop takes the exit that removes
    the margin exactly when the counter reaches three on a pass that does not
    find a delay of zero ticks; with zero ticks that pass is the error exit
    instead.  On rates that are equal, equal, different, equal, equal, equal
    to the reference, the loop has exited by the sixth pass, and if it
    converged it did so on the sixth. *)
Theorem convergence_at_streak_of_three (rates : list float)
    (Info : PacketDelayInfo) (dev : Digitizer) :
  EqualityCounter Info = 0 ->
  (forall (n : nat) (b : branch) (Info' : PacketDelayInfo) (dev' : Digitizer),
     while_not_Done rates 0 (Info, dev) = Exited n b (Info', dev') ->
     EqualityCounter Info' = streak (BaseFrameRate Info) (take n rates) /\
     (b = Converged <-> EqualityCounter Info' = 3 /\ b <> MatchAtZero) /\
     (b = MatchAtZero -> GC_INTER_PACKET_DELAY dev' = 0) /\
     (b = Converged ->
      exists t past,
        programmed dev' = GC_INTER_PACKET_DELAY dev' :: t :: past /\ t <> 0)) /\
  (forall m1 m2 x m4 m5 m6 : float,
     rates = [m1; m2; x; m4; m5; m6] ->
     IsEqual (BaseFrameRate Info) m1 = true ->
     IsEqual (BaseFrameRate Info) m2 = true ->
     IsEqual (BaseFrameRate Info) x = false ->
     IsEqual (BaseFrameRate Info) m4 = true ->
     IsEqual (BaseFrameRate Info) m5 = true ->
     IsEqual (BaseFrameRate Info) m6 = true ->
     match while_not_Done rates 0 (Info, dev) with
     | Exited n b _ => b = Converged -> n = 6%nat
     | Running _ _ => False
     | Undefined _ => True
     end).
Proof.
  intros Hc0. split.
  - intros n b Info' dev' H.
    destruct (exit_streak _ _ _ _ _ _ _ Hc0 H) as (_ & Hs & H3 & H3' & Hz & Hnz).
    repeat split; auto.
    + intros ->. discriminate.
    + intros [Hc Hb]. destruct (H3' Hc); [assumption|contradiction].
  - intros m1 m2 x m4 m5 m6 -> E1 E2 E3 E4 E5 E6.
    destruct (while_not_Done _ 0 (Info, dev)) as [n b [Info' dev']|n [Info1 dev1]|n]
      eqn:H; [| |exact I].
    + intros ->.
      destruct (exit_streak _ _ _ _ _ _ _ Hc0 H) as (Hn & Hs & H3 & _).
      rewrite (H3 eq_refl) in Hs. cbn [length] in Hn.
      assert (Hcases : (n = 1 \/ n = 2 \/ n = 3 \/ n = 4 \/ n = 5 \/ n = 6)%nat) by lia.
      destruct Hcases as [->|[->|[->|[->|[->| ->]]]]]; [..|reflexivity];
        unfold streak in Hs; cbn in Hs;
        rewrite ?E1, ?E2, ?E3, ?E4, ?E5, ?E6 in Hs; discriminate.
    + pose proof (while_not_Done_running _ _ _ _ _ _ _ H) as (_ & _ & _ & _ & Hc).
      apply while_not_Done_running_counter in H; [|left; discriminate].
      cbn in Hc. rewrite Hc0, E1, E2, E3, E4, E5, E6 in Hc. cbn in Hc. contradiction.
Qed.

(** On 30.05, 29.96, 25, 30, 30, 30 against a reference of 30 the loop
    converges on the sixth pass. *)
Lemma convergence_at_streak_of_three_witness :
  (exists s', while_not_Done [30.05; 29.96; 25; 30; 30; 30]%float 0 (scenario, camera)
              = Exited 6 Converged s') /\
  match while_not_Done [30.05; 29.96; 25; 30; 30; 30]%float 0 (scenario, camera) with
  | Exited n b _ => b = Converged -> n = 6%nat
  | Running _ _ => False
  | Undefined _ => True
  end.
Proof.
  split; [vm_compute; eexists; reflexivity|].
  apply (proj2 (convergence_at_streak_of_three
                  [30.05; 29.96; 25; 30; 30; 30]%float scenario camera eq_refl)
           30.05 29.96 25 30 30 30)%float; vm_compute; reflexivity.
Defined.

(** C1 as stated fails: with a theoretical delay of 1.03 microseconds at
    1 MHz, three rates in a row equal the reference and the counter reaches
    three, yet the third pass finds a delay of zero ticks and the loop takes
    the error exit, not the exit that removes the margin. *)
Lemma streak_of_three_without_convergence :
  exists Info' Results' dev',
    MosMain_pass 1000000 30 0.00000103 [30.05; 29.96; 30]%float table camera
      = Returned 3 MatchAtZero Info' Results' dev' /\
    streak 30 [30.05; 29.96; 30]%float = 3 /\
    EqualityCounter Info' = 3 /\
    Error Info' = true.
Proof. vm_compute. eexists _, _, _. repeat split; reflexivity. Qed.

(** ** The scenario of three equal rates *)

(** C3. With a tick frequency of 1 MHz, a reference of 30 and a theoretical
    delay of 0.0005, the rates 30.05, 29.96 and 30 are three matches: the
    counter goes 1, 2, 3, the delay 0.00049, then 0.0004802 (up to the last
    bit of the double), and the third pass converges with a delay of
    0.00040817 (up to the last bit) and 408 ticks, which it programs. *)
Theorem scenario_three_matches :
  AcquireReferenceFrameRate 30 0.0005 (zero_info 1000000, table, camera)
    = Some (scenario,
            mkResults (PixelFormats table) [0; 0; 0] [0; 0; 0]%float
              [30; 0; 0]%float [0; 0; 0]%float 0,
            MdigControl 0 camera) /\
  IsEqual 30 30.05 = true /\ IsEqual 30 29.96 = true /\ IsEqual 30 30 = true /\
  while_not_Done [30.05]%float 0 (scenario, camera)
    = Running 1 (mkInfo 30 30.05 0.00049 1000000 490 0 1 false,
                 MdigControl 500 camera) /\
  while_not_Done [30.05; 29.96]%float 0 (scenario, camera)
    = Running 2 (mkInfo 30 29.96 0.00048019999999999996 1000000 480 0 2 false,
                 MdigControl 490 (MdigControl 500 camera)) /\
  near 0.00048019999999999996 (4802 # 10000000) (1 # 10 ^ 19) = true /\
  while_not_Done [30.05; 29.96; 30]%float 0 (scenario, camera)
    = Exited 3 Converged
        (mkInfo 30 30 0.00040816999999999996 1000000 408 0 3 false,
         MdigControl 408 (MdigControl 480 (MdigControl 490 (MdigControl 500 camera)))) /\
  remove_margin 0.00048019999999999996 = 0.00040816999999999996%float /\
  near 0.00040816999999999996 (40817 # 100000000) (1 # 10 ^ 19) = true /\
  delay_ticks 0.00040816999999999996 1000000 = Some 408 /\
  exists Info' Results' dev',
    MosMain_pass 1000000 30 0.0005 [30.05; 29.96; 30]%float table camera
      = Returned 3 Converged Info' Results' dev' /\
    DelayTickVal Info' = 408 /\
    GC_INTER_PACKET_DELAY dev' = 408 /\
    InterPacketDelayInTicks Results' !! 0%nat = Some 408.
Proof.
  vm_compute. repeat split; try reflexivity.
  eexists _, _, _. repeat split; reflexivity.
Qed.

(** ** The delay accepted at convergence *)

Lemma store_solution_Some (Info : PacketDelayInfo) (Results Results' : PacketDelayResults) :
  store_solution Info Results = Some Results' ->
  let k := Selection Results in
  PixelFormats Results' = PixelFormats Results /\
  ReferenceFrameRate Results' = ReferenceFrameRate Results /\
  Selection Results' = k /\
  if Error Info then Results' = Results
  else
    InterPacketDelayInTicks Results'
      = <[k := DelayTickVal Info]> (InterPacketDelayInTicks Results) /\
    InterPacketDelayInSec Results'
      = <[k := DelayInSeconds Info]> (InterPacketDelayInSec Results) /\
    ObtainedFrameRate Results'
      = <[k := ProcessFrameRate Info]> (ObtainedFrameRate Results) /\
    InterPacketDelayInTicks Results' !! k = Some (DelayTickVal Info) /\
    InterPacketDelayInSec Results' !! k = Some (DelayInSeconds Info) /\
    ObtainedFrameRate Results' !! k = Some (ProcessFrameRate Info).
Proof.
  intros H. cbn zeta. unfold store_solution in H.
  destruct (Error Info); [inversion H; subst; auto|].
  destruct (decide _) as [(H1 & H2 & H3)|]; [|discriminate].
  inversion H; subst; cbn.
  repeat split; auto; now apply list_lookup_insert_eq.
Qed.

Lemma FindInterPacketDelay_Returned (rates : list float) (n : nat) (b : branch)
    (Info Info' : PacketDelayInfo) (Results Results' : PacketDelayResults)
    (dev dev' : Digitizer) :
  FindInterPacketDelay rates (Info, Results, dev) = Returned n b Info' Results' dev' ->
  while_not_Done rates 0 (Info, dev) = Exited n b (Info', dev') /\
  store_solution Info' Results = Some Results'.
Proof.
  unfold FindInterPacketDelay.
  destruct (while_not_Done rates 0 (Info, dev)) as [m c [I d]| |]; try discriminate.
  destruct (store_solution I Results) eqn:Hs; [|discriminate].
  intros H. inversion H; subst. auto.
Qed.

(** C2, amended. When the search converges, the delay it leaves is the delay
    held at the third equal rate minus 15 hundredths of it, both computed in
    doubles (0.85 times that delay up to rounding), and zero if that is not
    positive; its ticks are that delay times the tick frequency, cast to
    [MIL_UINT32]; these ticks are programmed into the camera, and delay and
    ticks are stored as the result of the selected pixel format. *)
Theorem converged_delay (rates : list float) (n : nat)
    (Info Info' : PacketDelayInfo) (Results Results' : PacketDelayResults)
    (dev dev' : Digitizer) :
  Error Info = false ->
  FindInterPacketDelay rates (Info, Results, dev)
    = Returned n Converged Info' Results' dev' ->
  exists (k : nat) (Info3 : PacketDelayInfo) (dev3 : Digitizer),
    n = S k /\
    while_not_Done (take k rates) 0 (Info, dev) = Running k (Info3, dev3) /\
    DelayInSeconds Info'
      = (let d := (DelayInSeconds Info3 - DelayInSeconds Info3 * 15 / 100)%float in
         if (d <=? 0)%float then 0%float else d) /\
    to_uint32 (DelayInSeconds Info' * of_uint64 (TickFreq Info))%float
      = Some (DelayTickVal Info') /\
    GC_INTER_PACKET_DELAY dev' = DelayTickVal Info' /\
    InterPacketDelayInTicks Results' !! Selection Results = Some (DelayTickVal Info') /\
    InterPacketDelayInSec Results' !! Selection Results = Some (DelayInSeconds Info').
Proof.
  intros He H. apply FindInterPacketDelay_Returned in H. destruct H as [Hloop Hst].
  apply while_not_Done_exited in Hloop.
  destruct Hloop as (k & m & Info3 & dev3 & -> & Hk & Hrun & Hlast).
  pose proof (while_not_Done_running _ _ _ _ _ _ _ Hrun) as (_ & _ & Hf & He3 & _).
  apply iteration_cases in Hlast. cbn zeta in Hlast.
  destruct Hlast as (_ & _ & _ & _ & _ & _ & He' & _ & _ & Hd & Ht & ->).
  cbn in He'. rewrite He3, He in He'.
  apply store_solution_Some in Hst. cbn zeta in Hst. rewrite He' in Hst.
  destruct Hst as (_ & _ & _ & _ & _ & _ & Hl1 & Hl2 & _).
  exists k, Info3, dev3. cbn [Nat.add]. repeat split; auto.
  rewrite Hd, <- Hf. exact Ht.
Qed.

(** The scenario of the three equal rates. *)
Lemma converged_delay_witness :
  exists (k : nat) (Info3 : PacketDelayInfo) (dev3 : Digitizer),
    3%nat = S k /\
    while_not_Done (take k [30.05; 29.96; 30]%float) 0 (scenario, camera)
      = Running k (Info3, dev3) /\
    0.00040816999999999996%float
      = (let d := (DelayInSeconds Info3 - DelayInSeconds Info3 * 15 / 100)%float in
         if (d <=? 0)%float then 0%float else d) /\
    to_uint32 (0.00040816999999999996 * of_uint64 1000000)%float = Some 408 /\
    408 = 408 /\
    [408; 0; 0] !! 0%nat = Some 408 /\
    [0.00040816999999999996; 0; 0]%float !! 0%nat = Some 0.00040816999999999996%float.
Proof.
  apply (converged_delay [30.05; 29.96; 30]%float 3 scenario
           (mkInfo 30 30 0.00040816999999999996 1000000 408 0 3 false)
           table
           (mkResults (PixelFormats table) [408; 0; 0]
              [0.00040816999999999996; 0; 0]%float (ReferenceFrameRate table)
              [30; 0; 0]%float 0)
           camera
           (MdigControl 408
              (MdigControl 480 (MdigControl 490 (MdigControl 500 camera)))));
    vm_compute; reflexivity.
Defined.

(** C2 as stated fails: from a theoretical delay of 0x1.7e225515a4f1dp-11
    (about 729 microseconds) at 1 MHz, the delay held at the third equal rate
    is the double 0.0007; the search programs 595 ticks, whereas 0.85 times
    that delay gives 594 ticks, computed in doubles or exactly. *)
Lemma converged_delay_is_not_085 :
  let Info := mkInfo 30 0 0x1.7e225515a4f1dp-11 1000000 728 0 0 false in
  AcquireReferenceFrameRate 30 0x1.7e225515a4f1dp-11 (zero_info 1000000, table, camera)
    = Some (Info, mkResults (PixelFormats table) [0; 0; 0] [0; 0; 0]%float
                    [30; 0; 0]%float [0; 0; 0]%float 0, MdigControl 0 camera) /\
  exists Info3 dev3 Info' dev',
    while_not_Done [30; 30]%float 0 (Info, camera) = Running 2 (Info3, dev3) /\
    DelayInSeconds Info3 = 0.0007%float /\
    while_not_Done [30; 30; 30]%float 0 (Info, camera)
      = Exited 3 Converged (Info', dev') /\
    DelayTickVal Info' = 595 /\
    GC_INTER_PACKET_DELAY dev' = 595 /\
    delay_ticks (margin_as_specified 0.0007) 1000000 = Some 594 /\
    (exists v, value 0.0007 = Some v /\ Qfloor ((85 # 100) * v * 1000000) = 594).
Proof.
  vm_compute. split; [reflexivity|].
  eexists _, _, _, _. repeat split; try reflexivity.
  eexists. split; reflexivity.
Qed.

(** ** The results of a failed search *)

Lemma AcquireReferenceFrameRate_Some (rate theoretical : float)
    (Info Info1 : PacketDelayInfo) (Results Results1 : PacketDelayResults)
    (dev dev1 : Digitizer) :
  AcquireReferenceFrameRate rate theoretical (Info, Results, dev)
    = Some (Info1, Results1, dev1) ->
  BaseFrameRate Info1 = rate /\
  DelayInSeconds Info1 = theoretical /\
  TickFreq Info1 = TickFreq Info /\
  EqualityCounter Info1 = EqualityCounter Info /\
  Error Info1 = Error Info /\
  delay_ticks theoretical (TickFreq Info) = Some (DelayTickVal Info1) /\
  InterPacketDelayInTicks Results1 = InterPacketDelayInTicks Results /\
  InterPacketDelayInSec Results1 = InterPacketDelayInSec Results /\
  ObtainedFrameRate Results1 = ObtainedFrameRate Results /\
  ReferenceFrameRate Results1 = <[Selection Results := rate]> (ReferenceFrameRate Results) /\
  Selection Results1 = Selection Results /\
  dev1 = MdigControl 0 dev.
Proof.
  unfold AcquireReferenceFrameRate.
  destruct (decide _); [|discriminate]. cbn.
  destruct (delay_ticks theoretical (TickFreq Info)) as [t|]; [|discriminate].
  cbn. intros H. inversion H; subst; cbn. repeat split; reflexivity.
Qed.

(** C9. The delay in ticks, the delay in seconds and the obtained frame rate
    of the selected pixel format are stored exactly when the search ends
    without [Error]; a search that ends with [Error], which is one that took
    an error exit, stores nothing, and these entries keep the zeros that
    [EnumeratePixelFormats] assigned. *)
Theorem results_populated_iff_not_failed (freq : Z) (rate theoretical : float)
    (rates : list float) (Results Results' : PacketDelayResults)
    (dev dev' : Digitizer) (n : nat) (b : branch) (Info' : PacketDelayInfo) :
  InterPacketDelayInTicks Results !! Selection Results = Some 0 ->
  InterPacketDelayInSec Results !! Selection Results = Some 0%float ->
  ObtainedFrameRate Results !! Selection Results = Some 0%float ->
  MosMain_pass freq rate theoretical rates Results dev
    = Returned n b Info' Results' dev' ->
  Error Info' = failure b /\
  if Error Info' then
    InterPacketDelayInTicks Results' = InterPacketDelayInTicks Results /\
    InterPacketDelayInSec Results' = InterPacketDelayInSec Results /\
    ObtainedFrameRate Results' = ObtainedFrameRate Results /\
    InterPacketDelayInTicks Results' !! Selection Results = Some 0 /\
    InterPacketDelayInSec Results' !! Selection Results = Some 0%float /\
    ObtainedFrameRate Results' !! Selection Results = Some 0%float
  else
    InterPacketDelayInTicks Results'
      = <[Selection Results := DelayTickVal Info']> (InterPacketDelayInTicks Results) /\
    InterPacketDelayInSec Results'
      = <[Selection Results := DelayInSeconds Info']> (InterPacketDelayInSec Results) /\
    ObtainedFrameRate Results'
      = <[Selection Results := ProcessFrameRate Info']> (ObtainedFrameRate Results) /\
    InterPacketDelayInTicks Results' !! Selection Results = Some (DelayTickVal Info') /\
    InterPacketDelayInSec Results' !! Selection Results = Some (DelayInSeconds Info') /\
    ObtainedFrameRate Results' !! Selection Results = Some (ProcessFrameRate Info').
Proof.
  intros Z1 Z2 Z3. unfold MosMain_pass.
  destruct (AcquireReferenceFrameRate _ _ _) as [[[Info1 Results1] dev1]|] eqn:Ha;
    [|discriminate].
  apply AcquireReferenceFrameRate_Some in Ha.
  destruct Ha as (_ & _ & _ & _ & He1 & _ & R1 & R2 & R3 & _ & Rk & _).
  cbn in He1. intros H. apply FindInterPacketDelay_Returned in H.
  destruct H as [Hloop Hst].
  apply while_not_Done_exited in Hloop.
  destruct Hloop as (k & m & Info3 & dev3 & _ & _ & Hrun & Hlast).
  apply while_not_Done_running in Hrun. destruct Hrun as (_ & _ & _ & He3 & _).
  apply iteration_cases in Hlast. cbn zeta in Hlast.
  destruct Hlast as (_ & _ & _ & _ & _ & _ & He' & _).
  rewrite He3, He1 in He'.
  assert (Hf : Error Info' = failure b) by (rewrite He'; now destruct (failure b)).
  split; [exact Hf|].
  apply store_solution_Some in Hst. cbn zeta in Hst.
  rewrite Rk, R1, R2, R3 in Hst.
  destruct (Error Info').
  - destruct Hst as (_ & _ & _ & ->). rewrite R1, R2, R3. auto 10.
  - tauto.
Qed.

(** A search that fails on its first pass, and one that converges. *)
Lemma results_populated_iff_not_failed_witness :
  (true = failure MismatchAtZero /\
   [0; 0; 0] = [0; 0; 0] /\ [0; 0; 0]%float = [0; 0; 0]%float /\
   [0; 0; 0]%float = [0; 0; 0]%float /\
   [0; 0; 0] !! 0%nat = Some 0 /\ [0; 0; 0]%float !! 0%nat = Some 0%float /\
   [0; 0; 0]%float !! 0%nat = Some 0%float) /\
  (false = failure Converged /\
   [408; 0; 0] = <[0%nat := 408]> [0; 0; 0] /\
   [0.00040816999999999996; 0; 0]%float
     = <[0%nat := 0.00040816999999999996%float]> [0; 0; 0]%float /\
   [30; 0; 0]%float = <[0%nat := 30%float]> [0; 0; 0]%float /\
   [408; 0; 0] !! 0%nat = Some 408 /\
   [0.00040816999999999996; 0; 0]%float !! 0%nat = Some 0.00040816999999999996%float /\
   [30; 0; 0]%float !! 0%nat = Some 30%float).
Proof.
  split.
  - apply (results_populated_iff_not_failed 1000000 30 0.0000005 [25]%float table
             (mkResults (PixelFormats table) [0; 0; 0] [0; 0; 0]%float
                [30; 0; 0]%float [0; 0; 0]%float 0)
             camera (MdigControl 0 (MdigControl 0 camera)) 1 MismatchAtZero
             (mkInfo 30 25 0 1000000 0 0 0 true));
      vm_compute; reflexivity.
  - apply (results_populated_iff_not_failed 1000000 30 0.0005
             [30.05; 29.96; 30]%float table
             (mkResults (PixelFormats table) [408; 0; 0]
                [0.00040816999999999996; 0; 0]%float
                [30; 0; 0]%float [30; 0; 0]%float 0)
             camera
             (MdigControl 408
                (MdigControl 480 (MdigControl 490 (MdigControl 500 (MdigControl 0 camera)))))
             3 Converged
             (mkInfo 30 30 0.00040816999999999996 1000000 408 0 3 false));
      vm_compute; reflexivity.
Defined.

(** ** The conversion of the delay to ticks *)

Lemma Qfloor_fraction (n : Z) (p : positive) : Qfloor (n # p) = n / Zpos p.
Proof. reflexivity. Qed.

(** The integer part of a finite float that is not negative is the floor of
    its value. *)
Lemma truncate_floor (x : float) (v : Q) :
  value x = Some v -> (0 <= v)%Q -> truncate x = Some (Qfloor v).
Proof.
  unfold value, truncate.
  destruct (Prim2SF x) as [s|s| |s m e]; cbn; try discriminate.
  - intros H _. inversion H; subst. reflexivity.
  - assert (Hs : forall z : Z, (0 <= inject_Z (cond_Zopp s (Zpos m) * z))%Q ->
                 0 < z -> s = false).
    { intros z Hv Hz. destruct s; [|reflexivity]. exfalso.
      unfold Qle in Hv. cbn in Hv. nia. }
    destruct e as [|p|p]; intros H Hv; inversion H; subst; clear H.
    + rewrite (Hs _ Hv) by lia. cbn [cond_Zopp].
      now rewrite Qfloor_Z, Z.shiftl_mul_pow2.
    + rewrite (Hs _ Hv) by lia. cbn [cond_Zopp].
      now rewrite Qfloor_Z, Z.shiftl_mul_pow2.
    + assert (s = false) as ->.
      { destruct s; [|reflexivity]. exfalso. unfold Qle in Hv. cbn in Hv. lia. }
      cbn [cond_Zopp]. rewrite Qfloor_fraction. f_equal.
      change (Z.shiftl (Z.pos m) (Z.neg p)) with (Z.shiftr (Z.pos m) (Z.pos p)).
      rewrite Z.shiftr_div_pow2 by lia. now rewrite Pos2Z.inj_pow.
Qed.

(** C7, amended. Every conversion of the delay to ticks -- of the theoretical
    delay in [AcquireReferenceFrameRate] and of each reduced delay in the
    loop -- is [delay_ticks]; and when the product of the delay and the tick
    frequency, as computed in doubles, is not negative and is less than 2^32,
    [delay_ticks] is the floor of that product: it is never more than the
    product, and more than the product minus one. *)
Theorem delay_ticks_is_floor :
  (forall (d : float) (freq : Z) (v : Q),
     value (d * of_uint64 freq)%float = Some v ->
     (0 <= v)%Q -> (v < 4294967296)%Q ->
     delay_ticks d freq = Some (Qfloor v) /\
     (inject_Z (Qfloor v) <= v)%Q /\ (v < inject_Z (Qfloor v + 1))%Q) /\
  (forall rate theoretical Info Results dev Info1 Results1 dev1,
     AcquireReferenceFrameRate rate theoretical (Info, Results, dev)
       = Some (Info1, Results1, dev1) ->
     to_uint32 (DelayInSeconds Info1 * of_uint64 (TickFreq Info1))%float
       = Some (DelayTickVal Info1)) /\
  (forall measured Info dev b Done Info' dev',
     iteration measured (Info, dev) = Some (b, Done, (Info', dev')) ->
     match b with
     | MatchAtZero => DelayTickVal Info' = DelayTickVal Info
     | Converged | MatchReduce | MismatchReduce =>
         to_uint32 (DelayInSeconds Info' * of_uint64 (TickFreq Info'))%float
           = Some (DelayTickVal Info')
     | MismatchAtZero | MismatchNonPositive =>
         to_uint32 ((DelayInSeconds Info - DelayInSeconds Info / 10)
                    * of_uint64 (TickFreq Info'))%float
           = Some (DelayTickVal Info')
     end).
Proof.
  split; [|split].
  - intros d freq v Hv H0 H32.
    split; [|split; [apply Qfloor_le|apply Qlt_floor]].
    unfold delay_ticks, to_uint32. rewrite (truncate_floor _ _ Hv H0).
    assert (0 <= Qfloor v) by (change 0 with (Qfloor 0); now apply Qfloor_resp_le).
    assert (Qfloor v <= UINT32_MAX).
    { assert (Hlt : (inject_Z (Qfloor v) < inject_Z 4294967296)%Q)
        by (eapply Qle_lt_trans; [apply Qfloor_le|exact H32]).
      rewrite <- Zlt_Qlt in Hlt. unfold UINT32_MAX. lia. }
    destruct (Z.leb_spec 0 (Qfloor v)); [|lia].
    destruct (Z.leb_spec (Qfloor v) UINT32_MAX); [reflexivity|lia].
  - intros rate theoretical Info Results dev Info1 Results1 dev1 H.
    apply AcquireReferenceFrameRate_Some in H.
    destruct H as (_ & -> & -> & _ & _ & H & _). exact H.
  - intros measured Info dev b Done Info' dev' H.
    apply iteration_cases in H. cbn zeta in H.
    destruct H as (_ & -> & _ & _ & _ & _ & _ & H).
    destruct b.
    + destruct H as (-> & _ & -> & _). reflexivity.
    + destruct H as (_ & _ & -> & H & _). exact H.
    + destruct H as (_ & _ & -> & H & _). exact H.
    + destruct H as (H & _ & -> & _). exact H.
    + destruct H as (H & _). exact H.
    + destruct H as (H & _ & _ & -> & _). exact H.
Qed.

(** The delay of 408.17 microseconds at 1 MHz. *)
Lemma delay_ticks_is_floor_witness :
  delay_ticks 0.00040816999999999996 1000000 = Some 408 /\
  (inject_Z 408 <= (7180602577749278 # 2 ^ 44))%Q /\
  ((7180602577749278 # 2 ^ 44) < inject_Z 409)%Q.
Proof.
  refine (proj1 delay_ticks_is_floor 0.00040816999999999996%float 1000000
            (7180602577749278 # 2 ^ 44) _ _ _); vm_compute; (reflexivity || discriminate).
Defined.

(** C7 as stated fails: a delay of 5 seconds at a tick frequency of 1 GHz is
    not negative and the frequency is positive, but the product is
    5,000,000,000, which no [MIL_UINT32] holds: the cast is undefined, and
    whatever it yields is not the floor of the product. *)
Lemma delay_ticks_beyond_uint32 :
  (0 <=? 5)%float = true /\ 0 < 1000000000 /\
  delay_ticks 5 1000000000 = None /\
  exists v : Q,
    value (5 * of_uint64 1000000000)%float = Some v /\
    Qfloor v = 5000000000 /\
    (forall t : Z, 0 <= t <= UINT32_MAX -> t <> Qfloor v).
Proof.
  split; [reflexivity|]. split; [reflexivity|]. split; [vm_compute; reflexivity|].
  eexists. split; [vm_compute; reflexivity|].
  assert (H : Qfloor (5242880000000000 # 1048576) = 5000000000)
    by (vm_compute; reflexivity).
  split; [exact H|]. rewrite H. unfold UINT32_MAX. lia.
Qed.

(** ** The equality test *)

(** C4 as stated fails.  The test is not symmetric: 8.06 equals 7.96 but
    7.96 does not equal 8.06.  And it is not the tolerance of 0.1: against a
    reference of 60 a rate of 59.9 is equal, but the distance of the two
    doubles is more than 0.1, computed in doubles or exactly. *)
Lemma IsEqual_asymmetric :
  IsEqual 7.96 8.06 = true /\ IsEqual 8.06 7.96 = false /\
  IsEqual 60 59.9 = true /\
  within_tolerance 59.9 60 = false /\
  ~ exactly_within_tolerance 59.9 60.
Proof.
  repeat split; try (vm_compute; reflexivity).
  intros (m & b & Hm & Hb & H).
  vm_compute in Hm, Hb. inversion Hm; inversion Hb; subst.
  vm_compute in H. now apply H.
Qed.

(** Two finite rates whose values differ by a tenth at most are equal for
    [IsEqual], in both orders. *)
Lemma IsEqual_Zval (A B : float) :
  is_finite (Prim2SF A) = true -> is_finite (Prim2SF B) = true ->
  10 * Z.abs (Zval (Prim2SF A) - Zval (Prim2SF B)) <= P 0 ->
  IsEqual A B = true /\ IsEqual B A = true.
Proof.
  intros FA FB Hd.
  assert (Hc : P 0 <= 10 * Zval (Prim2SF 0.1)).
  { change (Prim2SF 0.1) with (S754_finite false 7205759403792794 (-56)).
    cbn [Zval cond_Zopp].
    replace (P 0) with (P (-56) * 2 ^ 56) by (rewrite <- P_add by lia; reflexivity).
    pose proof (P_pos (-56) ltac:(lia)).
    change (2 ^ 56) with 72057594037927936. lia. }
  pose proof (Prim2SF_valid A) as VA. pose proof (Prim2SF_valid B) as VB.
  pose proof (Prim2SF_valid 0.1) as VC.
  assert (FC : is_finite (Prim2SF 0.1) = true) by reflexivity.
  set (ZA := Zval (Prim2SF A)) in *. set (ZB := Zval (Prim2SF B)) in *.
  set (ZC := Zval (Prim2SF 0.1)) in *.
  rewrite !IsEqual_spec, !leb_spec, !add_spec, !sub_spec.
  destruct (SFadd_monotone (Prim2SF A) (Prim2SF 0.1) (Prim2SF B) VA VC VB FA FC FB)
    as [_ H1].
  destruct (SFsub_monotone (Prim2SF A) (Prim2SF 0.1) (Prim2SF B) VA VC VB FA FC FB)
    as [H2 _].
  destruct (SFadd_monotone (Prim2SF B) (Prim2SF 0.1) (Prim2SF A) VB VC VA FB FC FA)
    as [_ H3].
  destruct (SFsub_monotone (Prim2SF B) (Prim2SF 0.1) (Prim2SF A) VB VC VA FB FC FA)
    as [H4 _].
  fold ZA ZB ZC in H1, H2, H3, H4.
  rewrite H1, H2, H3, H4 by lia. auto.
Qed.

(** Two finite rates whose distance, computed exactly, is at most 0.1 pass
    the test [IsEqual], in either order of its arguments: the rounding of
    [A + 0.1] and of [A - 0.1] never rejects a rate within the tolerance. *)
Theorem IsEqual_within_tolerance (A B : float) (a b : Q) :
  value A = Some a -> value B = Some b -> (Qabs (a - b) <= 1 # 10)%Q ->
  IsEqual A B = true /\ IsEqual B A = true.
Proof.
  intros Ha Hb H.
  destruct (tolerance_Zval A B a b Ha Hb H) as (FA & FB & Hd).
  now apply IsEqual_Zval.
Qed.

(** A rate of 30.05 against a reference of 30. *)
Lemma IsEqual_within_tolerance_witness :
  IsEqual 30 30.05 = true /\ IsEqual 30.05 30 = true.
Proof.
  refine (IsEqual_within_tolerance 30 30.05 _ _ eq_refl eq_refl _).
  vm_compute. discriminate.
Defined.

(** A rate that is not a number equals no rate, and every other rate, the
    infinite ones too, equals itself. *)
Theorem IsEqual_not_a_number (A B : float) :
  (IsEqual A B = true -> Prim2SF A <> S754_nan /\ Prim2SF B <> S754_nan) /\
  (IsEqual A A = true <-> Prim2SF A <> S754_nan).
Proof.
  assert (Hnan : forall X Y : float,
             IsEqual X Y = true -> Prim2SF X <> S754_nan /\ Prim2SF Y <> S754_nan).
  { intros X Y. rewrite IsEqual_spec, !leb_spec, add_spec, sub_spec.
    change (Prim2SF 0.1) with (S754_finite false 7205759403792794 (-56)).
    destruct (Prim2SF X) as [sx|sx| |sx mx ex]; destruct (Prim2SF Y) as [sy|sy| |sy my ey];
      try (intros _; split; discriminate);
      intros H; exfalso; apply andb_true_iff in H; destruct H as [H1 H2];
      try discriminate H2; try discriminate H1;
      destruct sx; try discriminate H2; try discriminate H1. }
  split; [apply Hnan|]. split; [intros H; now apply Hnan in H|].
  intros HA.
  destruct (Prim2SF A) as [s|s| |s m e] eqn:E; [| |contradiction|].
  - apply (IsEqual_Zval A A); rewrite ?E; try reflexivity.
    rewrite Z.sub_diag. cbn. pose proof (P_pos 0 ltac:(lia)). lia.
  - rewrite IsEqual_spec, !leb_spec, add_spec, sub_spec, E.
    change (Prim2SF 0.1) with (S754_finite false 7205759403792794 (-56)).
    destruct s; reflexivity.
  - apply (IsEqual_Zval A A); rewrite ?E; try reflexivity.
    rewrite Z.sub_diag. cbn. pose proof (P_pos 0 ltac:(lia)). lia.
Qed.

(** ** The delay never increases *)

Lemma nonneg_finite_0 : nonneg_finite 0.
Proof. split; reflexivity. Qed.

(** A pass leaves a delay that is finite, not negative and not more than
    the delay it found. *)
Lemma iteration_delay (measured : float) (Info Info' : PacketDelayInfo)
    (dev dev' : Digitizer) (b : branch) (Done : bool) :
  iteration measured (Info, dev) = Some (b, Done, (Info', dev')) ->
  nonneg_finite (DelayInSeconds Info) ->
  nonneg_finite (DelayInSeconds Info') /\
  (DelayInSeconds Info' <=? DelayInSeconds Info)%float = true.
Proof.
  intros Hit Hd. apply iteration_cases in Hit. cbn zeta in Hit.
  destruct Hit as (_ & _ & _ & _ & _ & _ & _ & Hb).
  pose proof Hd as [Hd0 _].
  destruct b.
  - destruct Hb as (_ & -> & _). split; [apply nonneg_finite_0|assumption].
  - destruct Hb as (_ & _ & -> & _). now apply remove_margin_le.
  - destruct Hb as (_ & _ & -> & _). now apply reduce_match_le.
  - destruct Hb as (_ & -> & _). split; [apply nonneg_finite_0|assumption].
  - destruct Hb as (_ & _ & _ & -> & _). split; [apply nonneg_finite_0|assumption].
  - destruct Hb as (_ & _ & _ & -> & _). now apply reduce_mismatch_le.
Qed.

Lemma delays_decrease (rates : list float) :
  forall (s : PacketDelayInfo * Digitizer) (i : nat) (x y : float),
  nonneg_finite (DelayInSeconds (fst s)) ->
  delays rates s !! i = Some x -> delays rates s !! S i = Some y ->
  (y <=? x)%float = true.
Proof.
  induction rates as [|measured rates IH]; intros [Info dev] i x y Hd Hx Hy.
  - destruct i; discriminate.
  - cbn [delays] in Hx, Hy.
    destruct (iteration measured (Info, dev)) as [[[b Done] [Info' dev']]|] eqn:Hit;
      [|destruct i; discriminate].
    destruct (iteration_delay _ _ _ _ _ _ _ Hit Hd) as [Hd' Hle].
    destruct Done.
    + destruct i as [|[|i]]; try discriminate. cbn in Hx, Hy. congruence.
    + destruct i as [|i].
      * cbn in Hx. inversion Hx; subst x. cbn [fst] in *.
        destruct rates; cbn in Hy; inversion Hy; subst y; exact Hle.
      * cbn in Hx, Hy. exact (IH (Info', dev') i x y Hd' Hx Hy).
Qed.

(** In a search that starts from a theoretical delay that is not
    negative, the delay never increases: each value of [DelayInSeconds],
    after the reduction of a pass by 1/50, by 1/10 or by the margin of 15%,
    or after it was set to zero on an exit, is at most the value before. *)
Theorem delay_never_increases (freq : Z) (rate theoretical : float)
    (rates : list float) (Results Results1 : PacketDelayResults)
    (dev dev1 : Digitizer) (Info : PacketDelayInfo) (i : nat) (x y : float) :
  (0 <=? theoretical)%float = true ->
  AcquireReferenceFrameRate rate theoretical (zero_info freq, Results, dev)
    = Some (Info, Results1, dev1) ->
  delays rates (Info, dev1) !! i = Some x ->
  delays rates (Info, dev1) !! S i = Some y ->
  (y <=? x)%float = true.
Proof.
  intros H0 Ha. apply AcquireReferenceFrameRate_Some in Ha.
  destruct Ha as (_ & Hd & _ & _ & _ & Ht & _).
  apply delay_ticks_finite in Ht.
  apply delays_decrease. cbn [fst]. rewrite Hd. now apply nonneg_finite_intro.
Qed.

(** The scenario of the three equal rates: the margin leaves less than the
    delay of the third pass. *)
Lemma delay_never_increases_witness :
  (0.00040816999999999996 <=? 0.00048019999999999996)%float = true.
Proof.
  apply (delay_never_increases 1000000 30 0.0005 [30.05; 29.96; 30]%float table
           (mkResults (PixelFormats table) [0; 0; 0] [0; 0; 0]%float
              [30; 0; 0]%float [0; 0; 0]%float 0)
           camera (MdigControl 0 camera) scenario 2);
    vm_compute; reflexivity.
Defined.

(** A positive delay whose reduction is finite is finite. *)
Lemma positive_finite (d : float) :
  (0 <? d)%float = true -> is_finite (Prim2SF (reduce_mismatch d)) = true ->
  nonneg_finite d.
Proof.
  intros Hpos F. apply nonneg_finite_SF.
  unfold reduce_mismatch in F. rewrite sub_spec, div_spec in F.
  rewrite ltb_spec in Hpos.
  change (Prim2SF 0) with (S754_zero false) in Hpos.
  change (Prim2SF 10) with (S754_finite false 5629499534213120 (-49)) in F.
  destruct (Prim2SF d) as [s|[]| |[] m e]; cbn in *; congruence.
Qed.

(** A pass that finds a positive delay and measures a frame rate
    different from the reference leaves a reduced delay that is positive: it
    never takes the exit for a delay that is not positive, and the only way
    it sets [Done] is the error exit for zero ticks, which is tested first. *)
Theorem mismatch_stop_unreachable (measured : float) (Info Info' : PacketDelayInfo)
    (dev dev' : Digitizer) (b : branch) (Done : bool) :
  (0 <? DelayInSeconds Info)%float = true ->
  IsEqual (BaseFrameRate Info) measured = false ->
  iteration measured (Info, dev) = Some (b, Done, (Info', dev')) ->
  (0 <? DelayInSeconds Info - DelayInSeconds Info / 10)%float = true /\
  b <> MismatchNonPositive /\
  (Done = true -> b = MismatchAtZero /\ DelayTickVal Info' = 0 /\ Error Info' = true).
Proof.
  intros Hpos Hne Hit. apply iteration_cases in Hit. cbn zeta in Hit.
  destruct Hit as (_ & _ & _ & HD & Heq & _ & He & Hb).
  rewrite Hne in Heq.
  assert (Ht : exists t, delay_ticks (reduce_mismatch (DelayInSeconds Info))
                           (TickFreq Info) = Some t).
  { destruct b; try discriminate; destruct Hb as (Ht & _); eauto. }
  destruct Ht as [t Ht]. apply delay_ticks_finite in Ht.
  pose proof (positive_finite _ Hpos Ht) as Hd.
  destruct (reduce_mismatch_pos _ Hd Hpos) as [Hpos' Hnle].
  split; [exact Hpos'|].
  destruct b; try discriminate.
  - split; [discriminate|]. intros _. destruct Hb as (_ & _ & Hz & _). auto.
  - destruct Hb as (_ & _ & Hle & _). congruence.
  - split; [discriminate|]. intros ->. discriminate.
Qed.

(** A rate of 25 against a reference of 30, at 500 microseconds. *)
Lemma mismatch_stop_unreachable_witness :
  (0 <? 0.0005 - 0.0005 / 10)%float = true /\
  MismatchReduce <> MismatchNonPositive /\
  (false = true -> MismatchReduce = MismatchAtZero /\ 450 = 0 /\ false = true).
Proof.
  apply (mismatch_stop_unreachable 25 scenario
           (mkInfo 30 25 (0.0005 - 0.0005 / 10) 1000000 450 0 0 false)
           camera (MdigControl 500 camera) MismatchReduce false);
    vm_compute; reflexivity.
Defined.

(** ** A search without undefined behaviour *)

Lemma increment_below (c : Z) : c < 3 -> increment c = Some (c + 1).
Proof.
  intros H. unfold increment.
  destruct (Z.ltb_spec c INT64_MAX) as [|Hge]; [reflexivity|].
  unfold INT64_MAX in Hge. lia.
Qed.

Local Ltac finish H :=
  repeat split; cbn; try lia; try apply nonneg_finite_0; try apply H;
  try assumption; try discriminate.

(** From the state of a search under way a pass has no undefined
    behaviour: it leaves a delay and ticks that are not more, and if the
    loop goes on, the state of a search under way. *)
Lemma iteration_search_state (measured : float) (Info : PacketDelayInfo)
    (dev : Digitizer) :
  search_state Info ->
  exists b Done Info' dev',
    iteration measured (Info, dev) = Some (b, Done, (Info', dev')) /\
    0 <= DelayTickVal Info' <= DelayTickVal Info /\
    nonneg_finite (DelayInSeconds Info') /\
    (DelayInSeconds Info' <=? DelayInSeconds Info)%float = true /\
    programmed dev'
      = programmed_by b (DelayTickVal Info) (DelayTickVal Info') ++ programmed dev /\
    GC_INTER_PACKET_DELAY dev'
      = match b with Converged => DelayTickVal Info' | _ => DelayTickVal Info end /\
    (Done = false ->
     search_state Info' /\ programmed dev' = DelayTickVal Info :: programmed dev).
Proof.
  intros (Hf & Hc & Hd & Ht).
  pose proof (to_uint32_Some _ _ Ht) as [_ Hrange].
  destruct (IsEqual (BaseFrameRate Info) measured) eqn:Heq.
  - rewrite (iteration_match _ _ _ Heq), increment_below by lia.
    cbn [mbind option_bind]. cbn zeta.
    destruct (Z.eqb_spec (DelayTickVal Info) 0) as [Hz|Hnz].
    + eexists _, _, _, _. split; [reflexivity|]. cbn.
      finish Hd.
    + destruct (Z.eqb_spec (EqualityCounter Info + 1) 3) as [H3|H3].
      * destruct (remove_margin_le _ Hd) as [Hd' Hle].
        destruct (delay_ticks_monotone _ _ _ _ Hf Hd' Hle Ht) as (t' & Ht' & Hr').
        rewrite Ht'. cbn [mbind option_bind].
        eexists _, _, _, _. split; [reflexivity|]. cbn.
        finish Hd'.
      * destruct (reduce_match_le _ Hd) as [Hd' Hle].
        destruct (delay_ticks_monotone _ _ _ _ Hf Hd' Hle Ht) as (t' & Ht' & Hr').
        rewrite Ht'. cbn [mbind option_bind].
        eexists _, _, _, _. split; [reflexivity|]. cbn.
        finish Hd'.
  - rewrite (iteration_mismatch _ _ _ Heq). cbn zeta.
    destruct (reduce_mismatch_le _ Hd) as [Hd' Hle].
    destruct (delay_ticks_monotone _ _ _ _ Hf Hd' Hle Ht) as (t' & Ht' & Hr').
    rewrite Ht'. cbn [mbind option_bind].
    destruct (Z.eqb_spec t' 0) as [Hz|Hnz].
    + eexists _, _, _, _. split; [reflexivity|]. cbn.
      finish Hd.
    + destruct (reduce_mismatch (DelayInSeconds Info) <=? 0)%float eqn:Hpos.
      * eexists _, _, _, _. split; [reflexivity|]. cbn.
        finish Hd.
      * eexists _, _, _, _. split; [reflexivity|]. cbn.
        finish Hd'.
Qed.

Lemma leb_nonneg_finite_refl (x : float) : nonneg_finite x -> (x <=? x)%float = true.
Proof.
  intros H. apply nonneg_finite_SF in H. rewrite leb_spec.
  rewrite SFleb_Zval by auto using SFnonneg_finite, Prim2SF_valid.
  apply Z.leb_le. lia.
Qed.

Lemma leb_nonneg_finite_trans (x y z : float) :
  nonneg_finite x -> nonneg_finite y -> nonneg_finite z ->
  (x <=? y)%float = true -> (y <=? z)%float = true -> (x <=? z)%float = true.
Proof.
  intros Hx Hy Hz. apply nonneg_finite_SF in Hx, Hy, Hz. rewrite !leb_spec.
  rewrite !SFleb_Zval by auto using SFnonneg_finite, Prim2SF_valid.
  rewrite !Z.leb_le. lia.
Qed.

Lemma Sorted_snoc (l : list Z) (x : Z) :
  Sorted Z.le l -> Forall (fun v => v <= x) l -> Sorted Z.le (l ++ [x]).
Proof.
  induction 1 as [|a l Hs IH Hhd]; intros HF; cbn.
  - repeat constructor.
  - inversion HF as [|? ? Ha HF']; subst. constructor; [now apply IH|].
    destruct Hhd; cbn; constructor; assumption.
Qed.

(** From the state of a search under way the loop has no undefined
    behaviour, whatever rates are measured. *)
Lemma while_not_Done_search_state (rates : list float) :
  forall (n0 : nat) (Info : PacketDelayInfo) (dev : Digitizer),
  search_state Info ->
  match while_not_Done rates n0 (Info, dev) with
  | Undefined _ => False
  | Running _ (Info', dev') => search_state Info' /\ run_bounds Info Info' dev dev'
  | Exited _ _ (Info', dev') => run_bounds Info Info' dev dev'
  end.
Proof.
  induction rates as [|measured rates IH]; intros n0 Info dev HS.
  - cbn. split; [assumption|]. destruct HS as (Hf & Hc & Hd & Ht).
    pose proof (to_uint32_Some _ _ Ht) as [_ Hr]. unfold UINT32_MAX in Hr.
    repeat split; try lia; try apply Hd; [now apply leb_nonneg_finite_refl|].
    exists []. repeat split; constructor.
  - destruct (iteration_search_state measured Info dev HS)
      as (b & Done & Info1 & dev1 & Hit & Ht1 & Hd1 & Hle1 & Hp & _ & Hgo).
    cbn [while_not_Done]. rewrite Hit.
    destruct Done.
    + split; [assumption|]. split; [assumption|]. split; [assumption|].
      exists (programmed_by b (DelayTickVal Info) (DelayTickVal Info1)).
      split; [assumption|].
      destruct b; cbn; repeat constructor; lia.
    + destruct (Hgo eq_refl) as [HS1 Hp1].
      specialize (IH (S n0) Info1 dev1 HS1).
      destruct HS as (_ & _ & Hd & _).
      assert (Hrun : forall Info' dev',
                 run_bounds Info1 Info' dev1 dev' -> run_bounds Info Info' dev dev').
      { intros Info' dev' (Ht' & Hd' & Hle' & new & Hnew & Hs & HF).
        split; [lia|]. split; [assumption|]. split.
        - now apply (leb_nonneg_finite_trans _ (DelayInSeconds Info1)).
        - exists (new ++ [DelayTickVal Info]). split.
          + rewrite Hnew, Hp1, <- app_assoc. reflexivity.
          + split.
            * apply Sorted_snoc; [assumption|].
              eapply Forall_impl; [exact HF|]. cbn. intros; lia.
            * apply Forall_app. split.
              -- eapply Forall_impl; [exact HF|]. cbn. intros; lia.
              -- repeat constructor; lia. }
      destruct (while_not_Done rates (S n0) (Info1, dev1)) as [n b' [Info' dev']|n [Info' dev']|n];
        [now apply Hrun| |assumption].
      destruct IH as [HS' Hb']. split; [assumption|now apply Hrun].
Qed.

(** [AcquireReferenceFrameRate] on a cleared structure leaves the state of
    a search under way. *)
Lemma AcquireReferenceFrameRate_search_state (freq t : Z) (rate theoretical : float)
    (Results : PacketDelayResults) (dev : Digitizer) :
  0 <= freq -> (0 <=? theoretical)%float = true ->
  delay_ticks theoretical freq = Some t ->
  (Selection Results < length (ReferenceFrameRate Results))%nat ->
  exists Info Results1,
    AcquireReferenceFrameRate rate theoretical (zero_info freq, Results, dev)
      = Some (Info, Results1, MdigControl 0 dev) /\
    search_state Info /\ DelayTickVal Info = t /\ DelayInSeconds Info = theoretical /\
    Error Info = false /\
    Selection Results1 = Selection Results /\
    InterPacketDelayInTicks Results1 = InterPacketDelayInTicks Results /\
    InterPacketDelayInSec Results1 = InterPacketDelayInSec Results /\
    ObtainedFrameRate Results1 = ObtainedFrameRate Results.
Proof.
  intros Hf H0 Ht Hsel. unfold AcquireReferenceFrameRate.
  destruct (decide _) as [_|Hn]; [|contradiction].
  cbn. rewrite Ht. cbn.
  eexists _, _. split; [reflexivity|]. cbn.
  pose proof (nonneg_finite_intro _ H0 (delay_ticks_finite _ _ _ Ht)) as Hd.
  repeat split; cbn; try lia; try apply Hd; try assumption.
Qed.

(** A search that starts from a theoretical delay that is not negative
    and whose ticks fit [MIL_UINT32] has no undefined behaviour, whatever
    frame rates the camera reports: every later cast of the delay to
    [MIL_UINT32] is in range, the counter does not overflow, and the results
    are stored inside the vectors. *)
Theorem search_is_defined (freq t : Z) (rate theoretical : float)
    (rates : list float) (Results : PacketDelayResults) (dev : Digitizer) :
  0 <= freq -> (0 <=? theoretical)%float = true ->
  delay_ticks theoretical freq = Some t ->
  (Selection Results < length (ReferenceFrameRate Results))%nat ->
  (Selection Results < length (InterPacketDelayInTicks Results))%nat ->
  (Selection Results < length (InterPacketDelayInSec Results))%nat ->
  (Selection Results < length (ObtainedFrameRate Results))%nat ->
  MosMain_pass freq rate theoretical rates Results dev <> UndefinedBehaviour.
Proof.
  intros Hf H0 Ht H1 H2 H3 H4.
  destruct (AcquireReferenceFrameRate_search_state freq t rate theoretical Results dev
              Hf H0 Ht H1)
    as (Info & Results1 & Ha & HS & _ & _ & _ & Hsel & Ht1 & Hs1 & Ho1).
  unfold MosMain_pass. rewrite Ha. unfold FindInterPacketDelay.
  pose proof (while_not_Done_search_state rates 0 Info (MdigControl 0 dev) HS) as Hw.
  destruct (while_not_Done rates 0 (Info, MdigControl 0 dev))
    as [n b [Info' dev']|n [Info' dev']|n]; [|discriminate|contradiction].
  unfold store_solution. destruct (Error Info'); [discriminate|].
  cbn zeta. rewrite Hsel, Ht1, Hs1, Ho1.
  destruct (decide _) as [_|Hn]; [discriminate|]. exfalso. apply Hn. auto.
Qed.

Lemma search_is_defined_witness :
  MosMain_pass 1000000 30 0.0005 [30.05; 29.96; 30]%float table camera
    <> UndefinedBehaviour.
Proof.
  apply (search_is_defined 1000000 500 30 0.0005 [30.05; 29.96; 30]%float table camera);
    vm_compute; (reflexivity || lia || discriminate).
Defined.

(** The values that a search programs into the camera never increase:
    each lies between zero and the ticks of the theoretical delay, and each
    is at most the one programmed before it. *)
Theorem programmed_ticks_never_increase (freq t : Z) (rate theoretical : float)
    (rates : list float) (Results Results' : PacketDelayResults)
    (dev dev' : Digitizer) (n : nat) (b : branch) (Info' : PacketDelayInfo) :
  0 <= freq -> (0 <=? theoretical)%float = true ->
  delay_ticks theoretical freq = Some t ->
  MosMain_pass freq rate theoretical rates Results dev
    = Returned n b Info' Results' dev' ->
  exists new : list Z,
    programmed dev' = new ++ 0 :: programmed dev /\
    Sorted Z.le new /\
    Forall (fun v => 0 <= v <= t) new /\
    0 <= DelayTickVal Info' <= t.
Proof.
  intros Hf H0 Ht Hret. unfold MosMain_pass in Hret.
  destruct (AcquireReferenceFrameRate rate theoretical (zero_info freq, Results, dev))
    as [[[Info Results1] dev1]|] eqn:Ha; [|discriminate].
  assert (Hsel : (Selection Results < length (ReferenceFrameRate Results))%nat).
  { unfold AcquireReferenceFrameRate in Ha. destruct (decide _); [assumption|discriminate]. }
  destruct (AcquireReferenceFrameRate_search_state freq t rate theoretical Results dev
              Hf H0 Ht Hsel)
    as (Info0 & Results0 & Ha0 & HS & HT & _).
  rewrite Ha0 in Ha. injection Ha as -> -> <-.
  apply FindInterPacketDelay_Returned in Hret. destruct Hret as [Hw _].
  pose proof (while_not_Done_search_state rates 0 Info (MdigControl 0 dev) HS) as Hb.
  rewrite Hw in Hb. destruct Hb as (Hr & _ & _ & new & Hnew & Hs & HF).
  exists new. rewrite HT in *. repeat split; try assumption; try lia.
  eapply Forall_impl; [exact HF|]. cbn. intros; lia.
Qed.

Lemma programmed_ticks_never_increase_witness :
  exists new : list Z,
    [408; 480; 490; 500; 0] = new ++ [0] /\
    Sorted Z.le new /\
    Forall (fun v => 0 <= v <= 500) new /\
    0 <= 408 <= 500.
Proof.
  apply (programmed_ticks_never_increase 1000000 500 30 0.0005
           [30.05; 29.96; 30]%float table
           (mkResults (PixelFormats table) [408; 0; 0]
              [0.00040816999999999996; 0; 0]%float [30; 0; 0]%float
              [30; 0; 0]%float 0)
           camera
           (MdigControl 408 (MdigControl 480 (MdigControl 490 (MdigControl 500
              (MdigControl 0 camera)))))
           3 Converged (mkInfo 30 30 0.00040816999999999996 1000000 408 0 3 false));
    vm_compute; (reflexivity || lia || discriminate).
Defined.

(** The delay that a search stores as its result is finite, not
    negative and at most the theoretical delay, and so are its ticks against
    the ticks of the theoretical delay. *)
Theorem stored_delay_at_most_theoretical (freq t : Z) (rate theoretical : float)
    (rates : list float) (Results Results' : PacketDelayResults)
    (dev dev' : Digitizer) (n : nat) (b : branch) (Info' : PacketDelayInfo) :
  0 <= freq -> (0 <=? theoretical)%float = true ->
  delay_ticks theoretical freq = Some t ->
  MosMain_pass freq rate theoretical rates Results dev
    = Returned n b Info' Results' dev' ->
  failure b = false ->
  exists (d : float) (v : Z),
    InterPacketDelayInSec Results' !! Selection Results = Some d /\
    InterPacketDelayInTicks Results' !! Selection Results = Some v /\
    nonneg_finite d /\ (d <=? theoretical)%float = true /\ 0 <= v <= t.
Proof.
  intros Hf H0 Ht Hret Hb. unfold MosMain_pass in Hret.
  destruct (AcquireReferenceFrameRate rate theoretical (zero_info freq, Results, dev))
    as [[[Info Results1] dev1]|] eqn:Ha; [|discriminate].
  assert (Hsel : (Selection Results < length (ReferenceFrameRate Results))%nat).
  { unfold AcquireReferenceFrameRate in Ha. destruct (decide _); [assumption|discriminate]. }
  destruct (AcquireReferenceFrameRate_search_state freq t rate theoretical Results dev
              Hf H0 Ht Hsel)
    as (Info0 & Results0 & Ha0 & HS & HT & HD & HE & HSel & _).
  rewrite Ha0 in Ha. injection Ha as -> -> <-.
  apply FindInterPacketDelay_Returned in Hret. destruct Hret as [Hw Hst].
  pose proof (while_not_Done_search_state rates 0 Info (MdigControl 0 dev) HS) as Hbd.
  rewrite Hw in Hbd. destruct Hbd as (Hr & Hd & Hle & _).
  assert (HErr : Error Info' = false).
  { apply while_not_Done_exited in Hw.
    destruct Hw as (k & measured & Info1 & dev1 & _ & _ & Hrun & Hit).
    apply while_not_Done_running in Hrun. destruct Hrun as (_ & _ & _ & HE1 & _).
    apply iteration_cases in Hit. cbn zeta in Hit.
    destruct Hit as (_ & _ & _ & _ & _ & _ & HE' & _).
    rewrite HE', Hb. congruence. }
  apply store_solution_Some in Hst. cbn zeta in Hst.
  destruct Hst as (_ & _ & _ & Hst). rewrite HErr in Hst.
  destruct Hst as (_ & _ & _ & Hti & Hse & _).
  rewrite HSel in Hti, Hse.
  exists (DelayInSeconds Info'), (DelayTickVal Info').
  rewrite HT, HD in *. auto.
Qed.

Lemma stored_delay_at_most_theoretical_witness :
  exists (d : float) (v : Z),
    [0.00040816999999999996; 0; 0]%float !! 0%nat = Some d /\
    [408; 0; 0] !! 0%nat = Some v /\
    nonneg_finite d /\ (d <=? 0.0005)%float = true /\ 0 <= v <= 500.
Proof.
  apply (stored_delay_at_most_theoretical 1000000 500 30 0.0005
           [30.05; 29.96; 30]%float table
           (mkResults (PixelFormats table) [408; 0; 0]
              [0.00040816999999999996; 0; 0]%float [30; 0; 0]%float
              [30; 0; 0]%float 0)
           camera
           (MdigControl 408 (MdigControl 480 (MdigControl 490 (MdigControl 500
              (MdigControl 0 camera)))))
           3 Converged (mkInfo 30 30 0.00040816999999999996 1000000 408 0 3 false));
    vm_compute; (reflexivity || lia || discriminate).
Defined.

(** ** What a stored result stands for *)

(** The streak counts the rates at the end of the list that are equal to
    the reference. *)
Lemma streak_last (base : float) (rates : list float) :
  0 <= streak base rates <= Z.of_nat (length rates) /\
  forall (i : nat) (m : float),
    rates !! i = Some m ->
    Z.of_nat (length rates) - streak base rates <= Z.of_nat i ->
    IsEqual base m = true.
Proof.
  induction rates as [|x rates IH] using rev_ind.
  - cbn. split; [lia|]. intros i m H. now rewrite lookup_nil in H.
  - rewrite streak_snoc, length_app. cbn [length].
    destruct IH as [Hs IH].
    destruct (IsEqual base x) eqn:Hx.
    + split; [lia|]. intros i m Hi Hle.
      destruct (decide (i < length rates)%nat) as [Hlt|Hge].
      * rewrite lookup_app_l in Hi by assumption. apply (IH i m Hi). lia.
      * pose proof (lookup_lt_Some _ _ _ Hi) as Hb.
        rewrite length_app in Hb. cbn [length] in Hb.
        replace i with (length rates) in Hi by lia.
        rewrite lookup_app_r in Hi by lia. rewrite Nat.sub_diag in Hi.
        injection Hi as <-. exact Hx.
    + split; [lia|]. intros i m Hi Hle.
      pose proof (lookup_lt_Some _ _ _ Hi) as Hb.
      rewrite length_app in Hb. cbn [length] in Hb. lia.
Qed.

(** A delay that is neither negative nor positive is one of zero ticks. *)
Lemma delay_ticks_nonpositive (d : float) (freq t : Z) :
  nonneg_finite d -> (d <=? 0)%float = true ->
  delay_ticks d freq = Some t -> t = 0.
Proof.
  intros Hd Hle. apply nonneg_finite_SF in Hd.
  unfold delay_ticks, to_uint32, truncate. rewrite mul_spec.
  rewrite leb_spec in Hle. change (Prim2SF 0) with (S754_zero false) in Hle.
  destruct (Prim2SF d) as [s|s| |[] m e]; try discriminate.
  destruct (Prim2SF (of_uint64 freq)) as [s'|s'| |s' m' e']; cbn;
    first [discriminate | now intros [= <-]].
Qed.

(** A search stores a delay only when it converged, which it does on the
    third of three rates in a row, the last ones it measured, that
    [IsEqual] takes for the reference rate.  The obtained rate that it
    stores is the last of them, and the ticks that it stores are those it
    left in the register of the camera. *)
Theorem stored_result_confirmed (freq t : Z) (rate theoretical : float)
    (rates : list float) (Results Results' : PacketDelayResults)
    (dev dev' : Digitizer) (n : nat) (b : branch) (Info' : PacketDelayInfo) :
  0 <= freq -> (0 <=? theoretical)%float = true ->
  delay_ticks theoretical freq = Some t ->
  MosMain_pass freq rate theoretical rates Results dev
    = Returned n b Info' Results' dev' ->
  failure b = false ->
  b = Converged /\ (3 <= n <= length rates)%nat /\
  (forall i : nat, (n - 3 <= i < n)%nat ->
     exists m : float, rates !! i = Some m /\ IsEqual rate m = true) /\
  ObtainedFrameRate Results' !! Selection Results = rates !! (n - 1)%nat /\
  InterPacketDelayInTicks Results' !! Selection Results
    = Some (GC_INTER_PACKET_DELAY dev').
Proof.
  intros Hf H0 Ht Hret Hb. unfold MosMain_pass in Hret.
  destruct (AcquireReferenceFrameRate rate theoretical (zero_info freq, Results, dev))
    as [[[Info Results1] dev1]|] eqn:Ha; [|discriminate].
  assert (Hsel : (Selection Results < length (ReferenceFrameRate Results))%nat).
  { unfold AcquireReferenceFrameRate in Ha. destruct (decide _); [assumption|discriminate]. }
  destruct (AcquireReferenceFrameRate_search_state freq t rate theoretical Results dev
              Hf H0 Ht Hsel)
    as (Info0 & Results0 & Ha0 & HS & _ & _ & HE & HSel & _).
  pose proof (AcquireReferenceFrameRate_Some _ _ _ _ _ _ _ _ Ha0)
    as (HB & _ & _ & HC & _).
  rewrite Ha0 in Ha. injection Ha as -> -> <-.
  apply FindInterPacketDelay_Returned in Hret. destruct Hret as [Hw Hst].
  pose proof (exit_streak rates n b Info Info' _ dev' HC Hw)
    as (Hn & Hstreak & Hconv & _).
  destruct (while_not_Done_exited _ _ _ _ _ _ _ _ Hw)
    as (k & measured & Info1 & dev1 & Hk & Hlook & Hrun & Hit).
  cbn [Nat.add] in Hk. subst n.
  pose proof (while_not_Done_search_state (take k rates) 0 Info (MdigControl 0 dev) HS)
    as HS1.
  rewrite Hrun in HS1. destruct HS1 as [(_ & _ & Hd1 & _) _].
  apply while_not_Done_running in Hrun. destruct Hrun as (_ & _ & _ & HE1 & _).
  apply iteration_cases in Hit. cbn zeta in Hit.
  destruct Hit as (_ & _ & HP & HD & _ & _ & HE' & Hbr).
  assert (Hbc : b = Converged).
  { destruct b; try discriminate; try reflexivity.
    destruct Hbr as (Htk & Hnz & Hle & _).
    destruct (reduce_mismatch_le _ Hd1) as [Hr _].
    now pose proof (delay_ticks_nonpositive _ _ _ Hr Hle Htk). }
  subst b. split; [reflexivity|].
  specialize (Hconv eq_refl). rewrite Hconv, HB in Hstreak.
  destruct (streak_last rate (take (S k) rates)) as [Hlen Hlast].
  rewrite <- Hstreak in Hlen, Hlast.
  rewrite length_take in Hlen, Hlast.
  split; [lia|]. split.
  { intros i Hi.
    destruct (lookup_lt_is_Some_2 rates i ltac:(lia)) as [m Hm].
    exists m. split; [exact Hm|].
    apply (Hlast i m); [|lia].
    rewrite lookup_take_lt by lia. exact Hm. }
  apply store_solution_Some in Hst. cbn zeta in Hst.
  destruct Hst as (_ & _ & _ & Hst).
  rewrite HE', HE1, HE in Hst. cbn [failure] in Hst.
  destruct Hst as (_ & _ & _ & Hti & _ & Hob).
  rewrite HSel in Hti, Hob.
  split.
  - rewrite Hob, HP. cbn [Nat.sub]. rewrite Nat.sub_0_r. now rewrite Hlook.
  - rewrite Hti. destruct Hbr as (_ & _ & _ & _ & ->). reflexivity.
Qed.

(** The scenario of three equal rates. *)
Lemma stored_result_confirmed_witness :
  Converged = Converged /\ (3 <= 3 <= length [30.05; 29.96; 30]%float)%nat /\
  (forall i : nat, (3 - 3 <= i < 3)%nat ->
     exists m : float, [30.05; 29.96; 30]%float !! i = Some m /\ IsEqual 30 m = true) /\
  [30; 0; 0]%float !! Selection table = [30.05; 29.96; 30]%float !! (3 - 1)%nat /\
  [408; 0; 0] !! Selection table
    = Some (GC_INTER_PACKET_DELAY
              (MdigControl 408 (MdigControl 480 (MdigControl 490 (MdigControl 500
                 (MdigControl 0 camera)))))).
Proof.
  apply (stored_result_confirmed 1000000 500 30 0.0005
           [30.05; 29.96; 30]%float table
           (mkResults (PixelFormats table) [408; 0; 0]
              [0.00040816999999999996; 0; 0]%float [30; 0; 0]%float
              [30; 0; 0]%float 0)
           camera
           (MdigControl 408 (MdigControl 480 (MdigControl 490 (MdigControl 500
              (MdigControl 0 camera)))))
           3 Converged (mkInfo 30 30 0.00040816999999999996 1000000 408 0 3 false));
    vm_compute; (reflexivity || lia || discriminate).
Defined.

(** ** Every search ends *)

(** Every multiple of [2 ^ e] by less than [2 ^ 53] has a canonical form. *)
Lemma representable (k e : Z) :
  0 < k < 2 * K52 -> -1074 <= e ->
  exists m' e' : Z, 0 < m' /\ canonical m' e' /\ e' <= e /\ m' * P e' = k * P e.
Proof.
  intros [Hk0 Hk] He.
  assert (Hd : 1 <= Zdigits2 k <= 53).
  { split.
    - rewrite Zdigits2_log2 by lia. pose proof (Z.log2_nonneg k). lia.
    - apply Zdigits2_le_pow2; [lia|]. change (2 ^ 53) with (2 * K52). lia. }
  set (j := Z.min (53 - Zdigits2 k) (e + 1074)).
  assert (Hj : 0 <= j) by (unfold j; lia).
  exists (k * 2 ^ j), (e - j).
  assert (Hpj : 0 < 2 ^ j) by (apply Z.pow_pos_nonneg; lia).
  split; [nia|]. split; [|split; [lia|]].
  - unfold canonical. rewrite Zdigits2_mul_pow2 by lia. unfold fx, j. lia.
  - replace (P e) with (P (e - j) * 2 ^ j); [ring|].
    rewrite <- P_add by (unfold j; lia). f_equal. lia.
Qed.

Lemma representable_float (k e : Z) :
  0 < k < 2 * K52 -> -1074 <= e <= 971 ->
  exists B : spec_float,
    valid_binary B = true /\ is_finite B = true /\ Zval B = k * P e.
Proof.
  intros Hk He.
  destruct (representable k e Hk ltac:(lia)) as (m' & e' & Hm & Hc & He' & Hv).
  exists (rounded_float false m' e').
  destruct (rounded_float_cases false m' e' ltac:(lia) Hc)
    as [(F & V & Z' & _)|(_ & _ & Hbig)]; [|lia].
  cbn [cond_Zopp] in Z'. rewrite Z', Hv. auto.
Qed.

(** The quotient of a finite float that is not negative by a float between
    1 and 64 lies between a 64th of it, rounded down in its last place, and
    the float itself. *)
Lemma SFdiv_between (mx mc : positive) (ex ec : Z) :
  valid_binary (S754_finite false mx ex) = true ->
  valid_binary (S754_finite false mc ec) = true ->
  ec <= 0 -> 2 ^ (- ec) <= Zpos mc <= 64 * 2 ^ (- ec) ->
  let Q := SF64div (S754_finite false mx ex) (S754_finite false mc ec) in
  valid_binary Q = true /\ SFnonneg Q = true /\
  Zpos mx / 64 * P ex <= Zval Q <= Zpos mx * P ex.
Proof.
  intros VX VC Hec [Hc1 Hc64] Q.
  destruct (SFdiv_nonneg_le (S754_finite false mx ex) mc ec VX eq_refl VC Hec Hc1)
    as (VQ & NQ & HQ).
  fold Q in VQ, NQ, HQ. cbn [Zval cond_Zopp] in HQ.
  split; [assumption|]. split; [assumption|]. split; [|assumption].
  pose proof (SFnonneg_Zval Q VQ NQ) as HQ0.
  pose proof (valid_exponent _ _ _ VX) as Hex.
  destruct (valid_canonical _ _ _ VX) as [Hcx Hex'].
  pose proof (valid_exponent _ _ _ VC) as Hec'.
  destruct (valid_canonical _ _ _ VC) as [Hcc Hec''].
  destruct (canonical_bounds (Zpos mx) ex ltac:(lia) Hcx) as (_ & Hmx & _).
  pose proof (P_pos ex ltac:(lia)) as HP.
  assert (Hk : 0 <= Zpos mx / 64) by (apply Z.div_pos; lia).
  assert (Hk64 : 64 * (Zpos mx / 64) <= Zpos mx)
    by (apply Z.mul_div_le; lia).
  destruct (Z.eq_dec (Zpos mx / 64) 0) as [E0|Hne]; [rewrite E0; lia|].
  destruct (representable (Zpos mx / 64) ex ltac:(lia) ltac:(lia))
    as (m' & e' & Hm' & Hc' & He' & Hv).
  unfold Q in *.
  destruct (SFdiv_bounds mx mc ex ec ltac:(lia) ltac:(lia) false false)
    as (M & E & HM & HcM & HQe & Hb).
  cbn [xorb] in HQe. rewrite HQe in *.
  assert (Hlo : m' * P e' <= M * P E).
  { apply Hb; [lia|assumption|]. rewrite Hv.
    replace (P (ex - ec)) with (P ex * 2 ^ (- ec))
      by (rewrite <- P_add by lia; f_equal; lia).
    assert (Hpow : 0 < 2 ^ (- ec)) by (apply Z.pow_pos_nonneg; lia).
    assert (H1 : Zpos mc * (Zpos mx / 64) <= 2 ^ (- ec) * Zpos mx).
    { apply Z.le_trans with (64 * 2 ^ (- ec) * (Zpos mx / 64)).
      - apply Z.mul_le_mono_nonneg_r; lia.
      - replace (64 * 2 ^ (- ec) * (Zpos mx / 64))
          with (2 ^ (- ec) * (64 * (Zpos mx / 64))) by ring.
        apply Z.mul_le_mono_nonneg_l; lia. }
    replace (Zpos mc * (Zpos mx / 64 * P ex)) with (Zpos mc * (Zpos mx / 64) * P ex) by ring.
    replace (Zpos mx * (P ex * 2 ^ (- ec))) with (2 ^ (- ec) * Zpos mx * P ex) by ring.
    apply Z.mul_le_mono_nonneg_r; lia. }
  destruct (rounded_float_cases false M E HM HcM) as [(_ & _ & Z' & _)|(Hinf & _)].
  - cbn [cond_Zopp] in Z'. rewrite Z', <- Hv. exact Hlo.
  - rewrite Hinf in NQ. discriminate.
Qed.

(** A reduction of the loop leaves at most 64/65 of a delay whose mantissa
    has twelve bits or more. *)
Lemma reduce_ratio (d c : float) (mc m : positive) (ec e : Z) :
  Prim2SF c = S754_finite false mc ec ->
  ec <= 0 -> 2 ^ (- ec) <= Zpos mc <= 64 * 2 ^ (- ec) ->
  Prim2SF d = S754_finite false m e -> 4095 <= Zpos m ->
  65 * Zval (Prim2SF (d - d / c)) <= 64 * Zval (Prim2SF d).
Proof.
  intros Hc Hec Hc64 Hd Hm.
  assert (Nd : nonneg_finite d) by (apply nonneg_finite_SF; now rewrite Hd).
  destruct (reduce_le d c mc ec Hc Hec ltac:(lia) Nd) as [Nr _].
  apply nonneg_finite_SF in Nr.
  pose proof (Prim2SF_valid (d - d / c)) as Vr.
  rewrite sub_spec, div_spec, Hc, Hd in *.
  pose proof (Prim2SF_valid_finite d _ _ _ Hd) as VX.
  pose proof (Prim2SF_valid_finite c _ _ _ Hc) as VC.
  destruct (SFdiv_between m mc e ec VX VC Hec Hc64) as (VQ & NQ & HQlo & HQhi).
  set (Q := SF64div (S754_finite false m e) (S754_finite false mc ec)) in *.
  pose proof (valid_exponent _ _ _ VX) as Hex.
  destruct (valid_canonical _ _ _ VX) as [Hcx Hex'].
  destruct (canonical_bounds (Zpos m) e ltac:(lia) Hcx) as (_ & Hmhi & _).
  pose proof (P_pos e ltac:(lia)) as HP.
  assert (Hk64 : 64 * (Zpos m / 64) <= Zpos m) by (apply Z.mul_div_le; lia).
  assert (Hk64' : Zpos m < 64 * (Zpos m / 64) + 64).
  { pose proof (Z.div_mod (Zpos m) 64 ltac:(lia)).
    pose proof (Z.mod_pos_bound (Zpos m) 64 ltac:(lia)). lia. }
  destruct (representable_float (Zpos m - Zpos m / 64) e ltac:(lia) ltac:(lia))
    as (B & VB & FB & ZB).
  destruct (SFsub_monotone (S754_finite false m e) Q B VX VQ VB eq_refl
              (SFnonneg_finite Q NQ) FB) as [Hup _].
  assert (Hle : SFleb (SF64sub (S754_finite false m e) Q) B = true).
  { apply Hup. cbn [Zval cond_Zopp]. rewrite ZB. nia. }
  rewrite SFleb_Zval in Hle by auto using SFnonneg_finite. apply Z.leb_le in Hle.
  cbn [Zval cond_Zopp] in *. rewrite ZB in Hle.
  assert (65 * ((Zpos m - Zpos m / 64) * P e) <= 64 * (Zpos m * P e)).
  { replace (65 * ((Zpos m - Zpos m / 64) * P e)) with (65 * (Zpos m - Zpos m / 64) * P e) by ring.
    replace (64 * (Zpos m * P e)) with (64 * Zpos m * P e) by ring.
    apply Z.mul_le_mono_nonneg_r; lia. }
  lia.
Qed.

Lemma of_uint64_spec (n : Z) :
  0 <= n -> Prim2SF (of_uint64 n) = binary_normalize prec emax n 0 false.
Proof.
  intros Hn. unfold of_uint64. destruct n as [|p|p]; [reflexivity| |lia].
  cbn [binary_normalize].
  destruct (binary_round_bounds false p 0 ltac:(lia)) as (M & E & HM & Hc & -> & _).
  now rewrite Prim2SF_SF2Prim by now apply rounded_float_valid.
Qed.

(** The double of a [MIL_UINT64] is at most [2 ^ 64]. *)
Lemma of_uint64_upper (n : Z) :
  0 <= n < 2 ^ 64 -> is_finite (Prim2SF (of_uint64 n)) = true ->
  Zval (Prim2SF (of_uint64 n)) <= P 64.
Proof.
  intros Hn F. pose proof (Prim2SF_valid (of_uint64 n)) as V.
  rewrite of_uint64_spec in * by lia.
  destruct (binary_normalize_monotone n 0 (S754_finite false 4503599627370496 12)
              ltac:(lia) eq_refl eq_refl) as [Hup _].
  assert (HB : Zval (S754_finite false 4503599627370496 12) = P 64).
  { cbn [Zval cond_Zopp]. change 4503599627370496 with (2 ^ 52).
    unfold P. rewrite <- Z.pow_add_r by lia. reflexivity. }
  rewrite HB in Hup.
  assert (HP : P 64 = 2 ^ 64 * P 0).
  { unfold P. rewrite <- Z.pow_add_r by lia. reflexivity. }
  pose proof (P_pos 0 ltac:(lia)) as HP0.
  specialize (Hup ltac:(rewrite HP; apply Z.mul_le_mono_nonneg_r; lia)).
  rewrite SFleb_Zval in Hup by auto. apply Z.leb_le in Hup. now rewrite <- HB.
Qed.

(** The tick frequency of a defined conversion is a finite double. *)
Lemma delay_ticks_frequency (d : float) (freq t : Z) :
  0 <= freq -> delay_ticks d freq = Some t ->
  SFnonneg (Prim2SF (of_uint64 freq)) = true.
Proof.
  intros Hf Ht. pose proof (of_uint64_nonneg freq Hf) as NF.
  pose proof (delay_ticks_finite _ _ _ Ht) as FD.
  unfold delay_ticks in Ht. apply to_uint32_Some in Ht. destruct Ht as [Ht _].
  apply truncate_finite in Ht. rewrite mul_spec in Ht.
  destruct (Prim2SF (of_uint64 freq)) as [s|[]| |[] m e]; try discriminate;
    try reflexivity.
  exfalso. destruct (Prim2SF d) as [s|[]| |[] m e]; discriminate.
Qed.

(** What defined ticks say of the exact product of the delay and of the
    frequency: it is less than [2 ^ 32], and more than one half when the
    ticks are not zero. *)
Lemma delay_ticks_product (d : float) (freq t : Z) :
  nonneg_finite d -> 0 <= freq -> delay_ticks d freq = Some t ->
  let V := Zval (Prim2SF d) in
  let VF := Zval (Prim2SF (of_uint64 freq)) in
  V * VF < P 32 * P 0 /\ (t <> 0 -> P (-1) * P 0 < V * VF).
Proof.
  intros Nd Hf Ht V VF.
  pose proof (delay_ticks_frequency d freq t Hf Ht) as NF.
  apply nonneg_finite_SF in Nd.
  pose proof (Prim2SF_valid d) as VX.
  pose proof (Prim2SF_valid (of_uint64 freq)) as VFv.
  pose proof (Prim2SF_valid (d * of_uint64 freq)) as VR.
  unfold delay_ticks in Ht. apply to_uint32_Some in Ht. destruct Ht as [Ht Hr].
  pose proof (truncate_finite _ _ Ht) as FR.
  pose proof (P_pos 0 ltac:(lia)) as HP0.
  pose proof (P_pos 32 ltac:(lia)) as HP32.
  pose proof (P_pos (-1) ltac:(lia)) as HPm1.
  assert (H32 : P 32 = 2 ^ 32 * P 0).
  { unfold P. rewrite <- Z.pow_add_r by lia. reflexivity. }
  assert (Hm1 : P (-1) < P 0).
  { unfold P. apply Z.pow_lt_mono_r; lia. }
  assert (NR : SFnonneg (Prim2SF (d * of_uint64 freq)) = true).
  { rewrite mul_spec in *.
    destruct (Prim2SF (of_uint64 freq)) as [s|[]| |[] mf ef] eqn:EF;
      try discriminate NF.
    - destruct (Prim2SF d) as [s'|[]| |[] m' e']; try discriminate Nd; reflexivity.
    - pose proof (SFmul_nonneg_ext _ mf ef VX Nd VFv) as Hn.
      destruct (SF64mul (Prim2SF d) (S754_finite false mf ef)) as [s'|[]| |[] m' e'];
        try discriminate Hn; try discriminate FR; reflexivity. }
  rewrite truncate_Zval in Ht by assumption. injection Ht as Ht.
  rewrite mul_spec in *. unfold V, VF. clear V VF.
  destruct (Prim2SF d) as [sx|[]| |[] mx ex] eqn:EX; try discriminate Nd.
  { cbn [Zval]. split; [lia|].
    intros Hne. exfalso. apply Hne. subst t.
    destruct (Prim2SF (of_uint64 freq)) as [s|[]| |[] mf ef]; try discriminate NF;
      cbn; apply Z.div_0_l; lia. }
  destruct (Prim2SF (of_uint64 freq)) as [sf|[]| |[] mf ef] eqn:EF;
    try discriminate NF.
  { cbn [Zval]. split; [lia|].
    intros Hne. exfalso. apply Hne. subst t. cbn. apply Z.div_0_l; lia. }
  destruct (valid_canonical _ _ _ VX) as [Hcx _].
  destruct (valid_canonical _ _ _ VFv) as [Hcf _].
  destruct (canonical_bounds (Zpos mx) ex ltac:(lia) Hcx) as (Hex & _).
  destruct (canonical_bounds (Zpos mf) ef ltac:(lia) Hcf) as (Hef & _).
  destruct (SFmul_bounds mx mf ex ef Hcx Hcf false false) as (M & E & HM & Hc & HR & Hb).
  cbn [xorb] in HR. rewrite HR in *.
  destruct (rounded_float_cases false M E HM Hc) as [(_ & _ & Z' & _)|(Hinf & _)];
    [|rewrite Hinf in FR; discriminate FR].
  cbn [cond_Zopp] in Z'. rewrite Z' in Ht.
  cbn [Zval cond_Zopp].
  assert (Hexact : Zpos mx * P ex * (Zpos mf * P ef)
                   = Zpos mx * Zpos mf * P (ex + ef) * P 0).
  { rewrite <- !Z.mul_assoc, (P_sum ex ef) by lia. ring. }
  rewrite Hexact. split.
  - apply Z.mul_lt_mono_pos_r; [assumption|].
    destruct (Z.lt_ge_cases (Zpos mx * Zpos mf * P (ex + ef)) (P 32)) as [|Hge];
      [assumption|exfalso].
    destruct (Hb K52 (-20) K52_pos (canonical_K52 (-20) ltac:(lia))) as [_ Hlo].
    rewrite K52_P in Hlo by lia. change (-20 + 52) with 32 in Hlo.
    specialize (Hlo ltac:(lia)).
    assert (2 ^ 32 <= M * P E / P 0).
    { apply Z.div_le_lower_bound; lia. }
    unfold UINT32_MAX in Hr. lia.
  - intros Hne. apply Z.mul_lt_mono_pos_r; [assumption|].
    destruct (Z.lt_ge_cases (P (-1)) (Zpos mx * Zpos mf * P (ex + ef))) as [|Hge];
      [assumption|exfalso].
    destruct (Hb K52 (-53) K52_pos (canonical_K52 (-53) ltac:(lia))) as [Hup _].
    rewrite K52_P in Hup by lia. change (-53 + 52) with (-1) in Hup.
    specialize (Hup ltac:(lia)).
    assert (M * P E / P 0 = 0) by (apply Z.div_small; pose proof (canonical_value_pos M E HM Hc); lia).
    lia.
Qed.

(** Scaled by [2 ^ 33], 64/65 to the power 1476 is less than one. *)
Lemma power_bound (k : Z) : 1476 <= k -> 64 ^ k * 2 ^ 33 <= 65 ^ k.
Proof.
  intros Hk. replace k with (1476 + (k - 1476)) by lia.
  rewrite !Z.pow_add_r by lia.
  assert (Hbase : 64 ^ 1476 * 2 ^ 33 <= 65 ^ 1476).
  { apply Z.leb_le. vm_compute. reflexivity. }
  assert (Hstep : 64 ^ (k - 1476) <= 65 ^ (k - 1476)) by (apply Z.pow_le_mono_l; lia).
  assert (H64 : 0 <= 64 ^ (k - 1476)) by (apply Z.pow_nonneg; lia).
  assert (H65 : 0 <= 65 ^ 1476) by (apply Z.pow_nonneg; lia).
  set (A := 64 ^ 1476) in *. set (B := 65 ^ 1476) in *.
  set (C := 64 ^ (k - 1476)) in *. set (D := 65 ^ (k - 1476)) in *.
  set (T := 2 ^ 33) in *.
  apply Z.le_trans with (B * C).
  - replace (A * C * T) with (A * T * C) by ring.
    apply Z.mul_le_mono_nonneg_r; assumption.
  - apply Z.mul_le_mono_nonneg_l; assumption.
Qed.

(** A pass after which the loop goes on found ticks that were not zero, and
    leaves at most 64/65 of the delay. *)
Lemma continuing_pass_ratio (measured : float) (Info Info' : PacketDelayInfo)
    (dev dev' : Digitizer) (b : branch) :
  search_state Info -> TickFreq Info < 2 ^ 64 ->
  iteration measured (Info, dev) = Some (b, false, (Info', dev')) ->
  let V := Zval (Prim2SF (DelayInSeconds Info)) in
  let V' := Zval (Prim2SF (DelayInSeconds Info')) in
  let VF := Zval (Prim2SF (of_uint64 (TickFreq Info))) in
  P (-1) * P 0 < V * VF /\ 65 * V' <= 64 * V.
Proof.
  intros (Hf & Hc & Hd & Ht) Hf64 Hit V V' VF.
  pose proof Hit as Hcases. apply iteration_cases in Hcases. cbn zeta in Hcases.
  destruct Hcases as (_ & _ & _ & HDone & _ & _ & _ & Hb).
  assert (Htn : DelayTickVal Info <> 0).
  { destruct b; try discriminate.
    - now destruct Hb as (Hnz & _).
    - destruct Hb as (Ht' & Hnz & _).
      destruct (reduce_mismatch_le _ Hd) as [Hd' Hle].
      destruct (delay_ticks_monotone _ _ _ _ Hf Hd' Hle Ht) as (t' & Ht'' & Hr').
      rewrite Ht' in Ht''. injection Ht'' as <-. lia. }
  destruct (delay_ticks_product _ _ _ Hd Hf Ht) as [_ Hlow].
  specialize (Hlow Htn). fold V VF in Hlow.
  split; [exact Hlow|].
  pose proof (delay_ticks_frequency _ _ _ Hf Ht) as NF.
  pose proof (of_uint64_upper (TickFreq Info) ltac:(lia) (SFnonneg_finite _ NF)) as HF64.
  fold VF in HF64.
  pose proof (SFnonneg_Zval _ (Prim2SF_valid _) NF) as HF0. fold VF in HF0.
  pose proof Hd as Nd. apply nonneg_finite_SF in Nd.
  pose proof (Prim2SF_valid (DelayInSeconds Info)) as VX.
  unfold V, V' in *. clear V V'.
  destruct (Prim2SF (DelayInSeconds Info)) as [s|[]| |[] m e] eqn:ED;
    try (discriminate Nd).
  { exfalso. cbn [Zval] in Hlow. rewrite Z.mul_0_l in Hlow.
    assert (0 < P (-1) * P 0) by (apply Z.mul_pos_pos; apply P_pos; lia). lia. }
  destruct (valid_canonical _ _ _ VX) as [Hcx _].
  destruct (canonical_bounds (Zpos m) e ltac:(lia) Hcx) as (He & Hmhi & Hmlo).
  assert (Hm : 4095 <= Zpos m).
  { destruct (Z.eq_dec e (-1074)) as [->|Hne].
    - exfalso. cbn [Zval cond_Zopp] in Hlow.
      assert (Hbig : 2 * K52 * P (-1074) * P 64 <= P (-1) * P 0).
      { unfold P, K52. change 2 with (2 ^ 1) at 1.
        rewrite <- !Z.pow_add_r by lia. apply Z.pow_le_mono_r; lia. }
      pose proof (P_pos (-1074) ltac:(lia)) as HP1. pose proof (P_pos 64 ltac:(lia)) as HP64.
      assert (Zpos m * P (-1074) * VF <= 2 * K52 * P (-1074) * P 64).
      { apply Z.mul_le_mono_nonneg; try lia.
        apply Z.mul_le_mono_nonneg_r; lia. }
      lia.
    - specialize (Hmlo ltac:(lia)). unfold K52 in Hmlo. lia. }
  destruct b; try discriminate.
  - destruct Hb as (_ & _ & -> & _). unfold reduce_match. rewrite <- ED.
    apply (reduce_ratio _ 50 7036874417766400 m (-47) e); try assumption;
      try reflexivity; lia.
  - destruct Hb as (_ & _ & _ & -> & _). unfold reduce_mismatch. rewrite <- ED.
    apply (reduce_ratio _ 10 5629499534213120 m (-49) e); try assumption;
      try reflexivity; lia.
Qed.

(** After [k] passes that each left at most 64/65 of the delay, the loop
    exits before the pass limit. *)
Lemma while_not_Done_exits (rates : list float) :
  forall (n0 k : nat) (Info : PacketDelayInfo) (dev : Digitizer) (V0 : Z),
  search_state Info -> TickFreq Info < 2 ^ 64 ->
  (k < pass_limit)%nat ->
  65 ^ Z.of_nat k * Zval (Prim2SF (DelayInSeconds Info)) <= 64 ^ Z.of_nat k * V0 ->
  V0 * Zval (Prim2SF (of_uint64 (TickFreq Info))) < P 32 * P 0 ->
  (pass_limit <= k + length rates)%nat ->
  exists (n : nat) (b : branch) (s' : PacketDelayInfo * Digitizer),
    while_not_Done rates n0 (Info, dev) = Exited n b s' /\
    (n + k <= n0 + pass_limit)%nat.
Proof.
  induction rates as [|measured rates IH]; intros n0 k Info dev V0 HS Hf64 Hk HV HV0 Hlen.
  - cbn [length] in Hlen. lia.
  - destruct (iteration_search_state measured Info dev HS)
      as (b & Done & Info1 & dev1 & Hit & _ & _ & _ & _ & _ & Hgo).
    cbn [while_not_Done]. rewrite Hit. destruct Done.
    + exists (S n0), b, (Info1, dev1). split; [reflexivity|]. lia.
    + destruct (Hgo eq_refl) as [HS1 _].
      destruct (continuing_pass_ratio _ _ _ _ _ _ HS Hf64 Hit) as [Hlow Hratio].
      pose proof Hit as Hc. apply iteration_cases in Hc. cbn zeta in Hc.
      destruct Hc as (_ & HT & _).
      set (V := Zval (Prim2SF (DelayInSeconds Info))) in *.
      set (V1 := Zval (Prim2SF (DelayInSeconds Info1))) in *.
      set (VF := Zval (Prim2SF (of_uint64 (TickFreq Info)))) in *.
      assert (HF0 : 0 <= VF).
      { destruct HS as (Hf & _ & _ & Ht).
        apply SFnonneg_Zval; [apply Prim2SF_valid|].
        exact (delay_ticks_frequency _ _ _ Hf Ht). }
      set (a := 65 ^ Z.of_nat k) in *. set (c := 64 ^ Z.of_nat k) in *.
      assert (Ha : 0 < a) by (apply Z.pow_pos_nonneg; lia).
      assert (Hc0 : 0 < c) by (apply Z.pow_pos_nonneg; lia).
      pose proof (P_pos (-1) ltac:(lia)) as HPm1. pose proof (P_pos 0 ltac:(lia)) as HP0.
      assert (H33 : P 32 = 2 ^ 33 * P (-1)).
      { unfold P. rewrite <- Z.pow_add_r by lia. reflexivity. }
      assert (Hlt : a < c * 2 ^ 33).
      { assert (H1 : a * (P (-1) * P 0) < a * (V * VF))
          by (apply Z.mul_lt_mono_pos_l; assumption).
        assert (H2 : a * V * VF <= c * V0 * VF)
          by (apply Z.mul_le_mono_nonneg_r; assumption).
        assert (H3 : c * (V0 * VF) < c * (P 32 * P 0))
          by (apply Z.mul_lt_mono_pos_l; assumption).
        assert (H4 : a * (P (-1) * P 0) < c * 2 ^ 33 * (P (-1) * P 0)).
        { rewrite H33 in H3. lia. }
        apply Z.mul_lt_mono_pos_r in H4; [assumption|].
        apply Z.mul_pos_pos; assumption. }
      assert (Hk' : (S k < pass_limit)%nat).
      { destruct (Nat.lt_ge_cases (S k) pass_limit) as [|Hge]; [assumption|exfalso].
        pose proof (power_bound (Z.of_nat k) ltac:(unfold pass_limit in Hge; lia)).
        fold a c in H. lia. }
      destruct (IH (S n0) (S k) Info1 dev1 V0 HS1) as (n & b' & s' & Hw & Hn);
        try assumption.
      * rewrite HT. assumption.
      * fold V1. rewrite Nat2Z.inj_succ, !Z.pow_succ_r by lia. fold a c.
        assert (65 * a * V1 <= 64 * a * V).
        { replace (65 * a * V1) with (a * (65 * V1)) by ring.
          replace (64 * a * V) with (a * (64 * V)) by ring.
          apply Z.mul_le_mono_nonneg_l; lia. }
        assert (64 * (a * V) <= 64 * (c * V0)) by lia.
        lia.
      * rewrite HT. assumption.
      * cbn [length] in Hlen. lia.
      * exists n, b', s'. split; [assumption|lia].
Qed.

(** Every search ends: from a theoretical delay that is not negative and
    whose ticks fit [MIL_UINT32], and a tick frequency that a [MIL_UINT64]
    holds, the loop of [FindInterPacketDelay] exits within the pass limit,
    whatever frame rates the camera reports, and the search returns. *)
Theorem search_returns (freq t : Z) (rate theoretical : float)
    (rates : list float) (Results : PacketDelayResults) (dev : Digitizer) :
  0 <= freq < 2 ^ 64 -> (0 <=? theoretical)%float = true ->
  delay_ticks theoretical freq = Some t ->
  (Selection Results < length (ReferenceFrameRate Results))%nat ->
  (Selection Results < length (InterPacketDelayInTicks Results))%nat ->
  (Selection Results < length (InterPacketDelayInSec Results))%nat ->
  (Selection Results < length (ObtainedFrameRate Results))%nat ->
  (pass_limit <= length rates)%nat ->
  exists (n : nat) (b : branch) (Info' : PacketDelayInfo)
         (Results' : PacketDelayResults) (dev' : Digitizer),
    MosMain_pass freq rate theoretical rates Results dev
      = Returned n b Info' Results' dev' /\
    (n <= pass_limit)%nat.
Proof.
  intros Hf H0 Ht H1 H2 H3 H4 Hlen.
  destruct (AcquireReferenceFrameRate_search_state freq t rate theoretical Results dev
              ltac:(lia) H0 Ht H1)
    as (Info & Results1 & Ha & HS & HT & HD & _ & Hsel & Ht1 & Hs1 & Ho1).
  assert (HF : TickFreq Info = freq).
  { apply AcquireReferenceFrameRate_Some in Ha. now destruct Ha as (_ & _ & -> & _). }
  pose proof HS as (Hf' & Hc & Hd & Htk).
  destruct (delay_ticks_product _ _ _ Hd Hf' Htk) as [Hup _].
  destruct (while_not_Done_exits rates 0 0 Info (MdigControl 0 dev)
              (Zval (Prim2SF (DelayInSeconds Info))))
    as (n & b & [Info' dev'] & Hw & Hn); try assumption.
  - rewrite HF. lia.
  - unfold pass_limit. lia.
  - cbn. lia.
  - unfold MosMain_pass. rewrite Ha. unfold FindInterPacketDelay. rewrite Hw.
    unfold store_solution. destruct (Error Info').
    + eexists _, _, _, _, _. split; [reflexivity|lia].
    + cbn zeta. rewrite Hsel, Ht1, Hs1, Ho1.
      destruct (decide _) as [_|Hno]; [|exfalso; apply Hno; auto].
      eexists _, _, _, _, _. split; [reflexivity|lia].
Qed.

(** A camera that never reaches the reference again: the search ends. *)
Lemma search_returns_witness :
  exists (n : nat) (b : branch) (Info' : PacketDelayInfo)
         (Results' : PacketDelayResults) (dev' : Digitizer),
    MosMain_pass 1000000 30 0.0005 (replicate pass_limit 25%float) table camera
      = Returned n b Info' Results' dev' /\
    (n <= pass_limit)%nat.
Proof.
  apply (search_returns 1000000 500 30 0.0005 (replicate pass_limit 25%float) table camera);
    first [lia | vm_compute; first [reflexivity | lia | discriminate]].
Defined.

(** ** The tolerance of the equality test *)

(** The multiples of a power of two with a mantissa of 53 bits at most are
    floats, zero included. *)
Lemma representable_float_0 (k e : Z) :
  0 <= k < 2 * K52 -> -1074 <= e <= 971 ->
  exists B : spec_float,
    valid_binary B = true /\ is_finite B = true /\ Zval B = k * P e.
Proof.
  intros Hk He. destruct (Z.eq_dec k 0) as [->|Hn].
  - exists (S754_zero false). auto.
  - apply representable_float; lia.
Qed.

(** The value of a finite float as a rational number, in the other
    direction. *)
Lemma Zval_bounds (A : float) (a : Q) :
  value A = Some a -> (0 <= a <= 1000000)%Q ->
  is_finite (Prim2SF A) = true /\ 0 <= Zval (Prim2SF A) < P 20.
Proof.
  intros Ha [H0 H1].
  destruct (SF2Q_Zval _ _ (Prim2SF_valid A) Ha) as [FA EA].
  split; [assumption|].
  pose proof (P_pos 0 ltac:(lia)) as HP.
  assert (Hp0 : (0 <= inject_Z (P 0))%Q)
    by (change 0%Q with (inject_Z 0); rewrite <- Zle_Qle; lia).
  pose proof (Qmult_le_compat_r _ _ _ H0 Hp0) as L0.
  pose proof (Qmult_le_compat_r _ _ _ H1 Hp0) as L1.
  rewrite EA in L0, L1.
  rewrite Qmult_0_l in L0. change 0%Q with (inject_Z 0) in L0.
  rewrite <- Zle_Qle in L0.
  change (1000000%Q) with (inject_Z 1000000) in L1.
  rewrite <- inject_Z_mult, <- Zle_Qle in L1.
  replace (P 20) with (P 0 * 2 ^ 20) by (rewrite <- P_add by lia; reflexivity).
  change (2 ^ 20) with 1048576. lia.
Qed.

Lemma IsEqual_Zval_bound (A B : float) :
  is_finite (Prim2SF A) = true -> is_finite (Prim2SF B) = true ->
  0 <= Zval (Prim2SF A) < P 20 -> 0 <= Zval (Prim2SF B) < P 20 ->
  IsEqual A B = true ->
  Z.abs (Zval (Prim2SF A) - Zval (Prim2SF B)) <= Zval (Prim2SF 0.1) + P (-32).
Proof.
  intros FA FB HA HB H.
  rewrite IsEqual_spec, !leb_spec, add_spec, sub_spec in H.
  apply andb_true_iff in H. destruct H as [Hadd Hsub].
  pose proof (Prim2SF_valid A) as VA. pose proof (Prim2SF_valid B) as VB.
  pose proof (Prim2SF_valid 0.1) as VC.
  pose proof (Prim2SF_valid (A + 0.1)) as Vadd. rewrite add_spec in Vadd.
  pose proof (Prim2SF_valid (A - 0.1)) as Vsub. rewrite sub_spec in Vsub.
  assert (FC : is_finite (Prim2SF 0.1) = true) by reflexivity.
  pose proof (P_pos (-56) ltac:(lia)) as Hu.
  assert (EC : Zval (Prim2SF 0.1) = 7205759403792794 * P (-56)) by reflexivity.
  assert (Eg : P (-32) = 16777216 * P (-56))
    by (replace (-32) with (-56 + 24) by lia; rewrite P_add by lia; cbn; lia).
  assert (E20 : P 20 = 75557863725914323419136 * P (-56))
    by (replace 20 with (-56 + 76) by lia; rewrite P_add by lia; cbn; lia).
  set (ZA := Zval (Prim2SF A)) in *. set (ZB := Zval (Prim2SF B)) in *.
  set (ZC := Zval (Prim2SF 0.1)) in *. set (g := P (-32)) in *.
  set (u := P (-56)) in *.
  assert (Hg : 0 < g) by lia.
  assert (Hupper : ZB <= ZA + ZC + g).
  { set (k := (ZA + ZC) / g + 1).
    pose proof (Z.mul_div_le (ZA + ZC) g Hg) as K1.
    pose proof (Z.mul_succ_div_gt (ZA + ZC) g Hg) as K2.
    assert (Hk : 0 < k < 2 * K52).
    { unfold k. split.
      - pose proof (Z.div_pos (ZA + ZC) g ltac:(lia) Hg). lia.
      - assert ((ZA + ZC) / g < 2 * K52 - 1); [|lia].
        apply Z.div_lt_upper_bound; [exact Hg|].
        change (2 * K52 - 1) with 9007199254740991. lia. }
    destruct (representable_float k (-32) Hk ltac:(lia)) as (R & VR & FR & ZR).
    fold g in ZR.
    destruct (SFadd_monotone (Prim2SF A) (Prim2SF 0.1) R VA VC VR FA FC FR) as [U _].
    destruct (SFadd_monotone (Prim2SF A) (Prim2SF 0.1) (S754_zero false)
                VA VC eq_refl FA FC eq_refl) as [_ L].
    fold ZA ZC in U, L. cbn [Zval] in L.
    specialize (U ltac:(unfold k in ZR; lia)). specialize (L ltac:(lia)).
    pose proof (SFnonneg_finite _ (SFnonneg_between _ _ L U FR)) as Fadd.
    rewrite SFleb_Zval in Hadd, U by assumption.
    apply Z.leb_le in Hadd, U. fold ZB in Hadd. unfold k in ZR. lia. }
  assert (Hlower : ZA <= ZB + ZC + g).
  { destruct (Z_lt_le_dec ZA ZC) as [Hlt|Hge]; [lia|].
    set (k := (ZA - ZC) / g).
    pose proof (Z.mul_div_le (ZA - ZC) g Hg) as K1.
    pose proof (Z.mul_succ_div_gt (ZA - ZC) g Hg) as K2.
    assert (Hk : 0 <= k < 2 * K52).
    { unfold k. split.
      - apply Z.div_pos; lia.
      - apply Z.div_lt_upper_bound; [exact Hg|].
        change (2 * K52) with 9007199254740992. lia. }
    destruct (representable_float_0 k (-32) Hk ltac:(lia)) as (R & VR & FR & ZR).
    fold g in ZR.
    destruct (SFsub_monotone (Prim2SF A) (Prim2SF 0.1) R VA VC VR FA FC FR) as [_ L].
    destruct (SFsub_monotone (Prim2SF A) (Prim2SF 0.1) (S754_zero false)
                VA VC eq_refl FA FC eq_refl) as [_ L0].
    fold ZA ZC in L, L0. cbn [Zval] in L0.
    specialize (L ltac:(unfold k in ZR; lia)). specialize (L0 ltac:(lia)).
    pose proof (SFnonneg_finite _ (SFnonneg_between _ _ L0 Hsub FB)) as Fsub.
    rewrite SFleb_Zval in Hsub, L by assumption.
    apply Z.leb_le in Hsub, L. fold ZB in Hsub. unfold k in ZR. lia. }
  lia.
Qed.

(** Two rates between 0 and a million frames per second that [IsEqual]
    takes for equal differ by 0.1 at most, up to a billionth: the rounding
    of [A + 0.1] and of [A - 0.1] lets no rate pass that is further away. *)
Theorem IsEqual_only_within_tolerance (A B : float) (a b : Q) :
  value A = Some a -> value B = Some b ->
  (0 <= a <= 1000000)%Q -> (0 <= b <= 1000000)%Q ->
  IsEqual A B = true ->
  (Qabs (a - b) <= 100000001 # 1000000000)%Q.
Proof.
  intros Ha Hb Ra Rb H.
  destruct (Zval_bounds A a Ha Ra) as [FA HA].
  destruct (Zval_bounds B b Hb Rb) as [FB HB].
  pose proof (IsEqual_Zval_bound A B FA FB HA HB H) as Hd.
  destruct (SF2Q_Zval _ _ (Prim2SF_valid A) Ha) as [_ EA].
  destruct (SF2Q_Zval _ _ (Prim2SF_valid B) Hb) as [_ EB].
  assert (EC : Zval (Prim2SF 0.1) = 7205759403792794 * P (-56)) by reflexivity.
  assert (Eg : P (-32) = 16777216 * P (-56))
    by (replace (-32) with (-56 + 24) by lia; rewrite P_add by lia; cbn; lia).
  assert (E0 : P 0 = 72057594037927936 * P (-56))
    by (replace 0 with (-56 + 56) at 1 by lia; rewrite P_add by lia; cbn; lia).
  pose proof (P_pos (-56) ltac:(lia)) as Hu.
  set (ZA := Zval (Prim2SF A)) in *. set (ZB := Zval (Prim2SF B)) in *.
  set (ZC := Zval (Prim2SF 0.1)) in *. set (g := P (-32)) in *.
  set (u := P (-56)) in *. set (p0 := P 0) in *.
  assert (Hp0 : (0 < inject_Z p0)%Q)
    by (change 0%Q with (inject_Z 0); rewrite <- Zlt_Qlt; lia).
  assert (E : (Qabs (a - b) * inject_Z p0 == inject_Z (Z.abs (ZA - ZB)))%Q).
  { rewrite <- (Qabs_pos (inject_Z p0)) at 1 by (apply Qlt_le_weak; exact Hp0).
    rewrite <- Qabs_Qmult.
    assert (E' : ((a - b) * inject_Z p0 == inject_Z (ZA - ZB))%Q).
    { unfold Z.sub. rewrite inject_Z_plus, inject_Z_opp, <- EA, <- EB. ring. }
    rewrite E'. reflexivity. }
  apply (Qmult_le_r _ _ (inject_Z p0) Hp0).
  rewrite E. unfold Qle, Qmult, inject_Z. cbn [Qnum Qden].
  lia.
Qed.

(** A rate of 30.05 against a reference of 30. *)
Lemma IsEqual_only_within_tolerance_witness :
  exists a b : Q,
    value 30.05 = Some a /\ value 30 = Some b /\
    (Qabs (a - b) <= 100000001 # 1000000000)%Q.
Proof.
  eexists _, _. split; [reflexivity|]. split; [reflexivity|].
  refine (IsEqual_only_within_tolerance 30.05 30 _ _ eq_refl eq_refl _ _ _).
  - vm_compute. split; discriminate.
  - vm_compute. split; discriminate.
  - vm_compute. reflexivity.
Defined.

(** ** The grab buffers *)

Lemma allocation_loop_in_use (remaining : nat) (ids : nat -> Z) :
  forall (b0 b : GrabBuffers),
  buffers_in_use ids b0 b ->
  (MilGrabBufferListSize b + remaining = BUFFERING_SIZE_MAX)%nat ->
  let b' := allocation_loop remaining ids b in
  buffers_in_use ids b0 b' /\
  (MilGrabBufferListSize b' <= BUFFERING_SIZE_MAX)%nat /\
  ((MilGrabBufferListSize b' < BUFFERING_SIZE_MAX)%nat ->
   ids (MilGrabBufferListSize b') = 0).
Proof.
  induction remaining as [|remaining IH]; intros b0 b (Hids & Ha & Hnz & Hlen & Hfr) Hsize.
  - cbn. split; [repeat split; assumption|lia].
  - cbn [allocation_loop]. cbn zeta.
    set (i := MilGrabBufferListSize b) in *.
    assert (Hi : (i < length (MilGrabBufferList b))%nat) by lia.
    destruct (Z.eqb_spec (ids i) 0) as [Hz|Hnz'].
    + split; [|cbn; split; [lia|auto]]. unfold buffers_in_use. cbn.
      rewrite take_insert_ge by lia. rewrite length_insert. auto.
    + apply IH; [|cbn; lia]. unfold buffers_in_use.
      cbn [MilGrabBufferList MilGrabBufferListSize allocated freed].
      rewrite length_insert.
      assert (Ht : take (S i) (<[i:=ids i]> (MilGrabBufferList b))
                   = take i (MilGrabBufferList b) ++ [ids i]).
      { rewrite (take_S_r _ _ (ids i)) by (apply list_lookup_insert_eq; lia).
        now rewrite take_insert_ge by lia. }
      rewrite Ht, rev_app_distr. split.
      * rewrite Hids, seq_S, fmap_app. reflexivity.
      * cbn [rev app]. rewrite Ha. repeat split; try assumption.
        apply Forall_app. split; [assumption|]. repeat constructor. assumption.
Qed.

(** [AllocateAcquisitionBuffers] from an array of [BUFFERING_SIZE_MAX]
    cells. *)
Lemma AllocateAcquisitionBuffers_in_use (ids : nat -> Z) (b : GrabBuffers) :
  length (MilGrabBufferList b) = BUFFERING_SIZE_MAX ->
  let b' := AllocateAcquisitionBuffers ids b in
  buffers_in_use ids b b' /\
  (MilGrabBufferListSize b' <= BUFFERING_SIZE_MAX)%nat /\
  ((MilGrabBufferListSize b' < BUFFERING_SIZE_MAX)%nat ->
   ids (MilGrabBufferListSize b') = 0).
Proof.
  intros Hlen. unfold AllocateAcquisitionBuffers.
  set (b1 := mkBuffers (MilGrabBufferList b) 0 (allocated b) (freed b)).
  destruct (allocation_loop_in_use BUFFERING_SIZE_MAX ids b1 b1)
    as [(Hids & Ha & Hnz & Hl & Hfr) Hsz].
  { unfold buffers_in_use, b1. cbn. rewrite take_0. repeat split; auto. }
  { reflexivity. }
  split; [|exact Hsz]. repeat split; assumption.
Qed.

Lemma free_loop_spec (size : nat) :
  forall b : GrabBuffers,
  (size <= length (MilGrabBufferList b))%nat ->
  exists b',
    free_loop size b = Some b' /\
    MilGrabBufferList b' = MilGrabBufferList b /\
    MilGrabBufferListSize b' = 0%nat /\
    allocated b' = allocated b /\
    freed b' = take size (MilGrabBufferList b) ++ freed b.
Proof.
  induction size as [|size IH]; intros b Hsize.
  - eexists. split; [reflexivity|]. cbn. rewrite take_0. auto.
  - cbn [free_loop].
    destruct (lookup_lt_is_Some_2 (MilGrabBufferList b) size ltac:(lia)) as [id Hid].
    rewrite Hid. cbn [mbind option_bind].
    destruct (IH (mkBuffers (MilGrabBufferList b) size (allocated b) (id :: freed b))
                ltac:(cbn; lia)) as (b' & Hf & Hl & Hs & Ha & Hfr).
    exists b'. cbn in *. repeat split; try assumption.
    rewrite Hfr, (take_S_r _ _ id) by assumption.
    now rewrite <- app_assoc.
Qed.

(** The buffers allocated for a pass are freed after it. *)
Lemma allocate_then_free (ids : nat -> Z) (b : GrabBuffers) :
  length (MilGrabBufferList b) = BUFFERING_SIZE_MAX ->
  exists b' : GrabBuffers,
    free_grab_buffers (AllocateAcquisitionBuffers ids b) = Some b' /\
    length (MilGrabBufferList b') = BUFFERING_SIZE_MAX /\
    MilGrabBufferListSize b' = 0%nat /\
    exists new : list Z,
      allocated b' = new ++ allocated b /\ freed b' = rev new ++ freed b.
Proof.
  intros Hlen.
  destruct (AllocateAcquisitionBuffers_in_use ids b Hlen)
    as ((_ & Ha & _ & Hl & Hfr) & Hsz & _).
  unfold free_grab_buffers.
  set (b2 := AllocateAcquisitionBuffers ids b) in *.
  destruct (free_loop_spec (MilGrabBufferListSize b2) b2 ltac:(lia))
    as (b' & Hf & Hl' & Hs' & Ha' & Hfr').
  exists b'. split; [assumption|]. split; [congruence|]. split; [assumption|].
  exists (rev (take (MilGrabBufferListSize b2) (MilGrabBufferList b2))).
  rewrite Ha', Ha, Hfr', Hfr, rev_involutive. auto.
Qed.

(** The buffers that [AllocateAcquisitionBuffers] allocates are those that
    [MbufAllocColor] returns before it first fails, [BUFFERING_SIZE_MAX] at
    most; the loop of [MosMain] frees each of them once, the last allocated
    first, and no other: [M_NULL] is never freed. *)
Theorem grab_buffers_freed (ids : nat -> Z) (b : GrabBuffers) :
  length (MilGrabBufferList b) = BUFFERING_SIZE_MAX ->
  exists (k : nat) (b' : GrabBuffers),
    free_grab_buffers (AllocateAcquisitionBuffers ids b) = Some b' /\
    (k <= BUFFERING_SIZE_MAX)%nat /\
    Forall (fun id => id <> 0) (ids <$> seq 0 k) /\
    ((k < BUFFERING_SIZE_MAX)%nat -> ids k = 0) /\
    allocated b' = rev (ids <$> seq 0 k) ++ allocated b /\
    freed b' = (ids <$> seq 0 k) ++ freed b /\
    MilGrabBufferListSize b' = 0%nat /\
    length (MilGrabBufferList b') = BUFFERING_SIZE_MAX.
Proof.
  intros Hlen.
  destruct (AllocateAcquisitionBuffers_in_use ids b Hlen)
    as ((Hids & Ha & Hnz & Hl & Hfr) & Hsz & Hstop).
  unfold free_grab_buffers.
  set (b2 := AllocateAcquisitionBuffers ids b) in *.
  destruct (free_loop_spec (MilGrabBufferListSize b2) b2 ltac:(lia))
    as (b' & Hf & Hl' & Hs' & Ha' & Hfr').
  exists (MilGrabBufferListSize b2), b'.
  rewrite Ha', Ha, Hfr', Hfr, Hl', Hl, <- Hids. auto 10.
Qed.

(** Three buffers, then a failure. *)
Lemma grab_buffers_freed_witness :
  exists (k : nat) (b' : GrabBuffers),
    free_grab_buffers
      (AllocateAcquisitionBuffers (fun i => if (i <? 3)%nat then 7 + Z.of_nat i else 0)
         (mkBuffers (replicate 20 0) 0 [] []))
      = Some b' /\
    (k <= BUFFERING_SIZE_MAX)%nat /\
    Forall (fun id => id <> 0)
      ((fun i => if (i <? 3)%nat then 7 + Z.of_nat i else 0) <$> seq 0 k) /\
    ((k < BUFFERING_SIZE_MAX)%nat -> (if (k <? 3)%nat then 7 + Z.of_nat k else 0) = 0) /\
    allocated b'
      = rev ((fun i => if (i <? 3)%nat then 7 + Z.of_nat i else 0) <$> seq 0 k) ++ [] /\
    freed b' = ((fun i => if (i <? 3)%nat then 7 + Z.of_nat i else 0) <$> seq 0 k) ++ [] /\
    MilGrabBufferListSize b' = 0%nat /\
    length (MilGrabBufferList b') = BUFFERING_SIZE_MAX.
Proof.
  apply (grab_buffers_freed (fun i => if (i <? 3)%nat then 7 + Z.of_nat i else 0)
           (mkBuffers (replicate 20 0) 0 [] [])).
  reflexivity.
Defined.

(** ** The enumeration of the pixel formats *)

Arguments ULONG_MAX : simpl never.

Lemma enumerate_entry_spec (Results : PacketDelayResults) (st : MilState)
    (e : PixelFormatEntry) :
  let r := enumerate_entry (Results, st) e in
  fst r = (if compatible e then push_back (entry_name e) Results else Results) /\
  MilDigitizer (snd r) = MilDigitizer st /\
  MilGrabBuffers (snd r) = MilGrabBuffers st.
Proof.
  unfold enumerate_entry, compatible.
  destruct (entry_available e && negb (entry_custom e));
    [destruct (negb (entry_SizeBand e =? 0) && negb (entry_BufType e =? 0)
               && negb (entry_Attribute e =? 0))|];
    cbn; auto.
Qed.

Lemma fold_enumerate_entry (entries : list PixelFormatEntry) :
  forall (Results : PacketDelayResults) (st : MilState),
  let r := fold_left enumerate_entry entries (Results, st) in
  PixelFormats (fst r) = PixelFormats Results ++ listed entries /\
  InterPacketDelayInTicks (fst r) = InterPacketDelayInTicks Results /\
  InterPacketDelayInSec (fst r) = InterPacketDelayInSec Results /\
  ReferenceFrameRate (fst r) = ReferenceFrameRate Results /\
  ObtainedFrameRate (fst r) = ObtainedFrameRate Results /\
  Selection (fst r) = Selection Results /\
  MilDigitizer (snd r) = MilDigitizer st /\
  MilGrabBuffers (snd r) = MilGrabBuffers st.
Proof.
  induction entries as [|e entries IH]; intros Results st; cbn zeta.
  - cbn. rewrite app_nil_r. repeat split.
  - cbn [fold_left].
    pose proof (enumerate_entry_spec Results st e) as (Hr & Hd & Hb). cbn zeta in *.
    destruct (enumerate_entry (Results, st) e) as [Results1 st1]. cbn [fst snd] in *.
    destruct (IH Results1 st1) as (H1 & H2 & H3 & H4 & H5 & H6 & H7 & H8).
    rewrite H1, H2, H3, H4, H5, H6, H7, H8, Hd, Hb, Hr.
    unfold listed. rewrite filter_cons.
    destruct (compatible e); (destruct (decide _) as [H|H];
      [try discriminate H|try (exfalso; apply H; reflexivity)]);
      cbn; rewrite <- ?app_assoc; repeat split.
Qed.

Lemma wait_for_selection_Some (size : nat) (inputs : list nat) (k : nat) :
  wait_for_selection size inputs = Some k -> (k <= size)%nat.
Proof.
  induction inputs as [|x inputs IH]; cbn; [discriminate|].
  destruct (Nat.leb_spec x size); [intros [= <-]; assumption|exact IH].
Qed.

Lemma length_listed (entries : list PixelFormatEntry) :
  (length (listed entries) <= length entries)%nat.
Proof. unfold listed. rewrite length_fmap. apply length_filter. Qed.

(** What [EnumeratePixelFormats] returns for a camera that enumerates at
    least one pixel format. *)
Lemma EnumeratePixelFormats_Completed (entries : list PixelFormatEntry)
    (inputs : list nat) (Results Results' : PacketDelayResults) (st st' : MilState) :
  entries <> [] -> PixelFormats Results = [] ->
  EnumeratePixelFormats entries inputs (Results, st) = Completed (Results', st') ->
  PixelFormats Results' = listed entries /\
  InterPacketDelayInTicks Results' = replicate (length entries) 0 /\
  InterPacketDelayInSec Results' = replicate (length entries) 0%float /\
  ReferenceFrameRate Results' = replicate (length entries) 0%float /\
  ObtainedFrameRate Results' = replicate (length entries) 0%float /\
  selected entries inputs = Some (Selection Results') /\
  MilDigitizer st' = MilDigitizer st /\
  MilGrabBuffers st' = MilGrabBuffers st.
Proof.
  intros Hne Hpf. unfold EnumeratePixelFormats.
  destruct (Nat.eqb_spec (length entries) 0) as [H0|_].
  { destruct entries; [contradiction|discriminate]. }
  pose proof (fold_enumerate_entry entries
                (assign_results (length entries) (set_Selection ULONG_MAX Results)) st)
    as (H1 & H2 & H3 & H4 & H5 & H6 & H7 & H8). cbn zeta in *.
  destruct (fold_left enumerate_entry entries _) as [R1 st1]. cbn [fst snd] in *.
  cbn in H1, H2, H3, H4, H5. rewrite Hpf in H1. cbn in H1.
  unfold selected. rewrite <- H1.
  destruct (1 <? length (PixelFormats R1))%nat.
  - destruct (wait_for_selection _ inputs) as [k|]; [|discriminate].
    intros [= <- <-]. cbn. auto 10.
  - intros [= <- <-]. cbn. auto 10.
Qed.

(** What a pass of the loop of [MosMain] leaves of the results: the entries
    of the selected pixel format apart, they are those it found. *)
Lemma MosMain_pass_Returned (freq : Z) (rate theoretical : float)
    (rates : list float) (Results Results' : PacketDelayResults)
    (dev dev' : Digitizer) (n : nat) (b : branch) (Info' : PacketDelayInfo) :
  MosMain_pass freq rate theoretical rates Results dev
    = Returned n b Info' Results' dev' ->
  PixelFormats Results' = PixelFormats Results /\
  Selection Results' = Selection Results /\
  length (InterPacketDelayInTicks Results') = length (InterPacketDelayInTicks Results) /\
  length (InterPacketDelayInSec Results') = length (InterPacketDelayInSec Results) /\
  length (ReferenceFrameRate Results') = length (ReferenceFrameRate Results) /\
  length (ObtainedFrameRate Results') = length (ObtainedFrameRate Results) /\
  ReferenceFrameRate Results'
    = <[Selection Results := rate]> (ReferenceFrameRate Results) /\
  (Selection Results < length (ReferenceFrameRate Results))%nat /\
  forall j : nat, j <> Selection Results ->
    InterPacketDelayInTicks Results' !! j = InterPacketDelayInTicks Results !! j /\
    InterPacketDelayInSec Results' !! j = InterPacketDelayInSec Results !! j /\
    ObtainedFrameRate Results' !! j = ObtainedFrameRate Results !! j.
Proof.
  intros Hret. unfold MosMain_pass in Hret.
  destruct (AcquireReferenceFrameRate rate theoretical (zero_info freq, Results, dev))
    as [[[Info Results1] dev1]|] eqn:Ha; [|discriminate].
  assert (Hsel : (Selection Results < length (ReferenceFrameRate Results))%nat).
  { unfold AcquireReferenceFrameRate in Ha. destruct (decide _); [assumption|discriminate]. }
  assert (Hpf : PixelFormats Results1 = PixelFormats Results).
  { pose proof Ha as Ha'. unfold AcquireReferenceFrameRate in Ha'.
    destruct (decide _); [|discriminate]. cbn in Ha'.
    destruct (delay_ticks theoretical freq); [|discriminate]. cbn in Ha'.
    injection Ha' as _ <- _. reflexivity. }
  apply AcquireReferenceFrameRate_Some in Ha.
  destruct Ha as (_ & _ & _ & _ & _ & _ & Hti & Hse & Hob & Hre & Hs1 & _).
  apply FindInterPacketDelay_Returned in Hret. destruct Hret as [_ Hst].
  apply store_solution_Some in Hst. cbn zeta in Hst.
  destruct Hst as (Hpf' & Hre' & Hs' & Hst).
  rewrite Hpf', Hpf, Hs', Hs1, Hre', Hre, length_insert.
  destruct (Error Info').
  - rewrite Hst, Hti, Hse, Hob. auto 12.
  - destruct Hst as (-> & -> & -> & _). rewrite !length_insert, Hti, Hse, Hob, Hs1.
    repeat split; try reflexivity; try assumption;
      now rewrite list_lookup_insert_ne by congruence.
Qed.

(** ** The loop of [MosMain] *)

Arguments AllocateAcquisitionBuffers : simpl never.
Arguments free_grab_buffers : simpl never.
Arguments MosMain_pass : simpl never.

(** A pass on answers in range with the selection inside the vectors: the
    search returns, or it is still under way when the rates end. *)
Lemma MosMain_pass_in_range (a : pass_answers) (Results : PacketDelayResults)
    (dev : Digitizer) (Count : nat) :
  answers_in_range a -> results_table Results Count ->
  (Selection Results < Count)%nat ->
  MosMain_pass (tick_frequency a) (reference_rate a) (theoretical_delay a)
    (measured_rates a) Results dev <> UndefinedBehaviour.
Proof.
  intros (Hf & H0 & [t Ht]) (H1 & H2 & H3 & H4 & _) Hsel.
  destruct (AcquireReferenceFrameRate_search_state (tick_frequency a) t
              (reference_rate a) (theoretical_delay a) Results dev Hf H0 Ht ltac:(lia))
    as (Info & Results1 & Ha & HS & _ & _ & _ & Hs1 & Ht1 & Hse1 & Ho1).
  unfold MosMain_pass. rewrite Ha. unfold FindInterPacketDelay.
  pose proof (while_not_Done_search_state (measured_rates a) 0 Info (MdigControl 0 dev) HS)
    as Hw.
  destruct (while_not_Done (measured_rates a) 0 (Info, MdigControl 0 dev))
    as [n b [Info' dev']|n [Info' dev']|n]; [|discriminate|contradiction].
  unfold store_solution. destruct (Error Info'); [discriminate|].
  cbn zeta. rewrite Hs1, Ht1, Hse1, Ho1.
  destruct (decide _) as [_|Hn]; [discriminate|]. exfalso. apply Hn. lia.
Qed.

(** What a pass of the loop of [MosMain] that completes leaves of the
    results and of the camera. *)
Lemma MosMain_iteration_Completed (a : pass_answers)
    (Results Results' : PacketDelayResults) (st st' : MilState) :
  MosMain_iteration a (Results, st) = Completed (Results', st') ->
  PixelFormats Results !! Selection Results = Some (PixelFormat st') /\
  PixelFormats Results' = PixelFormats Results /\
  Selection Results' = S (Selection Results) /\
  length (InterPacketDelayInTicks Results') = length (InterPacketDelayInTicks Results) /\
  length (InterPacketDelayInSec Results') = length (InterPacketDelayInSec Results) /\
  length (ReferenceFrameRate Results') = length (ReferenceFrameRate Results) /\
  length (ObtainedFrameRate Results') = length (ObtainedFrameRate Results) /\
  ReferenceFrameRate Results'
    = <[Selection Results := reference_rate a]> (ReferenceFrameRate Results) /\
  (Selection Results < length (ReferenceFrameRate Results))%nat /\
  (forall j : nat, j <> Selection Results ->
     InterPacketDelayInTicks Results' !! j = InterPacketDelayInTicks Results !! j /\
     InterPacketDelayInSec Results' !! j = InterPacketDelayInSec Results !! j /\
     ObtainedFrameRate Results' !! j = ObtainedFrameRate Results !! j) /\
  free_grab_buffers
    (AllocateAcquisitionBuffers (buffer_ids a) (MilGrabBuffers st))
    = Some (MilGrabBuffers st') /\
  exists (n : nat) (b : branch) (Info' : PacketDelayInfo)
         (Results1 : PacketDelayResults),
    MosMain_pass (tick_frequency a) (reference_rate a) (theoretical_delay a)
      (measured_rates a) Results (MilDigitizer st)
      = Returned n b Info' Results1 (MilDigitizer st') /\
    Results' = set_Selection (S (Selection Results)) Results1.
Proof.
  unfold MosMain_iteration, ApplyPixelFormat.
  destruct (wait_until_writable (access_modes a)) as [sleeps|]; [|discriminate].
  destruct (PixelFormats Results !! Selection Results) as [name|] eqn:Hname;
    [|discriminate].
  cbn [set_PixelFormat MilDigitizer MilGrabBuffers PixelFormat].
  destruct (MosMain_pass _ _ _ _ Results (MilDigitizer st))
    as [n b Info' Results1 dev'|n|] eqn:Hpass; [|discriminate|discriminate].
  destruct (free_grab_buffers _) as [b'|] eqn:Hfree; [|discriminate].
  intros [= <- <-].
  apply MosMain_pass_Returned in Hpass as Hr.
  destruct Hr as (Hpf & Hs & L1 & L2 & L3 & L4 & Hre & Hlt & Hframe).
  unfold set_Selection. cbn.
  repeat split; try congruence; try lia; try apply Hframe; try assumption.
  eexists _, _, _, _. split; [reflexivity|]. now rewrite Hs.
Qed.

(** A pass on answers in range, with the selection on a listed pixel
    format, has no undefined behaviour. *)
Lemma MosMain_iteration_in_range (a : pass_answers) (Results : PacketDelayResults)
    (st : MilState) (Count : nat) :
  answers_in_range a -> results_table Results Count ->
  (Selection Results < length (PixelFormats Results))%nat ->
  length (MilGrabBufferList (MilGrabBuffers st)) = BUFFERING_SIZE_MAX ->
  MosMain_iteration a (Results, st) <> Erroneous.
Proof.
  intros Ha HT Hsel Hbuf. unfold MosMain_iteration, ApplyPixelFormat.
  destruct (wait_until_writable (access_modes a)) as [sleeps|]; [|discriminate].
  destruct (lookup_lt_is_Some_2 _ _ Hsel) as [name Hname]. rewrite Hname.
  cbn [set_PixelFormat MilDigitizer MilGrabBuffers PixelFormat].
  pose proof (MosMain_pass_in_range a Results (MilDigitizer st) Count Ha HT
                ltac:(destruct HT as (_ & _ & _ & _ & ?); lia)) as Hdef.
  destruct (MosMain_pass _ _ _ _ Results (MilDigitizer st))
    as [n b Info' Results1 dev'|n|] eqn:Hpass; [|discriminate|contradiction].
  destruct (allocate_then_free (buffer_ids a) (MilGrabBuffers st) Hbuf)
    as (b' & Hfree & _).
  rewrite Hfree. discriminate.
Qed.

(** The grab buffers after a pass that completes. *)
Lemma MosMain_iteration_buffers (a : pass_answers)
    (Results Results' : PacketDelayResults) (st st' : MilState) :
  length (MilGrabBufferList (MilGrabBuffers st)) = BUFFERING_SIZE_MAX ->
  MosMain_iteration a (Results, st) = Completed (Results', st') ->
  length (MilGrabBufferList (MilGrabBuffers st')) = BUFFERING_SIZE_MAX /\
  MilGrabBufferListSize (MilGrabBuffers st') = 0%nat /\
  exists new : list Z,
    allocated (MilGrabBuffers st') = new ++ allocated (MilGrabBuffers st) /\
    freed (MilGrabBuffers st') = rev new ++ freed (MilGrabBuffers st).
Proof.
  intros Hbuf Hit. apply MosMain_iteration_Completed in Hit.
  destruct Hit as (_ & _ & _ & _ & _ & _ & _ & _ & _ & _ & Hfree & _).
  destruct (allocate_then_free (buffer_ids a) (MilGrabBuffers st) Hbuf)
    as (b' & Hfree' & Hlen & Hsz & Hnew).
  rewrite Hfree' in Hfree. injection Hfree as <-. auto.
Qed.

Arguments MosMain_iteration : simpl never.

(** What the loop of [MosMain] leaves when it completes [n] passes from
    pass [k] on: each pass wrote the entries of its own pixel format, and
    no other. *)
Lemma MosMain_loop_Completed (n : nat) (answers : nat -> pass_answers) :
  forall (k : nat) (Results Results' : PacketDelayResults) (st st' : MilState),
  MosMain_loop n answers k (Results, st) = Completed (Results', st') ->
  PixelFormats Results' = PixelFormats Results /\
  Selection Results' = (Selection Results + n)%nat /\
  length (InterPacketDelayInTicks Results') = length (InterPacketDelayInTicks Results) /\
  length (InterPacketDelayInSec Results') = length (InterPacketDelayInSec Results) /\
  length (ReferenceFrameRate Results') = length (ReferenceFrameRate Results) /\
  length (ObtainedFrameRate Results') = length (ObtainedFrameRate Results) /\
  (n <> 0%nat -> (Selection Results + n <= length (PixelFormats Results))%nat) /\
  (forall j : nat, (j < Selection Results \/ Selection Results + n <= j)%nat ->
     InterPacketDelayInTicks Results' !! j = InterPacketDelayInTicks Results !! j /\
     InterPacketDelayInSec Results' !! j = InterPacketDelayInSec Results !! j /\
     ReferenceFrameRate Results' !! j = ReferenceFrameRate Results !! j /\
     ObtainedFrameRate Results' !! j = ObtainedFrameRate Results !! j) /\
  (forall i : nat, (i < n)%nat ->
     ReferenceFrameRate Results' !! (Selection Results + i)%nat
       = Some (reference_rate (answers (k + i)%nat))) /\
  match n with
  | O => st' = st
  | S m => PixelFormats Results !! (Selection Results + m)%nat = Some (PixelFormat st')
  end.
Proof.
  induction n as [|n IH]; intros k Results Results' st st' Hloop.
  - cbn in Hloop. injection Hloop as <- <-. rewrite Nat.add_0_r.
    repeat split; try lia.
  - cbn [MosMain_loop] in Hloop.
    destruct (MosMain_iteration (answers k) (Results, st)) as [[R1 st1]| |] eqn:Hit;
      try discriminate.
    apply MosMain_iteration_Completed in Hit.
    destruct Hit as (Hname & Hpf & Hsel & L1 & L2 & L3 & L4 & Hre & Hlt & Hframe & _).
    apply IH in Hloop.
    destruct Hloop as (Hpf' & Hsel' & L1' & L2' & L3' & L4' & Hle & Hout & Hin & Hlast).
    rewrite Hpf', Hpf, Hsel', Hsel, L1', L1, L2', L2, L3', L3, L4', L4.
    rewrite Hpf, Hsel in Hle. rewrite Hsel in Hout, Hin. rewrite Hpf, Hsel in Hlast.
    apply lookup_lt_Some in Hname as Hlt'.
    do 6 (split; [reflexivity || lia|]).
    split; [intros _; destruct n; [lia|]; specialize (Hle ltac:(lia)); lia|].
    split; [|split].
    + intros j Hj. destruct (Hout j ltac:(lia)) as (E1 & E2 & E3 & E4).
      destruct (Hframe j ltac:(lia)) as (F1 & F2 & F3).
      rewrite E1, E2, E3, E4, Hre, F1, F2, F3.
      rewrite list_lookup_insert_ne by lia. auto.
    + intros i Hi. destruct i as [|i].
      * rewrite !Nat.add_0_r.
        destruct (Hout (Selection Results) ltac:(lia)) as (_ & _ & -> & _).
        rewrite Hre. apply list_lookup_insert_eq. lia.
      * replace (Selection Results + S i)%nat with (S (Selection Results) + i)%nat by lia.
        replace (k + S i)%nat with (S k + i)%nat by lia. apply Hin. lia.
    + destruct n as [|m].
      * subst st'. now rewrite Nat.add_0_r.
      * replace (Selection Results + S m)%nat with (S (Selection Results) + m)%nat by lia.
        assumption.
Qed.

(** The loop of [MosMain] on answers in range has no undefined behaviour
    while the selection stays on listed pixel formats. *)
Lemma MosMain_loop_in_range (n : nat) (answers : nat -> pass_answers) (Count : nat) :
  (forall i : nat, answers_in_range (answers i)) ->
  forall (k : nat) (Results : PacketDelayResults) (st : MilState),
  results_table Results Count ->
  (Selection Results + n <= length (PixelFormats Results))%nat ->
  length (MilGrabBufferList (MilGrabBuffers st)) = BUFFERING_SIZE_MAX ->
  MosMain_loop n answers k (Results, st) <> Erroneous.
Proof.
  intros Hans. induction n as [|n IH]; intros k Results st HT Hsel Hbuf.
  - discriminate.
  - cbn [MosMain_loop].
    pose proof (MosMain_iteration_in_range (answers k) Results st Count (Hans k) HT
                  ltac:(lia) Hbuf) as Hdef.
    destruct (MosMain_iteration (answers k) (Results, st)) as [[R1 st1]| |] eqn:Hit;
      [|discriminate|contradiction].
    destruct (MosMain_iteration_buffers _ _ _ _ _ Hbuf Hit) as (Hbuf1 & _).
    apply MosMain_iteration_Completed in Hit.
    destruct Hit as (_ & Hpf & Hs & L1 & L2 & L3 & L4 & _).
    apply IH; [|rewrite Hpf, Hs; lia|assumption].
    destruct HT as (T1 & T2 & T3 & T4 & T5). unfold results_table.
    rewrite L1, L2, L3, L4, Hpf. auto.
Qed.

(** The grab buffers after the loop of [MosMain]: every buffer that was
    allocated was freed. *)
Lemma MosMain_loop_buffers (n : nat) (answers : nat -> pass_answers) :
  forall (k : nat) (Results Results' : PacketDelayResults) (st st' : MilState),
  length (MilGrabBufferList (MilGrabBuffers st)) = BUFFERING_SIZE_MAX ->
  MosMain_loop n answers k (Results, st) = Completed (Results', st') ->
  length (MilGrabBufferList (MilGrabBuffers st')) = BUFFERING_SIZE_MAX /\
  exists new : list Z,
    allocated (MilGrabBuffers st') = new ++ allocated (MilGrabBuffers st) /\
    freed (MilGrabBuffers st') ≡ₚ new ++ freed (MilGrabBuffers st).
Proof.
  induction n as [|n IH]; intros k Results Results' st st' Hbuf Hloop.
  - cbn in Hloop. injection Hloop as <- <-. split; [assumption|]. now exists [].
  - cbn [MosMain_loop] in Hloop.
    destruct (MosMain_iteration (answers k) (Results, st)) as [[R1 st1]| |] eqn:Hit;
      try discriminate.
    destruct (MosMain_iteration_buffers _ _ _ _ _ Hbuf Hit)
      as (Hbuf1 & _ & new1 & Ha1 & Hf1).
    destruct (IH _ _ _ _ _ Hbuf1 Hloop) as (Hbuf' & new2 & Ha2 & Hf2).
    split; [assumption|]. exists (new2 ++ new1). split.
    + rewrite Ha2, Ha1, app_assoc. reflexivity.
    + rewrite Hf2, Hf1, <- !app_assoc. apply Permutation_app_head.
      apply Permutation_app_tail. symmetry. apply Permutation_rev.
Qed.

(** ** [MosMain] *)

Lemma selected_le (entries : list PixelFormatEntry) (inputs : list nat) (k : nat) :
  selected entries inputs = Some k -> (k <= length (listed entries))%nat.
Proof.
  unfold selected. destruct (1 <? length (listed entries))%nat.
  - apply wait_for_selection_Some.
  - intros [= <-]. lia.
Qed.

Lemma ULONG_MAX_positive : ULONG_MAX <> 0%nat.
Proof. unfold ULONG_MAX. lia. Qed.

(** [PrintResults] on vectors that hold an entry for each listed format. *)
Lemma PrintResults_table (Results : PacketDelayResults) (Count : nat) :
  results_table Results Count -> is_Some (PrintResults Results).
Proof.
  intros (T1 & T2 & T3 & T4 & T5). unfold PrintResults.
  apply mapM_is_Some_2. apply Forall_forall. intros i Hi.
  apply elem_of_seq in Hi. cbn. unfold print_row.
  destruct (lookup_lt_is_Some_2 (PixelFormats Results) i ltac:(lia)) as [x1 ->].
  destruct (lookup_lt_is_Some_2 (InterPacketDelayInTicks Results) i ltac:(lia)) as [x2 ->].
  destruct (lookup_lt_is_Some_2 (InterPacketDelayInSec Results) i ltac:(lia)) as [x3 ->].
  destruct (lookup_lt_is_Some_2 (ReferenceFrameRate Results) i ltac:(lia)) as [x4 ->].
  destruct (lookup_lt_is_Some_2 (ObtainedFrameRate Results) i ltac:(lia)) as [x5 ->].
  cbn. eauto.
Qed.

(** The rows of the report are those of the vectors. *)
Lemma PrintResults_rows (Results : PacketDelayResults) (report : list report_row) :
  PrintResults Results = Some report ->
  length report = length (PixelFormats Results) /\
  forall (i : nat) (name : string),
    PixelFormats Results !! i = Some name ->
    exists (ticks : Z) (sec reference obtained : float),
      InterPacketDelayInTicks Results !! i = Some ticks /\
      InterPacketDelayInSec Results !! i = Some sec /\
      ReferenceFrameRate Results !! i = Some reference /\
      ObtainedFrameRate Results !! i = Some obtained /\
      report !! i = Some (mkRow name (to_int ticks) (sec * 1e6)%float reference obtained).
Proof.
  unfold PrintResults. intros H. apply mapM_Some_1 in H.
  split; [apply Forall2_length in H; now rewrite length_seq in H|].
  intros i name Hname.
  assert (Hi : seq 0 (length (PixelFormats Results)) !! i = Some i).
  { apply lookup_seq. split; [reflexivity|]. now apply lookup_lt_Some in Hname. }
  destruct (Forall2_lookup_l _ _ _ _ _ H Hi) as (row & Hrow & Hp).
  unfold print_row in Hp. rewrite Hname in Hp. cbn in Hp.
  destruct (InterPacketDelayInTicks Results !! i) as [ticks|]; [|discriminate].
  destruct (InterPacketDelayInSec Results !! i) as [sec|]; [|discriminate].
  destruct (ReferenceFrameRate Results !! i) as [reference|]; [|discriminate].
  destruct (ObtainedFrameRate Results !! i) as [obtained|]; [|discriminate].
  cbn in Hp. injection Hp as <-. eauto 10.
Qed.

(** The table that [EnumeratePixelFormats] returns. *)
Lemma EnumeratePixelFormats_table (entries : list PixelFormatEntry)
    (inputs : list nat) (st : MilState) (Results : PacketDelayResults)
    (st1 : MilState) :
  entries <> [] ->
  EnumeratePixelFormats entries inputs (no_results, st) = Completed (Results, st1) ->
  results_table Results (length entries) /\
  (Selection Results <= length (PixelFormats Results))%nat.
Proof.
  intros Hne He.
  destruct (EnumeratePixelFormats_Completed entries inputs no_results _ st _ Hne eq_refl He)
    as (Hpf & H1 & H2 & H3 & H4 & Hsel & _).
  unfold results_table. rewrite Hpf, H1, H2, H3, H4, !length_replicate.
  pose proof (length_listed entries). pose proof (selected_le _ _ _ Hsel). auto 10.
Qed.

(** [EnumeratePixelFormats] has no undefined behaviour. *)
Lemma EnumeratePixelFormats_defined (entries : list PixelFormatEntry)
    (inputs : list nat) (s : PacketDelayResults * MilState) :
  EnumeratePixelFormats entries inputs s <> Erroneous.
Proof.
  unfold EnumeratePixelFormats. destruct s as [Results st].
  destruct (length entries =? 0)%nat; [discriminate|].
  destruct (fold_left enumerate_entry entries _) as [R1 st1].
  destruct (1 <? length (PixelFormats R1))%nat; [|discriminate].
  destruct (wait_for_selection _ inputs); discriminate.
Qed.

(** With a camera that enumerates at least one pixel format, and answers in
    range at every pass, [MosMain] has no undefined behaviour: every index
    into the result vectors and into the array of grab buffers is in range,
    in [ApplyPixelFormat], in the searches and in [PrintResults]. *)
Theorem MosMain_is_defined (gige : bool) (TickFreq : Z)
    (entries : list PixelFormatEntry) (inputs : list nat)
    (answers : nat -> pass_answers) (st : MilState) :
  entries <> [] ->
  length (MilGrabBufferList (MilGrabBuffers st)) = BUFFERING_SIZE_MAX ->
  (forall k : nat, answers_in_range (answers k)) ->
  MosMain gige TickFreq entries inputs answers st <> Erroneous.
Proof.
  intros Hne Hbuf Hans. unfold MosMain.
  destruct gige; cbn [negb]; [|discriminate].
  destruct (TickFreq =? 0); [discriminate|].
  pose proof (EnumeratePixelFormats_defined entries inputs (no_results, st)) as Hdef.
  destruct (EnumeratePixelFormats entries inputs (no_results, st))
    as [[Results st1]| |] eqn:He; [|discriminate|contradiction].
  destruct (EnumeratePixelFormats_table _ _ _ _ _ Hne He) as [HT Hsel].
  destruct (EnumeratePixelFormats_Completed entries inputs no_results _ st _ Hne eq_refl He)
    as (_ & _ & _ & _ & _ & _ & _ & Hb1).
  assert (Hbuf1 : length (MilGrabBufferList (MilGrabBuffers st1)) = BUFFERING_SIZE_MAX)
    by now rewrite Hb1.
  assert (Hloop : forall n R,
             results_table R (length entries) ->
             (Selection R + n <= length (PixelFormats R))%nat ->
             match MosMain_loop n answers 0 (R, st1) with
             | Completed (Results, st0) =>
                 match PrintResults Results with
                 | Some report =>
                     Completed
                       (report,
                        mkState (MdigControl 0 (MilDigitizer st0)) (PixelFormat st0)
                          (MilGrabBuffers st0))
                 | None => Erroneous
                 end
             | Pending => Pending
             | Erroneous => Erroneous
             end <> Erroneous).
  { intros n R HR Hn.
    pose proof (MosMain_loop_in_range n answers (length entries) Hans 0 R st1 HR Hn Hbuf1)
      as Hd.
    destruct (MosMain_loop n answers 0 (R, st1)) as [[R' st']| |] eqn:Hl;
      [|discriminate|contradiction].
    apply MosMain_loop_Completed in Hl.
    destruct Hl as (Hpf & _ & L1 & L2 & L3 & L4 & _).
    assert (HR' : results_table R' (length entries)).
    { destruct HR as (T1 & T2 & T3 & T4 & T5). unfold results_table.
      rewrite L1, L2, L3, L4, Hpf. auto. }
    destruct (PrintResults_table R' _ HR') as [report ->]. discriminate. }
  destruct (Nat.eqb_spec (Selection Results) (length (PixelFormats Results))) as [E|NE].
  - apply Hloop; [exact HT|cbn; lia].
  - apply Hloop; [exact HT|lia].
Qed.

(** The two pixel formats listed, and the selection of all of them. *)
Lemma MosMain_is_defined_witness :
  MosMain true 1000000 formats [2%nat] (fun _ => scenario_answers) idle <> Erroneous.
Proof.
  apply MosMain_is_defined.
  - discriminate.
  - reflexivity.
  - intros k. repeat split; try (vm_compute; (reflexivity || discriminate)).
    vm_compute. eauto.
Defined.

(** With a camera that enumerates no pixel format, [Results.Selection]
    keeps the value [-1] that [EnumeratePixelFormats] stored: [MosMain]
    takes it for the selection of one format and makes one pass, in which
    [ApplyPixelFormat] indexes the empty vector of the pixel formats. *)
Theorem MosMain_without_pixel_formats (TickFreq : Z) (inputs : list nat)
    (answers : nat -> pass_answers) (st : MilState) :
  TickFreq <> 0 ->
  is_Some (wait_until_writable (access_modes (answers 0%nat))) ->
  MosMain true TickFreq [] inputs answers st = Erroneous.
Proof.
  intros Hf [sleeps Hw]. unfold MosMain. cbn [negb].
  destruct (Z.eqb_spec TickFreq 0) as [|_]; [contradiction|].
  cbn [EnumeratePixelFormats no_results length Nat.eqb set_Selection
       PixelFormats Selection InterPacketDelayInTicks InterPacketDelayInSec
       ReferenceFrameRate ObtainedFrameRate].
  destruct (Nat.eqb_spec ULONG_MAX 0) as [E|_]; [now apply ULONG_MAX_positive in E|].
  cbn [MosMain_loop]. unfold MosMain_iteration, ApplyPixelFormat.
  rewrite Hw.
  change (PixelFormats (set_Selection ULONG_MAX no_results)) with (@nil string).
  rewrite lookup_nil. reflexivity.
Qed.

Lemma MosMain_without_pixel_formats_witness :
  MosMain true 1000000 [] [0%nat] (fun _ => scenario_answers) idle = Erroneous.
Proof.
  apply MosMain_without_pixel_formats.
  - discriminate.
  - vm_compute. eauto.
Defined.

(** The selection that the loop waits for is the first input in range. *)
Lemma wait_for_selection_first (size : nat) (inputs : list nat) (k : nat) :
  wait_for_selection size inputs = Some k <->
  exists i : nat,
    inputs !! i = Some k /\ (k <= size)%nat /\
    forall (j : nat) (x : nat), (j < i)%nat -> inputs !! j = Some x -> (size < x)%nat.
Proof.
  induction inputs as [|y inputs IH]; cbn [wait_for_selection].
  - split; [discriminate|]. intros (i & Hi & _). now rewrite lookup_nil in Hi.
  - destruct (Nat.leb_spec y size) as [Hy|Hy].
    + split.
      * intros [= <-]. exists 0%nat. repeat split; [assumption|]. intros j x Hj. lia.
      * intros (i & Hi & Hk & Hfirst). destruct i as [|i]; [now injection Hi as ->|].
        specialize (Hfirst 0%nat y ltac:(lia) eq_refl). lia.
    + rewrite IH. split.
      * intros (i & Hi & Hk & Hfirst). exists (S i). repeat split; try assumption.
        intros [|j] x Hj Hx; [injection Hx as <-; assumption|].
        apply (Hfirst j x); [lia|assumption].
      * intros (i & Hi & Hk & Hfirst). destruct i as [|i]; [injection Hi as ->; lia|].
        exists i. repeat split; try assumption.
        intros j x Hj Hx. apply (Hfirst (S j) x); [lia|assumption].
Qed.

(** [EnumeratePixelFormats] on a camera that enumerates at least one pixel
    format lists the compatible formats in the order of the camera and
    fills the four result vectors with one zero for each format enumerated,
    listed or not.  It returns with a selection that is at most the number
    of formats listed: zero when one format or none is listed, and else the
    first input that is at most that number, the inputs before it being
    asked again.  It changes neither the delay register nor the grab
    buffers. *)
Theorem EnumeratePixelFormats_returns (entries : list PixelFormatEntry)
    (inputs : list nat) (Results Results' : PacketDelayResults) (st st' : MilState) :
  entries <> [] -> PixelFormats Results = [] ->
  EnumeratePixelFormats entries inputs (Results, st) = Completed (Results', st') ->
  PixelFormats Results' = listed entries /\
  results_table Results' (length entries) /\
  (forall i : nat, (i < length entries)%nat ->
     InterPacketDelayInTicks Results' !! i = Some 0 /\
     InterPacketDelayInSec Results' !! i = Some 0%float /\
     ReferenceFrameRate Results' !! i = Some 0%float /\
     ObtainedFrameRate Results' !! i = Some 0%float) /\
  (Selection Results' <= length (listed entries))%nat /\
  (if (1 <? length (listed entries))%nat then
     exists i : nat,
       inputs !! i = Some (Selection Results') /\
       forall (j : nat) (x : nat), (j < i)%nat -> inputs !! j = Some x ->
         (length (listed entries) < x)%nat
   else Selection Results' = 0%nat) /\
  MilDigitizer st' = MilDigitizer st /\
  MilGrabBuffers st' = MilGrabBuffers st.
Proof.
  intros Hne Hpf He.
  destruct (EnumeratePixelFormats_Completed _ _ _ _ _ _ Hne Hpf He)
    as (Hl & H1 & H2 & H3 & H4 & Hsel & Hd & Hb).
  pose proof (selected_le _ _ _ Hsel) as Hk.
  pose proof (length_listed entries) as Hsize.
  split; [assumption|]. split.
  { unfold results_table. rewrite Hl, H1, H2, H3, H4, !length_replicate. auto. }
  split.
  { intros i Hi. rewrite H1, H2, H3, H4. now rewrite !lookup_replicate_2 by assumption. }
  split; [assumption|]. split; [|auto].
  unfold selected in Hsel. destruct (1 <? length (listed entries))%nat.
  - apply wait_for_selection_first in Hsel.
    destruct Hsel as (i & Hi & _ & Hfirst). eauto.
  - now injection Hsel.
Qed.

(** The user asks for a format that is not listed, then for the second. *)
Lemma EnumeratePixelFormats_returns_witness :
  PixelFormats
    (mkResults ["Mono8"; "RGB8"]%string [0; 0; 0] [0; 0; 0]%float [0; 0; 0]%float
       [0; 0; 0]%float 1)
    = listed formats /\
  results_table
    (mkResults ["Mono8"; "RGB8"]%string [0; 0; 0] [0; 0; 0]%float [0; 0; 0]%float
       [0; 0; 0]%float 1) (length formats) /\
  (forall i : nat, (i < length formats)%nat ->
     [0; 0; 0] !! i = Some 0 /\
     [0; 0; 0]%float !! i = Some 0%float /\
     [0; 0; 0]%float !! i = Some 0%float /\
     [0; 0; 0]%float !! i = Some 0%float) /\
  (1 <= length (listed formats))%nat /\
  (if (1 <? length (listed formats))%nat then
     exists i : nat,
       [7; 1; 0]%nat !! i = Some 1%nat /\
       forall (j : nat) (x : nat), (j < i)%nat -> [7; 1; 0]%nat !! j = Some x ->
         (length (listed formats) < x)%nat
   else 1%nat = 0%nat) /\
  MilDigitizer (set_PixelFormat "RGB8" idle) = MilDigitizer idle /\
  MilGrabBuffers (set_PixelFormat "RGB8" idle) = MilGrabBuffers idle.
Proof.
  apply (EnumeratePixelFormats_returns formats [7; 1; 0]%nat no_results
           (mkResults ["Mono8"; "RGB8"]%string [0; 0; 0] [0; 0; 0]%float [0; 0; 0]%float
              [0; 0; 0]%float 1) idle (set_PixelFormat "RGB8" idle)).
  - discriminate.
  - reflexivity.
  - reflexivity.
Defined.

(** [MosMain] past its two early exits. *)
Lemma MosMain_Completed (TickFreq : Z) (entries : list PixelFormatEntry)
    (inputs : list nat) (answers : nat -> pass_answers) (st st' : MilState)
    (report : list report_row) :
  TickFreq <> 0 ->
  MosMain true TickFreq entries inputs answers st = Completed (report, st') ->
  exists (R0 R' : PacketDelayResults) (st1 st2 : MilState) (n : nat),
    EnumeratePixelFormats entries inputs (no_results, st) = Completed (R0, st1) /\
    n = (if (Selection R0 =? length (PixelFormats R0))%nat
         then length (PixelFormats R0) else 1%nat) /\
    MosMain_loop n answers 0
      (if (Selection R0 =? length (PixelFormats R0))%nat then set_Selection 0 R0 else R0,
       st1) = Completed (R', st2) /\
    PrintResults R' = Some report /\
    st' = mkState (MdigControl 0 (MilDigitizer st2)) (PixelFormat st2) (MilGrabBuffers st2).
Proof.
  intros Hf. unfold MosMain. cbn [negb].
  destruct (Z.eqb_spec TickFreq 0) as [|_]; [contradiction|].
  destruct (EnumeratePixelFormats entries inputs (no_results, st))
    as [[R0 st1]| |]; try discriminate.
  destruct (Selection R0 =? length (PixelFormats R0))%nat eqn:E.
  - destruct (MosMain_loop _ answers 0 _) as [[R' st2]| |] eqn:Hl; try discriminate.
    destruct (PrintResults R') as [report'|] eqn:Hp; [|discriminate].
    intros [= <- <-]. exists R0, R', st1, st2, (length (PixelFormats R0)).
    rewrite E. auto.
  - destruct (MosMain_loop _ answers 0 _) as [[R' st2]| |] eqn:Hl; try discriminate.
    destruct (PrintResults R') as [report'|] eqn:Hp; [|discriminate].
    intros [= <- <-]. exists R0, R', st1, st2, 1%nat.
    rewrite E. auto.
Qed.

(** The report of [MosMain] has one block for each pixel format listed.
    When all of them were selected, the block of a format shows the
    reference rate of the pass made for it.  When one format was selected,
    its block shows the reference rate of the only pass, and the blocks of
    the other formats show zero ticks, zero microseconds and rates of
    zero.  In both cases the camera is left with the pixel format of the
    last pass. *)
Theorem MosMain_report (TickFreq : Z) (entries : list PixelFormatEntry)
    (inputs : list nat) (answers : nat -> pass_answers) (st st' : MilState)
    (report : list report_row) :
  TickFreq <> 0 -> entries <> [] ->
  MosMain true TickFreq entries inputs answers st = Completed (report, st') ->
  exists k : nat,
    selected entries inputs = Some k /\
    row_format <$> report = listed entries /\
    if decide (k = length (listed entries)) then
      (forall j : nat, (j < length (listed entries))%nat ->
         row_reference <$> report !! j = Some (reference_rate (answers j))) /\
      (listed entries <> [] -> last (listed entries) = Some (PixelFormat st'))
    else
      row_reference <$> report !! k = Some (reference_rate (answers 0%nat)) /\
      (forall (j : nat) (name : string), j <> k -> listed entries !! j = Some name ->
         report !! j = Some (mkRow name 0 0 0 0)) /\
      listed entries !! k = Some (PixelFormat st').
Proof.
  intros Hf Hne Hmain.
  destruct (MosMain_Completed _ _ _ _ _ _ _ Hf Hmain)
    as (R0 & R' & st1 & st2 & n & He & Hn & Hloop & Hprint & ->).
  destruct (EnumeratePixelFormats_Completed entries inputs no_results _ st _ Hne eq_refl He)
    as (Hpf & H1 & H2 & H3 & H4 & Hsel & _).
  pose proof (selected_le _ _ _ Hsel) as Hk.
  pose proof (length_listed entries) as Hsize.
  exists (Selection R0). split; [assumption|].
  destruct (PrintResults_rows _ _ Hprint) as [Hlen Hrows].
  assert (Hpf0 : PixelFormats R' = listed entries).
  { apply MosMain_loop_Completed in Hloop. destruct Hloop as (-> & _).
    destruct (Selection R0 =? length (PixelFormats R0))%nat; exact Hpf. }
  rewrite Hpf0 in Hlen, Hrows.
  split.
  { apply list_eq. intros i. rewrite list_lookup_fmap.
    destruct (listed entries !! i) as [name|] eqn:Hi.
    - destruct (Hrows i name Hi) as (t & s & r & o & _ & _ & _ & _ & ->). reflexivity.
    - apply lookup_ge_None in Hi. rewrite lookup_ge_None_2 by lia. reflexivity. }
  rewrite Hpf in Hn, Hloop. cbn [PixelFormat].
  destruct (decide (Selection R0 = length (listed entries))) as [E|NE].
  - rewrite E, Nat.eqb_refl in Hloop, Hn. subst n.
    apply MosMain_loop_Completed in Hloop.
    destruct Hloop as (_ & _ & _ & _ & _ & _ & _ & _ & Hin & Hlast).
    cbn [set_Selection Selection PixelFormats Nat.add] in Hin, Hlast.
    rewrite Hpf in Hlast. split.
    + intros j Hj. destruct (lookup_lt_is_Some_2 (listed entries) j Hj) as [name Hname].
      destruct (Hrows j name Hname) as (t & s & r & o & _ & _ & Hr & _ & ->).
      cbn. rewrite <- Hr. exact (Hin j Hj).
    + intros Hnil. rewrite last_lookup.
      destruct (length (listed entries)) as [|m] eqn:Hm.
      * destruct (listed entries); [contradiction|discriminate].
      * exact Hlast.
  - destruct (Nat.eqb_spec (Selection R0) (length (listed entries))) as [|_];
      [contradiction|]. subst n.
    apply MosMain_loop_Completed in Hloop.
    destruct Hloop as (_ & _ & _ & _ & _ & _ & _ & Hout & Hin & Hlast).
    rewrite Nat.add_0_r, Hpf in Hlast.
    split; [|split; [|exact Hlast]].
    + destruct (lookup_lt_is_Some_2 (listed entries) (Selection R0) ltac:(lia))
        as [name Hname].
      destruct (Hrows _ name Hname) as (t & s & r & o & _ & _ & Hr & _ & ->).
      cbn. rewrite <- Hr. specialize (Hin 0%nat ltac:(lia)).
      now rewrite Nat.add_0_r in Hin.
    + intros j name Hj Hname. apply lookup_lt_Some in Hname as Hlt.
      destruct (Hrows j name Hname) as (t & s & r & o & Ht & Hs & Hr & Ho & ->).
      destruct (Hout j ltac:(lia)) as (E1 & E2 & E3 & E4).
      rewrite E1, H1, lookup_replicate_2 in Ht by lia.
      rewrite E2, H2, lookup_replicate_2 in Hs by lia.
      rewrite E3, H3, lookup_replicate_2 in Hr by lia.
      rewrite E4, H4, lookup_replicate_2 in Ho by lia.
      injection Ht as <-. injection Hs as <-. injection Hr as <-. injection Ho as <-.
      reflexivity.
Qed.

(** The first of the two pixel formats listed is selected. *)
Lemma MosMain_report_witness :
  exists k : nat,
    selected formats [0%nat] = Some k /\
    row_format <$> [mkRow "Mono8" 408 (0.00040816999999999996 * 1e6) 30 30;
                    mkRow "RGB8" 0 0 0 0]
      = listed formats /\
    if decide (k = length (listed formats)) then
      (forall j : nat, (j < length (listed formats))%nat ->
         row_reference <$> [mkRow "Mono8" 408 (0.00040816999999999996 * 1e6) 30 30;
                            mkRow "RGB8" 0 0 0 0] !! j
           = Some (reference_rate scenario_answers)) /\
      (listed formats <> [] -> last (listed formats) = Some "Mono8"%string)
    else
      row_reference <$> [mkRow "Mono8" 408 (0.00040816999999999996 * 1e6) 30 30;
                         mkRow "RGB8" 0 0 0 0] !! k
        = Some (reference_rate scenario_answers) /\
      (forall (j : nat) (name : string), j <> k -> listed formats !! j = Some name ->
         [mkRow "Mono8" 408 (0.00040816999999999996 * 1e6) 30 30;
          mkRow "RGB8" 0 0 0 0] !! j = Some (mkRow name 0 0 0 0)) /\
      listed formats !! k = Some "Mono8"%string.
Proof.
  apply (MosMain_report 1000000 formats [0%nat] (fun _ => scenario_answers) idle
           (mkState (mkDigitizer 0 [0; 408; 480; 490; 500; 0]) "Mono8"
              (mkBuffers [7; 8; 9; 0; 0; 0; 0; 0; 0; 0; 0; 0; 0; 0; 0; 0; 0; 0; 0; 0]
                 0 [9; 8; 7] [7; 8; 9]))
           [mkRow "Mono8" 408 (0.00040816999999999996 * 1e6) 30 30;
            mkRow "RGB8" 0 0 0 0]).
  - discriminate.
  - discriminate.
  - reflexivity.
Defined.

(** When [MosMain] returns, every grab buffer that it allocated has been
    freed, and past the two early exits the delay register of the camera is
    at zero, the last value programmed: the delay found is reported, not
    left in the camera.  On the early exits nothing is reported and the
    camera and the buffers are as they were. *)
Theorem MosMain_leaves (gige : bool) (TickFreq : Z) (entries : list PixelFormatEntry)
    (inputs : list nat) (answers : nat -> pass_answers) (st st' : MilState)
    (report : list report_row) :
  length (MilGrabBufferList (MilGrabBuffers st)) = BUFFERING_SIZE_MAX ->
  MosMain gige TickFreq entries inputs answers st = Completed (report, st') ->
  (exists new : list Z,
     allocated (MilGrabBuffers st') = new ++ allocated (MilGrabBuffers st) /\
     freed (MilGrabBuffers st') ≡ₚ new ++ freed (MilGrabBuffers st)) /\
  if gige && negb (TickFreq =? 0) then
    GC_INTER_PACKET_DELAY (MilDigitizer st') = 0 /\
    head (programmed (MilDigitizer st')) = Some 0
  else report = [] /\ st' = st.
Proof.
  intros Hbuf Hmain.
  destruct gige; cbn [andb negb];
    [|unfold MosMain in Hmain; cbn in Hmain; injection Hmain as <- <-;
      split; [now exists []|auto]].
  destruct (Z.eqb_spec TickFreq 0) as [E|NE]; cbn [negb].
  { unfold MosMain in Hmain. cbn [negb] in Hmain.
    rewrite E in Hmain. cbn in Hmain. injection Hmain as <- <-.
    split; [now exists []|auto]. }
  destruct (MosMain_Completed _ _ _ _ _ _ _ NE Hmain)
    as (R0 & R' & st1 & st2 & n & He & Hn & Hloop & Hprint & ->).
  cbn. split; [|auto].
  assert (Hb1 : MilGrabBuffers st1 = MilGrabBuffers st).
  { revert He. unfold EnumeratePixelFormats.
    destruct (length entries =? 0)%nat; [now intros [= _ <-]|].
    pose proof (fold_enumerate_entry entries
                  (assign_results (length entries) (set_Selection ULONG_MAX no_results)) st)
      as (_ & _ & _ & _ & _ & _ & _ & H8). cbn zeta in H8.
    destruct (fold_left enumerate_entry entries _) as [R1 st1']. cbn [snd] in H8.
    destruct (1 <? length (PixelFormats R1))%nat; [|now intros [= _ <-]].
    destruct (wait_for_selection _ inputs); [now intros [= _ <-]|discriminate]. }
  rewrite <- Hb1 in *.
  destruct (MosMain_loop_buffers _ _ _ _ _ _ _ Hbuf Hloop) as (_ & new & Ha & Hf).
  eauto.
Qed.

Lemma MosMain_leaves_witness :
  (exists new : list Z,
     [9; 8; 7] = new ++ [] /\ [7; 8; 9] ≡ₚ new ++ []) /\
  if true && negb (1000000 =? 0) then
    0 = 0 /\ head [0; 408; 480; 490; 500; 0] = Some 0
  else [mkRow "Mono8" 408 (0.00040816999999999996 * 1e6) 30 30; mkRow "RGB8" 0 0 0 0] = []
       /\ mkState (mkDigitizer 0 [0; 408; 480; 490; 500; 0]) "Mono8"
            (mkBuffers [7; 8; 9; 0; 0; 0; 0; 0; 0; 0; 0; 0; 0; 0; 0; 0; 0; 0; 0; 0]
               0 [9; 8; 7] [7; 8; 9]) = idle.
Proof.
  apply (MosMain_leaves true 1000000 formats [0%nat] (fun _ => scenario_answers) idle
           (mkState (mkDigitizer 0 [0; 408; 480; 490; 500; 0]) "Mono8"
              (mkBuffers [7; 8; 9; 0; 0; 0; 0; 0; 0; 0; 0; 0; 0; 0; 0; 0; 0; 0; 0; 0]
                 0 [9; 8; 7] [7; 8; 9]))
           [mkRow "Mono8" 408 (0.00040816999999999996 * 1e6) 30 30;
            mkRow "RGB8" 0 0 0 0]).
  - reflexivity.
  - reflexivity.
Defined.

(** ** [MosMain] runs to its end *)

(** A search on answers in range, with a tick frequency that a [MIL_UINT64]
    holds and frame rates for [pass_limit] passes, is not under way when
    the rates end. *)
Lemma MosMain_pass_ends (a : pass_answers) (Results : PacketDelayResults)
    (dev : Digitizer) (Count : nat) :
  answers_in_range a -> tick_frequency a < 2 ^ 64 ->
  (pass_limit <= length (measured_rates a))%nat ->
  results_table Results Count -> (Selection Results < Count)%nat ->
  forall n : nat,
    MosMain_pass (tick_frequency a) (reference_rate a) (theoretical_delay a)
      (measured_rates a) Results dev <> NotReturned n.
Proof.
  intros (Hf & H0 & [t Ht]) Hf64 Hlen (H1 & H2 & H3 & H4 & _) Hsel n.
  destruct (AcquireReferenceFrameRate_search_state (tick_frequency a) t
              (reference_rate a) (theoretical_delay a) Results dev Hf H0 Ht ltac:(lia))
    as (Info & Results1 & Ha & HS & _).
  assert (HF : TickFreq Info = tick_frequency a).
  { apply AcquireReferenceFrameRate_Some in Ha. now destruct Ha as (_ & _ & -> & _). }
  pose proof HS as (Hf' & Hc & Hd & Htk).
  destruct (delay_ticks_product _ _ _ Hd Hf' Htk) as [Hup _].
  destruct (while_not_Done_exits (measured_rates a) 0 0 Info (MdigControl 0 dev)
              (Zval (Prim2SF (DelayInSeconds Info))))
    as (m & b & [Info' dev'] & Hw & _); try assumption.
  - rewrite HF. lia.
  - unfold pass_limit. lia.
  - cbn. lia.
  - unfold MosMain_pass. rewrite Ha. unfold FindInterPacketDelay. rewrite Hw.
    unfold store_solution. destruct (Error Info'); [discriminate|].
    cbn zeta. destruct (decide _); discriminate.
Qed.

(** A pass of the loop of [MosMain] on such answers completes when the
    pixel format becomes writable. *)
Lemma MosMain_iteration_ends (a : pass_answers) (Results : PacketDelayResults)
    (st : MilState) (Count : nat) :
  answers_in_range a -> tick_frequency a < 2 ^ 64 ->
  (pass_limit <= length (measured_rates a))%nat ->
  is_Some (wait_until_writable (access_modes a)) ->
  results_table Results Count ->
  (Selection Results < length (PixelFormats Results))%nat ->
  MosMain_iteration a (Results, st) <> Pending.
Proof.
  intros Ha Hf Hlen [sleeps Hw] HT Hsel. unfold MosMain_iteration, ApplyPixelFormat.
  rewrite Hw.
  destruct (PixelFormats Results !! Selection Results) as [name|]; [|discriminate].
  cbn [set_PixelFormat MilDigitizer MilGrabBuffers PixelFormat].
  pose proof (MosMain_pass_ends a Results (MilDigitizer st) Count Ha Hf Hlen HT
                ltac:(destruct HT as (_ & _ & _ & _ & ?); lia)) as Hend.
  destruct (MosMain_pass _ _ _ _ Results (MilDigitizer st))
    as [n b Info' Results1 dev'|n|]; [|now destruct (Hend n)|discriminate].
  destruct (free_grab_buffers _); discriminate.
Qed.

Lemma MosMain_loop_ends (n : nat) (answers : nat -> pass_answers) (Count : nat) :
  (forall i : nat,
     answers_in_range (answers i) /\ tick_frequency (answers i) < 2 ^ 64 /\
     (pass_limit <= length (measured_rates (answers i)))%nat /\
     is_Some (wait_until_writable (access_modes (answers i)))) ->
  forall (k : nat) (Results : PacketDelayResults) (st : MilState),
  results_table Results Count ->
  (Selection Results + n <= length (PixelFormats Results))%nat ->
  length (MilGrabBufferList (MilGrabBuffers st)) = BUFFERING_SIZE_MAX ->
  exists (Results' : PacketDelayResults) (st' : MilState),
    MosMain_loop n answers k (Results, st) = Completed (Results', st') /\
    results_table Results' Count.
Proof.
  intros Hans. induction n as [|n IH]; intros k Results st HT Hsel Hbuf.
  - cbn. eauto.
  - cbn [MosMain_loop].
    destruct (Hans k) as (Hr & Hf & Hlen & Hw).
    pose proof (MosMain_iteration_in_range (answers k) Results st Count Hr HT
                  ltac:(lia) Hbuf) as Hdef.
    pose proof (MosMain_iteration_ends (answers k) Results st Count Hr Hf Hlen Hw HT
                  ltac:(lia)) as Hend.
    destruct (MosMain_iteration (answers k) (Results, st)) as [[R1 st1]| |] eqn:Hit;
      [|contradiction|contradiction].
    destruct (MosMain_iteration_buffers _ _ _ _ _ Hbuf Hit) as (Hbuf1 & _).
    apply MosMain_iteration_Completed in Hit.
    destruct Hit as (_ & Hpf & Hs & L1 & L2 & L3 & L4 & _).
    apply IH; [|rewrite Hpf, Hs; lia|assumption].
    destruct HT as (T1 & T2 & T3 & T4 & T5). unfold results_table.
    rewrite L1, L2, L3, L4, Hpf. auto.
Qed.

(** [EnumeratePixelFormats] returns when the user ends up with a valid
    selection. *)
Lemma EnumeratePixelFormats_selected (entries : list PixelFormatEntry)
    (inputs : list nat) (st : MilState) :
  entries <> [] -> is_Some (selected entries inputs) ->
  exists (Results : PacketDelayResults) (st1 : MilState),
    EnumeratePixelFormats entries inputs (no_results, st) = Completed (Results, st1).
Proof.
  intros Hne [k Hk]. unfold EnumeratePixelFormats.
  destruct (Nat.eqb_spec (length entries) 0) as [H0|_].
  { destruct entries; [contradiction|discriminate]. }
  pose proof (fold_enumerate_entry entries
                (assign_results (length entries) (set_Selection ULONG_MAX no_results)) st)
    as (H1 & _). cbn zeta in *.
  destruct (fold_left enumerate_entry entries _) as [R1 st1]. cbn [fst snd] in *.
  cbn in H1. unfold selected in Hk. rewrite <- H1 in Hk.
  destruct (1 <? length (PixelFormats R1))%nat; [|eauto].
  rewrite Hk. eauto.
Qed.

(** [MosMain] runs to its end and prints its report when the camera
    enumerates a pixel format, the user ends up with a valid selection, and
    at every pass the pixel format becomes writable, the answers of the
    camera are in range, its tick frequency fits a [MIL_UINT64] and it
    measures frame rates for as many passes of the search as the pass limit:
    no loop of the program waits for ever and no index is out of range. *)
Theorem MosMain_completes (gige : bool) (TickFreq : Z)
    (entries : list PixelFormatEntry) (inputs : list nat)
    (answers : nat -> pass_answers) (st : MilState) :
  entries <> [] ->
  length (MilGrabBufferList (MilGrabBuffers st)) = BUFFERING_SIZE_MAX ->
  is_Some (selected entries inputs) ->
  (forall k : nat,
     answers_in_range (answers k) /\ tick_frequency (answers k) < 2 ^ 64 /\
     (pass_limit <= length (measured_rates (answers k)))%nat /\
     is_Some (wait_until_writable (access_modes (answers k)))) ->
  exists (report : list report_row) (st' : MilState),
    MosMain gige TickFreq entries inputs answers st = Completed (report, st').
Proof.
  intros Hne Hbuf Hsel Hans. unfold MosMain.
  destruct gige; cbn [negb]; [|eauto].
  destruct (TickFreq =? 0); [eauto|].
  destruct (EnumeratePixelFormats_selected entries inputs st Hne Hsel)
    as (Results & st1 & He).
  rewrite He.
  destruct (EnumeratePixelFormats_table _ _ _ _ _ Hne He) as [HT Hle].
  destruct (EnumeratePixelFormats_Completed entries inputs no_results _ st _ Hne eq_refl He)
    as (_ & _ & _ & _ & _ & _ & _ & Hb1).
  assert (Hbuf1 : length (MilGrabBufferList (MilGrabBuffers st1)) = BUFFERING_SIZE_MAX)
    by now rewrite Hb1.
  assert (Hloop : forall n R,
             results_table R (length entries) ->
             (Selection R + n <= length (PixelFormats R))%nat ->
             exists (report : list report_row) (st' : MilState),
               match MosMain_loop n answers 0 (R, st1) with
               | Completed (Results, st0) =>
                   match PrintResults Results with
                   | Some report =>
                       Completed
                         (report,
                          mkState (MdigControl 0 (MilDigitizer st0)) (PixelFormat st0)
                            (MilGrabBuffers st0))
                   | None => Erroneous
                   end
               | Pending => Pending
               | Erroneous => Erroneous
               end = Completed (report, st')).
  { intros n R HR Hn.
    destruct (MosMain_loop_ends n answers (length entries) Hans 0 R st1 HR Hn Hbuf1)
      as (R' & st' & -> & HR').
    destruct (PrintResults_table R' _ HR') as [report ->]. eauto. }
  destruct (Nat.eqb_spec (Selection Results) (length (PixelFormats Results))) as [E|NE].
  - apply Hloop; [exact HT|cbn; lia].
  - apply Hloop; [exact HT|lia].
Qed.

(** The two pixel formats listed and both selected, with a camera that
    never reaches the reference rate again. *)
Lemma MosMain_completes_witness :
  exists (report : list report_row) (st' : MilState),
    MosMain true 1000000 formats [2%nat]
      (fun _ => mkAnswers 1000000 [false; true] (buffer_ids scenario_answers)
                  30 0.0005 (replicate pass_limit 25%float)) idle
    = Completed (report, st').
Proof.
  apply (MosMain_completes true 1000000 formats [2%nat]
           (fun _ => mkAnswers 1000000 [false; true] (buffer_ids scenario_answers)
                       30 0.0005 (replicate pass_limit 25%float)) idle).
  - discriminate.
  - reflexivity.
  - vm_compute. eauto.
  - intros k. split; [|split; [|split]].
    + repeat split; try (vm_compute; (reflexivity || discriminate)).
      vm_compute. eauto.
    + cbn. lia.
    + cbn [measured_rates]. rewrite length_replicate. lia.
    + vm_compute. eauto.
Defined.
